(** * lleaves: the LLVM code generator for LightGBM forests

    A shallow embedding of [lleaves/compiler/ast/nodes.py] and
    [lleaves/compiler/codegen/codegen.py].  The generator is embedded as
    functions over an explicit builder state (llvmlite's mutable [ir.Module],
    [ir.Function] and [ir.Block] objects become records threaded through a
    state-and-error monad).  What the generator emits is data: instructions
    of a small typed IR.  The IR is given an executable semantics following
    the LLVM language reference, so that statements about how the emitted
    code routes an input can be proved. *)

From Stdlib Require Import ZArith List String Ascii Bool Lia Arith.
From Stdlib Require Import Floats.SpecFloat DecimalString DecimalZ DecimalPos.
Import ListNotations.
Local Open Scope string_scope.
Local Open Scope list_scope.
Local Open Scope Z_scope.

Set Implicit Arguments.

(* ===================================================================== *)
(** * Numbers of the target: IEEE-754 binary64 and 32-bit integers *)
(* ===================================================================== *)

(** A Python [float] and an LLVM [double] are both binary64.  We use the
    standard library's inductive specification of floats, on which the
    comparisons and the arithmetic compute. *)
Definition f64 := spec_float.

Definition prec64 : Z := 53.
Definition emax64 : Z := 1024.

Definition f64_zero : f64 := S754_zero false.
Definition f64_neg_zero : f64 := S754_zero true.
Definition f64_one : f64 := S754_finite false 4503599627370496 (-52).
Definition f64_nan : f64 := S754_nan.

Definition f64_add : f64 -> f64 -> f64 := SFadd prec64 emax64.
Definition f64_mul : f64 -> f64 -> f64 := SFmul prec64 emax64.
Definition f64_div : f64 -> f64 -> f64 := SFdiv prec64 emax64.

Definition f64_is_nan (x : f64) : bool :=
  match x with S754_nan => true | _ => false end.

Definition f64_is_finite (x : f64) : bool :=
  match x with S754_zero _ | S754_finite _ _ _ => true | _ => false end.

Definition f64_sign (x : f64) : bool :=
  match x with
  | S754_zero s | S754_infinity s | S754_finite s _ _ => s
  | S754_nan => false
  end.

(** [llvm.copysign.f64]: magnitude of the first, sign of the second. *)
Definition f64_copysign (x y : f64) : f64 :=
  if Bool.eqb (f64_sign x) (f64_sign y) then x else SFopp x.

(** llvmlite prints a constant of type [float] after rounding it to single
    precision ([_as_float]). *)
Definition as_float (x : f64) : f64 :=
  match x with
  | S754_finite s m e => binary_round 24 128 s m e
  | _ => x
  end.

(** Two's-complement 32-bit integers, kept as their signed value. *)
Definition two32 : Z := 4294967296.
Definition two31 : Z := 2147483648.
Definition INT_MIN : Z := - two31.

Definition to_unsigned (z : Z) : Z := z mod two32.
Definition wrap32 (z : Z) : Z := (z + two31) mod two32 - two31.

(** [fptosi double -> i32].  Rounds toward zero.  On NaN and on values that
    do not fit, LLVM leaves the result unspecified; we take what the x86
    conversion produces and what the comment in
    [_populate_categorical_node_block] relies on ("NaNs become negative
    max_val"): the value [INT_MIN]. *)
Definition fptosi (x : f64) : Z :=
  match x with
  | S754_zero _ => 0
  | S754_finite s m e =>
      let mag := match e with
                 | Zneg p => Z.shiftr (Zpos m) (Zpos p)
                 | _ => Z.shiftl (Zpos m) e
                 end in
      let z := if s then - mag else mag in
      if (INT_MIN <=? z) && (z <? two31) then z else INT_MIN
  | _ => INT_MIN
  end.

(* ===================================================================== *)
(** * Errors and the builder monad *)
(* ===================================================================== *)

(** The Python exceptions the generator can let escape. *)
Inductive PyError : Type :=
| IndexError                                   (* sequence index out of range *)
| TypeError                                    (* e.g. [len(None)] *)
| AttributeError                               (* e.g. [None.split] *)
| FloatParseError (s : string)                 (* [float(s)] raising ValueError *)
| SigmoidParamError (alpha : f64)              (* "Sigmoid parameter needs to be >0, is ..." *)
| ObjectiveNotImplemented (objective : string) (* "Objective '...' not yet implemented. ..." *)
| DuplicatedNameError (name : string)          (* llvmlite: global name already used *)
| AssertionError.

Inductive result (A : Type) : Type :=
| OK (a : A)
| Raise (e : PyError).
Arguments OK {A} a.
Arguments Raise {A} e.

Definition is_ok {A} (r : result A) : bool :=
  match r with OK _ => true | Raise _ => false end.

(** State-and-error monad: the state is whatever mutable llvmlite object the
    code at hand writes to. *)
Definition M (S A : Type) : Type := S -> result (A * S).

Definition ret {S A} (a : A) : M S A := fun s => OK (a, s).

Definition bind {S A B} (c : M S A) (k : A -> M S B) : M S B :=
  fun s => match c s with
           | OK (a, s') => k a s'
           | Raise e => Raise e
           end.

Definition raise {S A} (e : PyError) : M S A := fun _ => Raise e.

Definition lift_result {S A} (r : result A) : M S A :=
  fun s => match r with OK a => OK (a, s) | Raise e => Raise e end.

Declare Scope monad_scope.
Delimit Scope monad_scope with monad.
Notation "x <- c ;; k" := (bind c (fun x => k))
  (at level 61, c at next level, right associativity) : monad_scope.
Notation "c ;;; k" := (bind c (fun _ => k))
  (at level 61, right associativity) : monad_scope.
Local Open Scope monad_scope.

(* ===================================================================== *)
(** * The IR that llvmlite builds *)
(* ===================================================================== *)

Inductive ir_type : Type :=
| VoidType
| IntType (bits : positive)
| FloatType
| DoubleType
| PointerType (pointee : ir_type)
| VectorType (element : ir_type) (count : nat).


(** Module-level constants of [codegen.py]. *)
Definition BOOL : ir_type := IntType 1.
Definition DOUBLE : ir_type := DoubleType.
Definition FLOAT : ir_type := FloatType.
Definition INT_CAT : ir_type := IntType 32.
Definition INT : ir_type := IntType 32.
Definition FLOAT_POINTER : ir_type := PointerType FLOAT.
Definition DOUBLE_PTR : ir_type := PointerType DOUBLE.

(** An [ir.Value]: a constant (type and Python payload), a function argument,
    or the result of an instruction.  Instructions are objects in llvmlite;
    here each gets a number, unique in its function. *)
Inductive ir_value : Type :=
| Constant (ty : ir_type) (c : pyconst)
| Argument (ty : ir_type) (pos : nat)
| InstrRef (ty : ir_type) (id : nat)
with pyconst : Type :=
| PyInt (z : Z)
| PyFloat (x : f64)
| PyList (elems : list ir_value).

Definition type_of (v : ir_value) : ir_type :=
  match v with
  | Constant ty _ | Argument ty _ | InstrRef ty _ => ty
  end.

Definition ZERO_V : ir_value := Constant BOOL (PyInt 0).

Definition iconst (value : Z) : ir_value := Constant INT (PyInt value).
Definition fconst (value : f64) : ir_value := Constant FLOAT (PyFloat value).
Definition dconst (value : f64) : ir_value := Constant DOUBLE (PyFloat value).

Inductive cmpop : Type := CmpLt | CmpLe | CmpEq | CmpGt.

Inductive intrinsic : Type := llvm_exp | llvm_log | llvm_copysign.

(** What a [call] targets: a function of the module (held by reference, i.e.
    by its position in the module) or a declared intrinsic. *)
Inductive callee : Type :=
| FuncRef (pos : nat) (ret : ir_type)
| IntrinsicRef (i : intrinsic).

Definition callee_ret (fn : callee) : ir_type :=
  match fn with
  | FuncRef _ ret => ret
  | IntrinsicRef _ => DoubleType
  end.

Inductive instr : Type :=
| Fcmp (ordered : bool) (op : cmpop) (lhs rhs : ir_value)
| Icmp (signed : bool) (op : cmpop) (lhs rhs : ir_value)
| Or (lhs rhs : ir_value)
| Xor (lhs rhs : ir_value)
| Select (cond lhs rhs : ir_value)
| Udiv (lhs rhs : ir_value)
| Urem (lhs rhs : ir_value)
| Lshr (lhs rhs : ir_value)
| Mul (lhs rhs : ir_value)
| Add (lhs rhs : ir_value)
| Fadd (lhs rhs : ir_value)
| Fmul (lhs rhs : ir_value)
| Fdiv (lhs rhs : ir_value)
| ExtractElement (vector idx : ir_value)
| Trunc (v : ir_value) (ty : ir_type)
| Fptosi (v : ir_value) (ty : ir_type)
| Alloca (ty : ir_type)
| Load (ptr : ir_value)
| Store (v ptr : ir_value)
| Gep (ptr idx : ir_value)
| Call (fn : callee) (args : list ir_value).

Inductive terminator : Type :=
| Ret (v : ir_value)
| RetVoid
| Branch (target : nat)
| CBranch (cond : ir_value) (truebr falsebr : nat).

(** A basic block: its label, its instructions (each with the number of its
    result) and its terminator, if it has one yet. *)
Record block : Type := mkBlock {
  bname : string;
  instrs : list (nat * instr);
  term : option terminator
}.

Record function : Type := mkFunction {
  fname : string;
  fret : ir_type;
  fargs : list ir_type;
  blocks : list block;
  next_id : nat
}.

Record module : Type := mkModule {
  functions : list function;
  intrinsics : list intrinsic
}.

Definition empty_module : module := mkModule [] [].

(* ===================================================================== *)
(** * The AST ([lleaves/compiler/ast/nodes.py]) *)
(* ===================================================================== *)

Inductive MissingType : Type := MNone | MZero | MNaN.

Definition MissingType_eqb (a b : MissingType) : bool :=
  match a, b with
  | MNone, MNone | MZero, MZero | MNaN, MNaN => true
  | _, _ => false
  end.

(** Modelled from the spec: [lleaves.compiler.utils.DecisionType] is imported
    by [nodes.py] but its definition is not among the sources.  The spec
    describes it as the flags of a decision: categorical?, default_left and
    the missing type; the generator reads exactly these three attributes. *)
Record DecisionType : Type := mkDecisionType {
  is_categorical : bool;
  is_default_left : bool;
  missing_type : MissingType
}.

(** Modelled from the spec: the feature descriptor, of which the generator
    reads only [is_categorical]. *)
Module Feature.
Record t : Type := mk { is_categorical : bool }.
End Feature.

Record LeafNode : Type := mkLeafNode {
  leaf_idx : Z;
  value : f64
}.

(** The attributes of a [DecisionNode] other than its children. *)
Record DecisionNode : Type := mkDecisionNode {
  idx : Z;
  split_feature : Z;
  threshold : f64;
  decision_type : DecisionType;
  cat_threshold : option (list Z)
}.

(** A node after the parser has wired the children ([add_children]). *)
Inductive Node : Type :=
| Leaf (leaf : LeafNode)
| Decision (node : DecisionNode) (left right : Node).

Definition is_leaf (n : Node) : bool :=
  match n with Leaf _ => true | Decision _ _ _ => false end.

Definition string_of_Z (z : Z) : string := NilZero.string_of_int (Z.to_int z).

(** [__str__] of the two node classes. *)
Definition Node_str (n : Node) : string :=
  match n with
  | Leaf l => String.append "leaf_" (string_of_Z (leaf_idx l))
  | Decision d _ _ => String.append "node_" (string_of_Z (idx d))
  end.

Definition DecisionNode_str (d : DecisionNode) : string :=
  String.append "node_" (string_of_Z (idx d)).

(** Truth value of a Python float: [x != 0.0]. *)
Definition py_bool_float (x : f64) : bool := negb (SFeqb x f64_zero).

(** [DecisionNode.validate]: the two [assert]s. *)
Definition validate (d : DecisionNode) : result unit :=
  if is_categorical (decision_type d) then
    match cat_threshold d with
    | Some _ => OK tt
    | None => Raise AssertionError
    end
  else
    if py_bool_float (threshold d) then OK tt else Raise AssertionError.

Module Tree.
Record t : Type := mk {
  idx : Z;
  root_node : Node;
  features : list Feature.t;
  class_id : Z
}.
Definition str (tree : t) : string := String.append "tree_" (string_of_Z (idx tree)).
End Tree.

Module Forest.
Record t : Type := mk {
  trees : list Tree.t;
  features : list Feature.t;
  n_classes : Z;
  objective_func : string;
  objective_func_config : option string
}.
Definition n_args (forest : t) : nat := List.length (features forest).
End Forest.

(* ===================================================================== *)
(** * llvmlite's builder, as operations on the function under construction *)
(* ===================================================================== *)

Fixpoint update_nth {A} (l : list A) (n : nat) (g : A -> A) : list A :=
  match l, n with
  | [], _ => []
  | x :: l', O => g x :: l'
  | x :: l', S n' => x :: update_nth l' n' g
  end.

Definition with_blocks (f : function) (bs : list block) (n : nat) : function :=
  mkFunction (fname f) (fret f) (fargs f) bs n.

(** [func.append_basic_block(name)]: the new block is referred to by its
    position in the function. *)
Definition append_basic_block (name : string) : M function nat :=
  fun f => OK (List.length (blocks f),
               with_blocks f (blocks f ++ [mkBlock name [] None]) (next_id f)).

(** Append one instruction at the end of block [bb] ([ir.IRBuilder(bb)] is
    positioned at the end of its block); the value returned stands for the
    instruction's result. *)
Definition emit (bb : nat) (ty : ir_type) (i : instr) : M function ir_value :=
  fun f =>
    OK (InstrRef ty (next_id f),
        with_blocks f
          (update_nth (blocks f) bb
             (fun blk => mkBlock (bname blk) (instrs blk ++ [(next_id f, i)]) (term blk)))
          (S (next_id f))).

Definition terminate (bb : nat) (t : terminator) : M function unit :=
  fun f =>
    OK (tt, with_blocks f
              (update_nth (blocks f) bb
                 (fun blk => mkBlock (bname blk) (instrs blk) (Some t)))
              (next_id f)).

Definition pointee_of (ty : ir_type) : ir_type :=
  match ty with PointerType t => t | _ => VoidType end.

Definition element_of (ty : ir_type) : ir_type :=
  match ty with VectorType t _ => t | _ => VoidType end.

Definition fcmp_unordered bb op a b := emit bb BOOL (Fcmp false op a b).
Definition fcmp_ordered bb op a b := emit bb BOOL (Fcmp true op a b).
Definition icmp_unsigned bb op a b := emit bb BOOL (Icmp false op a b).
Definition icmp_signed bb op a b := emit bb BOOL (Icmp true op a b).
Definition or_ bb a b := emit bb (type_of a) (Or a b).
Definition xor bb a b := emit bb (type_of a) (Xor a b).
(** llvmlite's [not_] is [xor value, -1]. *)
Definition not_ bb a := xor bb a (Constant (type_of a) (PyInt (-1))).
Definition select bb c a b := emit bb (type_of a) (Select c a b).
Definition udiv bb a b := emit bb (type_of a) (Udiv a b).
Definition urem bb a b := emit bb (type_of a) (Urem a b).
Definition lshr bb a b := emit bb (type_of a) (Lshr a b).
Definition mul bb a b := emit bb (type_of a) (Mul a b).
Definition add bb a b := emit bb (type_of a) (Add a b).
Definition fadd bb a b := emit bb (type_of a) (Fadd a b).
Definition fmul bb a b := emit bb (type_of a) (Fmul a b).
Definition fdiv bb a b := emit bb (type_of a) (Fdiv a b).
Definition extract_element bb v i := emit bb (element_of (type_of v)) (ExtractElement v i).
Definition trunc bb v ty := emit bb ty (Trunc v ty).
Definition builder_fptosi bb v ty := emit bb ty (Fptosi v ty).
Definition alloca bb ty := emit bb (PointerType ty) (Alloca ty).
Definition load bb p := emit bb (pointee_of (type_of p)) (Load p).
Definition store bb v p := emit bb VoidType (Store v p).
Definition gep bb p i := emit bb (type_of p) (Gep p i).
Definition call bb (fn : callee) args := emit bb (callee_ret fn) (Call fn args).
Definition builder_ret bb v := terminate bb (Ret v).
Definition ret_void bb := terminate bb RetVoid.
Definition branch bb target := terminate bb (Branch target).
Definition cbranch bb c t e := terminate bb (CBranch c t e).

(** Python's [seq[i]]: negative indices count from the end. *)
Definition py_index (len : nat) (i : Z) : option nat :=
  let n := Z.of_nat len in
  let j := if i <? 0 then i + n else i in
  if (0 <=? j) && (j <? n) then Some (Z.to_nat j) else None.

(** [func.args[i]]. *)
Definition func_arg (i : Z) : M function ir_value :=
  fun f =>
    match py_index (List.length (fargs f)) i with
    | Some j =>
        match nth_error (fargs f) j with
        | Some ty => OK (Argument ty j, f)
        | None => Raise IndexError
        end
    | None => Raise IndexError
    end.

(* ===================================================================== *)
(** * The tree emitter ([codegen.py]) *)
(* ===================================================================== *)

Definition _populate_numerical_node_block (builder : nat) (node : DecisionNode)
  : M function ir_value :=
  val <- func_arg (split_feature node) ;;
  let thresh := Constant DOUBLE (PyFloat (threshold node)) in
  let missing_t := missing_type (decision_type node) in
  let default_left :=
    if MissingType_eqb (missing_type (decision_type node)) MNone
    then SFleb f64_zero (threshold node)
    else is_default_left (decision_type node) in
  if default_left then
    if negb (MissingType_eqb missing_t MZero)
       || (MissingType_eqb missing_t MZero && SFleb f64_zero (threshold node))
    then
      fcmp_unordered builder CmpLe val thresh
    else
      is_missing <- fcmp_unordered builder CmpEq val (fconst f64_zero) ;;
      less_eq <- fcmp_unordered builder CmpLe val thresh ;;
      or_ builder is_missing less_eq
  else
    if negb (MissingType_eqb missing_t MZero)
       || (MissingType_eqb missing_t MZero && SFltb (threshold node) f64_zero)
    then
      fcmp_ordered builder CmpLe val thresh
    else
      is_missing <- fcmp_unordered builder CmpEq val (fconst f64_zero) ;;
      greater <- fcmp_ordered builder CmpGt val thresh ;;
      o <- or_ builder is_missing greater ;;
      not_ builder o.

Definition _populate_categorical_node_block
    (builder bitset_comp_builder : nat) (node : DecisionNode)
    (bitset_comp_block : nat) (right_block : option nat) : M function ir_value :=
  val <- func_arg (split_feature node) ;;
  match cat_threshold node with
  | None => raise TypeError
  | Some cat =>
      comp <- icmp_unsigned builder CmpLt val (iconst (32 * Z.of_nat (List.length cat))) ;;
      match right_block with
      | None => raise AttributeError
      | Some right_block =>
          cbranch builder comp bitset_comp_block right_block ;;;
          idx <- udiv bitset_comp_builder val (iconst 32) ;;
          let bit_vecs :=
            Constant (VectorType INT (List.length cat))
                     (PyList (map (fun i => Constant INT (PyInt i)) cat)) in
          shift <- urem bitset_comp_builder val (iconst 32) ;;
          bit_vec <- extract_element bitset_comp_builder bit_vecs idx ;;
          bit_entry <- lshr bitset_comp_builder bit_vec shift ;;
          trunc bitset_comp_builder bit_entry BOOL
      end
  end.

Definition _gen_leaf_node (node_block : nat) (leaf : LeafNode) : M function unit :=
  builder_ret node_block (dconst (value leaf)).

Definition leaf_value (n : Node) : M function f64 :=
  match n with
  | Leaf l => ret (value l)
  | Decision _ _ _ => raise AttributeError
  end.

(** [_gen_decision_node]; the two recursive calls of [gen_node] on the
    children are passed in, so that [gen_node] below is structural. *)
Definition _gen_decision_node (gen_left gen_right : nat -> M function unit)
    (node_block : nat) (node : DecisionNode) (left right : Node) : M function unit :=
  let builder := node_block in
  let is_fused_double_leaf_node := is_leaf left && is_leaf right in
  blks <- (if is_fused_double_leaf_node then
             if is_categorical (decision_type node) then
               right_block <- append_basic_block (Node_str right) ;;
               ret (None, Some right_block)
             else ret (None, None)
           else
             left_block <- append_basic_block (Node_str left) ;;
             right_block <- append_basic_block (Node_str right) ;;
             ret (Some left_block, Some right_block)) ;;
  let left_block : option nat := fst blks in
  let right_block : option nat := snd blks in
  cb <- (if is_categorical (decision_type node) then
           bitset_comp_block <-
             append_basic_block (String.append (DecisionNode_str node) "_cat_bitset_comp") ;;
           let bitset_builder := bitset_comp_block in
           comp <- _populate_categorical_node_block
                     builder bitset_builder node bitset_comp_block right_block ;;
           ret (comp, bitset_builder)
         else
           comp <- _populate_numerical_node_block builder node ;;
           ret (comp, builder)) ;;
  let comp : ir_value := fst cb in
  let builder : nat := snd cb in
  (if is_fused_double_leaf_node then
     lv <- leaf_value left ;;
     rv <- leaf_value right ;;
     r <- select builder comp (dconst lv) (dconst rv) ;;
     builder_ret builder r
   else
     match left_block, right_block with
     | Some lb, Some rb => cbranch builder comp lb rb
     | _, _ => raise AttributeError
     end) ;;;
  match left_block with Some lb => gen_left lb | None => ret tt end ;;;
  match right_block with Some rb => gen_right rb | None => ret tt end.

(** The same emitter with the fusion decision taken from outside.  With
    [fuse := false] this is the un-fused branching form the spec compares
    the fused double leaf with: both children get their own block and the
    node ends in a conditional branch. *)
Definition gen_decision_node_fusing (fuse : bool)
    (gen_left gen_right : nat -> M function unit)
    (node_block : nat) (node : DecisionNode) (left right : Node) : M function unit :=
  let builder := node_block in
  let is_fused_double_leaf_node := fuse in
  blks <- (if is_fused_double_leaf_node then
             if is_categorical (decision_type node) then
               right_block <- append_basic_block (Node_str right) ;;
               ret (None, Some right_block)
             else ret (None, None)
           else
             left_block <- append_basic_block (Node_str left) ;;
             right_block <- append_basic_block (Node_str right) ;;
             ret (Some left_block, Some right_block)) ;;
  let left_block : option nat := fst blks in
  let right_block : option nat := snd blks in
  cb <- (if is_categorical (decision_type node) then
           bitset_comp_block <-
             append_basic_block (String.append (DecisionNode_str node) "_cat_bitset_comp") ;;
           let bitset_builder := bitset_comp_block in
           comp <- _populate_categorical_node_block
                     builder bitset_builder node bitset_comp_block right_block ;;
           ret (comp, bitset_builder)
         else
           comp <- _populate_numerical_node_block builder node ;;
           ret (comp, builder)) ;;
  let comp : ir_value := fst cb in
  let builder : nat := snd cb in
  (if is_fused_double_leaf_node then
     lv <- leaf_value left ;;
     rv <- leaf_value right ;;
     r <- select builder comp (dconst lv) (dconst rv) ;;
     builder_ret builder r
   else
     match left_block, right_block with
     | Some lb, Some rb => cbranch builder comp lb rb
     | _, _ => raise AttributeError
     end) ;;;
  match left_block with Some lb => gen_left lb | None => ret tt end ;;;
  match right_block with Some rb => gen_right rb | None => ret tt end.

Fixpoint gen_node (node_block : nat) (node : Node) : M function unit :=
  match node with
  | Leaf leaf => _gen_leaf_node node_block leaf
  | Decision d l r =>
      _gen_decision_node (fun b => gen_node b l) (fun b => gen_node b r)
                         node_block d l r
  end.

Definition gen_decision_node_unfused (node_block : nat) (node : DecisionNode)
    (left right : Node) : M function unit :=
  gen_decision_node_fusing false
    (fun b => gen_node b left) (fun b => gen_node b right)
    node_block node left right.

Definition gen_tree (tree : Tree.t) : M function unit :=
  node_block <- append_basic_block (Node_str (Tree.root_node tree)) ;;
  gen_node node_block (Tree.root_node tree).

(* ===================================================================== *)
(** * The forest emitter ([codegen.py]) *)
(* ===================================================================== *)

(** Python's [str.split(sep)] for a one-character separator. *)
Fixpoint py_split (sep : ascii) (s : string) : list string :=
  match s with
  | EmptyString => [EmptyString]
  | String c s' =>
      if Ascii.eqb c sep then EmptyString :: py_split sep s'
      else match py_split sep s' with
           | [] => [String c EmptyString]
           | h :: t => String c h :: t
           end
  end.

(** Python's [needle in hay] on strings. *)
Fixpoint py_contains (needle hay : string) : bool :=
  if String.prefix needle hay then true
  else match hay with
       | EmptyString => false
       | String _ hay' => py_contains needle hay'
       end.

Fixpoint mapM {S A B} (f : A -> M S B) (l : list A) : M S (list B) :=
  match l with
  | [] => ret []
  | a :: l' => b <- f a ;; bs <- mapM f l' ;; ret (b :: bs)
  end.

Fixpoint foldM {S A B} (f : B -> A -> M S B) (l : list A) (b : B) : M S B :=
  match l with
  | [] => ret b
  | a :: l' => b' <- f b a ;; foldM f l' b'
  end.

(** While [forest_root] is populated, two objects are written to: the root
    function (through the builder) and the module (through
    [declare_intrinsic]). *)
Definition fstate : Type := (function * list intrinsic)%type.

Definition on_func {A} (c : M function A) : M fstate A :=
  fun s => match c (fst s) with
           | OK (a, f') => OK (a, (f', snd s))
           | Raise e => Raise e
           end.

Definition intrinsic_eqb (a b : intrinsic) : bool :=
  match a, b with
  | llvm_exp, llvm_exp | llvm_log, llvm_log | llvm_copysign, llvm_copysign => true
  | _, _ => false
  end.

(** [module.declare_intrinsic]: declares the intrinsic once and returns it. *)
Definition declare_intrinsic (i : intrinsic) : M fstate callee :=
  fun s =>
    OK (IntrinsicRef i,
        (fst s, if existsb (intrinsic_eqb i) (snd s) then snd s else snd s ++ [i])).

Section Environment.

(** Python's [float(s)] on a string; [None] when it raises [ValueError]. *)
Variable py_float : string -> option f64.

Definition _populate_sigmoid (builder : nat) (input : ir_value) (llvm_exp_fn : callee)
    (alpha : f64) : M fstate ir_value :=
  if SFleb alpha f64_zero then raise (SigmoidParamError alpha)
  else
    inner <- on_func (fmul builder (dconst (SFopp alpha)) input) ;;
    exp <- on_func (call builder llvm_exp_fn [inner]) ;;
    denom <- on_func (fadd builder (dconst f64_one) exp) ;;
    on_func (fdiv builder (dconst f64_one) denom).

Definition in_list (s : string) (l : list string) : bool :=
  existsb (String.eqb s) l.

Definition _populate_objective_func_block (builder : nat) (input : ir_value)
    (objective : string) (objective_config : option string) : M fstate ir_value :=
  llvm_exp_fn <- declare_intrinsic llvm_exp ;;
  llvm_log_fn <- declare_intrinsic llvm_log ;;
  llvm_copysign_fn <- declare_intrinsic llvm_copysign ;;
  if String.eqb objective "binary" then
    match objective_config with
    | None => raise AttributeError
    | Some cfg =>
        match nth_error (py_split ":" cfg) 1 with
        | None => raise IndexError
        | Some alpha =>
            match py_float alpha with
            | None => raise (FloatParseError alpha)
            | Some a => _populate_sigmoid builder input llvm_exp_fn a
            end
        end
    end
  else if in_list objective ["xentropy"; "cross_entropy"] then
    _populate_sigmoid builder input llvm_exp_fn f64_one
  else if in_list objective ["xentlambda"; "cross_entropy_lambda"] then
    exp <- on_func (call builder llvm_exp_fn [input]) ;;
    s <- on_func (fadd builder (dconst f64_one) exp) ;;
    on_func (call builder llvm_log_fn [s])
  else if in_list objective ["poisson"; "gamma"; "tweedie"] then
    on_func (call builder llvm_exp_fn [input])
  else if in_list objective
            ["regression"; "regression_l1"; "huber"; "fair"; "quantile"; "mape"] then
    match objective_config with
    | Some cfg =>
        if negb (String.eqb cfg "") && py_contains "sqrt" cfg then
          sq <- on_func (fmul builder input input) ;;
          on_func (call builder llvm_copysign_fn [sq; input])
        else ret input
    | None => ret input
    end
  else if in_list objective ["lambdarank"; "rank_xendcg"; "custom"] then
    ret input
  else raise (ObjectiveNotImplemented objective).

Definition _populate_forest_func (forest : Forest.t) (tree_funcs : list callee)
  : M fstate unit :=
  data_arr <- on_func (func_arg 0) ;;
  out_arr <- on_func (func_arg 1) ;;
  start_index <- on_func (func_arg 2) ;;
  end_index <- on_func (func_arg 3) ;;
  (* -- SETUP BLOCK *)
  setup_block <- on_func (append_basic_block "setup") ;;
  let builder := setup_block in
  loop_iter <- on_func (alloca builder INT) ;;
  on_func (store builder start_index loop_iter) ;;;
  condition_block <- on_func (append_basic_block "loop-condition") ;;
  on_func (branch builder condition_block) ;;;
  (* -- CONDITION BLOCK *)
  let builder := condition_block in
  i0 <- on_func (load builder loop_iter) ;;
  comp <- on_func (icmp_signed builder CmpLt i0 end_index) ;;
  core_block <- on_func (append_basic_block "loop-core") ;;
  term_block <- on_func (append_basic_block "term") ;;
  on_func (cbranch builder comp core_block term_block) ;;;
  (* -- CORE LOOP BLOCK *)
  let builder := core_block in
  loop_iter_reg <- on_func (load builder loop_iter) ;;
  let n_args := Constant INT (PyInt (Z.of_nat (Forest.n_args forest))) in
  iter_mul_nargs <- on_func (mul builder loop_iter_reg n_args) ;;
  raw_ptrs <- mapM (fun i : nat =>
                      c <- on_func (add builder iter_mul_nargs (iconst (Z.of_nat i))) ;;
                      on_func (gep builder data_arr c))
                   (seq 0 (Forest.n_args forest)) ;;
  args <- mapM (fun fp : Feature.t * ir_value =>
                  el <- on_func (load builder (snd fp)) ;;
                  if Feature.is_categorical (fst fp)
                  then on_func (builder_fptosi builder el INT_CAT)
                  else ret el)
               (combine (Forest.features forest) raw_ptrs) ;;
  match tree_funcs with
  | [] => raise IndexError
  | tree_func0 :: rest =>
      res <- on_func (call builder tree_func0 args) ;;
      res <- foldM (fun res func =>
                      tree_res <- on_func (call builder func args) ;;
                      on_func (fadd builder tree_res res))
                   rest res ;;
      ptr <- on_func (gep builder out_arr loop_iter_reg) ;;
      res <- _populate_objective_func_block builder res
               (Forest.objective_func forest) (Forest.objective_func_config forest) ;;
      on_func (store builder res ptr) ;;;
      tmpp1 <- on_func (add builder loop_iter_reg (iconst 1)) ;;
      on_func (store builder tmpp1 loop_iter) ;;;
      on_func (branch builder condition_block) ;;;
      (* -- TERMINAL BLOCK *)
      on_func (ret_void term_block)
  end.

(** [ir.Function(module, type, name)]: registers a new, empty function in
    the module; llvmlite refuses a name that is already used. *)
Definition ir_Function (ret_ty : ir_type) (arg_tys : list ir_type) (name : string)
  : M module nat :=
  fun m =>
    if existsb (fun g => String.eqb (fname g) name) (functions m)
    then Raise (DuplicatedNameError name)
    else OK (List.length (functions m),
             mkModule (functions m ++ [mkFunction name ret_ty arg_tys [] 0])
                      (intrinsics m)).

(** Run builder code on the function at position [pos] of the module. *)
Definition in_function {A} (pos : nat) (c : M fstate A) : M module A :=
  fun m =>
    match nth_error (functions m) pos with
    | None => Raise IndexError
    | Some f =>
        match c (f, intrinsics m) with
        | OK (a, (f', decls)) =>
            OK (a, mkModule (update_nth (functions m) pos (fun _ => f')) decls)
        | Raise e => Raise e
        end
    end.

Definition make_tree (tree : Tree.t) : M module callee :=
  let func_dtypes :=
    map (fun f => if Feature.is_categorical f then INT_CAT else DOUBLE)
        (Tree.features tree) in
  tree_func <- ir_Function DOUBLE func_dtypes (Tree.str tree) ;;
  in_function tree_func (on_func (gen_tree tree)) ;;;
  ret (FuncRef tree_func DOUBLE).

Definition gen_forest (forest : Forest.t) : M module unit :=
  root_func <- ir_Function VoidType [DOUBLE_PTR; DOUBLE_PTR; INT; INT] "forest_root" ;;
  tree_funcs <- mapM make_tree (Forest.trees forest) ;;
  in_function root_func (_populate_forest_func forest tree_funcs).

End Environment.

(* ===================================================================== *)
(** * Semantics of the emitted IR *)
(* ===================================================================== *)

(** Run-time values.  A pointer is either into a buffer of doubles (buffer
    number and element offset) or to a stack slot made by [alloca]. *)
Inductive rtval : Type :=
| VBool (b : bool)
| VInt (z : Z)
| VDouble (x : f64)
| VPtr (buf : nat) (off : Z)
| VSlot (slot : nat).

Definition heap : Type := nat -> Z -> f64.

Definition heap_store (h : heap) (buf : nat) (off : Z) (x : f64) : heap :=
  fun b o => if Nat.eqb b buf && Z.eqb o off then x else h b o.

Definition regs : Type := nat -> option rtval.

Definition set_reg (e : regs) (id : nat) (v : rtval) : regs :=
  fun j => if Nat.eqb j id then Some v else e j.

Record frame : Type := mkFrame {
  env : regs;
  slots : list Z;
  mem : heap
}.

Definition init_frame (h : heap) : frame := mkFrame (fun _ => None) [] h.

Definition cmp_holds (op : cmpop) (c : comparison) : bool :=
  match op, c with
  | CmpLt, Lt => true
  | CmpLe, Lt | CmpLe, Eq => true
  | CmpEq, Eq => true
  | CmpGt, Gt => true
  | _, _ => false
  end.

(** [fcmp]: an ordered predicate is false, an unordered one true, as soon as
    an operand is NaN. *)
Definition fcmp_sem (ordered : bool) (op : cmpop) (x y : f64) : bool :=
  match SFcompare x y with
  | Some c => cmp_holds op c
  | None => negb ordered
  end.

Definition icmp_sem (signed : bool) (op : cmpop) (x y : Z) : bool :=
  cmp_holds op (if signed then Z.compare x y
                else Z.compare (to_unsigned x) (to_unsigned y)).

(** The value of a constant.  A constant is read at the type of the
    instruction that uses it, as in the text llvmlite prints (operands are
    printed without their own type); a [float] constant contributes its
    value rounded to single precision. *)
Definition const_value (ty : ir_type) (c : pyconst) : option rtval :=
  match ty, c with
  | IntType bits, PyInt z =>
      if Pos.eqb bits 1 then Some (VBool (Z.odd z))
      else if Pos.eqb bits 32 then Some (VInt (wrap32 z))
      else None
  | DoubleType, PyFloat x => Some (VDouble x)
  | FloatType, PyFloat x => Some (VDouble (as_float x))
  | _, _ => None
  end.

Definition eval_operand (args : list rtval) (e : regs) (v : ir_value) : option rtval :=
  match v with
  | Constant ty c => const_value ty c
  | Argument _ pos => nth_error args pos
  | InstrRef _ id => e id
  end.

Fixpoint eval_operands (args : list rtval) (e : regs) (vs : list ir_value)
  : option (list rtval) :=
  match vs with
  | [] => Some []
  | v :: vs' =>
      match eval_operand args e v, eval_operands args e vs' with
      | Some x, Some xs => Some (x :: xs)
      | _, _ => None
      end
  end.

Definition bind_reg (fr : frame) (id : nat) (v : rtval) : frame :=
  mkFrame (set_reg (env fr) id v) (slots fr) (mem fr).

Definition int_binop (g : Z -> Z -> option Z) (a b : option rtval) : option rtval :=
  match a, b with
  | Some (VInt x), Some (VInt y) =>
      match g x y with Some z => Some (VInt (wrap32 z)) | None => None end
  | _, _ => None
  end.

Definition float_binop (g : f64 -> f64 -> f64) (a b : option rtval) : option rtval :=
  match a, b with
  | Some (VDouble x), Some (VDouble y) => Some (VDouble (g x y))
  | _, _ => None
  end.

Definition bool_binop (g : bool -> bool -> bool) (a b : option rtval) : option rtval :=
  match a, b with
  | Some (VBool x), Some (VBool y) => Some (VBool (g x y))
  | _, _ => None
  end.

Section Semantics.

(** What the host computes for [llvm.exp.f64] and [llvm.log.f64]. *)
Variables exp_f64 log_f64 : f64 -> f64.

Definition intrinsic_sem (i : intrinsic) (argv : list rtval) : option rtval :=
  match i, argv with
  | llvm_exp, [VDouble x] => Some (VDouble (exp_f64 x))
  | llvm_log, [VDouble x] => Some (VDouble (log_f64 x))
  | llvm_copysign, [VDouble x; VDouble y] => Some (VDouble (f64_copysign x y))
  | _, _ => None
  end.

(** How a call to a function of the module is run; supplied by the runner
    below. *)
Variable call_function : nat -> list rtval -> heap -> option (option rtval * heap).

(** The instructions that compute a value without touching memory. *)
Definition pure_instr (args : list rtval) (e : regs) (i : instr) : option rtval :=
  let ev := eval_operand args e in
  match i with
  | Fcmp ordered op a b =>
      match ev a, ev b with
      | Some (VDouble x), Some (VDouble y) => Some (VBool (fcmp_sem ordered op x y))
      | _, _ => None
      end
  | Icmp signed op a b =>
      match ev a, ev b with
      | Some (VInt x), Some (VInt y) => Some (VBool (icmp_sem signed op x y))
      | _, _ => None
      end
  | Or a b => bool_binop orb (ev a) (ev b)
  | Xor a b => bool_binop xorb (ev a) (ev b)
  | Select c a b =>
      match ev c, ev a, ev b with
      | Some (VBool cv), Some x, Some y => Some (if cv then x else y)
      | _, _, _ => None
      end
  | Udiv a b =>
      int_binop (fun x y => if to_unsigned y =? 0 then None
                            else Some (to_unsigned x / to_unsigned y)) (ev a) (ev b)
  | Urem a b =>
      int_binop (fun x y => if to_unsigned y =? 0 then None
                            else Some (to_unsigned x mod to_unsigned y)) (ev a) (ev b)
  | Lshr a b =>
      int_binop (fun x y => if to_unsigned y <? 32
                            then Some (Z.shiftr (to_unsigned x) (to_unsigned y))
                            else None) (ev a) (ev b)
  | Mul a b => int_binop (fun x y => Some (x * y)) (ev a) (ev b)
  | Add a b => int_binop (fun x y => Some (x + y)) (ev a) (ev b)
  | Fadd a b => float_binop f64_add (ev a) (ev b)
  | Fmul a b => float_binop f64_mul (ev a) (ev b)
  | Fdiv a b => float_binop f64_div (ev a) (ev b)
  | ExtractElement vector i =>
      match vector, ev i with
      | Constant (VectorType _ _) (PyList elems), Some (VInt k) =>
          match nth_error elems (Z.to_nat (to_unsigned k)) with
          | Some el => ev el
          | None => None
          end
      | _, _ => None
      end
  | Trunc v ty =>
      match ev v, ty with
      | Some (VInt z), IntType bits =>
          if Pos.eqb bits 1 then Some (VBool (Z.odd z)) else None
      | _, _ => None
      end
  | Fptosi v _ =>
      match ev v with
      | Some (VDouble x) => Some (VInt (fptosi x))
      | _ => None
      end
  | Gep p i =>
      match ev p, ev i with
      | Some (VPtr buf off), Some (VInt k) => Some (VPtr buf (off + k))
      | _, _ => None
      end
  | _ => None
  end.

Definition exec_instr (args : list rtval) (fr : frame) (ii : nat * instr)
  : option frame :=
  let id := fst ii in
  let ev := eval_operand args (env fr) in
  match snd ii with
  | Alloca _ =>
      Some (mkFrame (set_reg (env fr) id (VSlot (List.length (slots fr))))
                    (slots fr ++ [0]) (mem fr))
  | Load p =>
      match ev p with
      | Some (VPtr buf off) => Some (bind_reg fr id (VDouble (mem fr buf off)))
      | Some (VSlot s) =>
          match nth_error (slots fr) s with
          | Some z => Some (bind_reg fr id (VInt z))
          | None => None
          end
      | _ => None
      end
  | Store v p =>
      match ev v, ev p with
      | Some (VDouble x), Some (VPtr buf off) =>
          Some (mkFrame (env fr) (slots fr) (heap_store (mem fr) buf off x))
      | Some (VInt z), Some (VSlot s) =>
          if Nat.ltb s (List.length (slots fr))
          then Some (mkFrame (env fr) (update_nth (slots fr) s (fun _ => z)) (mem fr))
          else None
      | _, _ => None
      end
  | Call fn vs =>
      match eval_operands args (env fr) vs with
      | None => None
      | Some argv =>
          match fn with
          | IntrinsicRef i =>
              match intrinsic_sem i argv with
              | Some r => Some (bind_reg fr id r)
              | None => None
              end
          | FuncRef pos _ =>
              match call_function pos argv (mem fr) with
              | Some (Some r, h') =>
                  Some (mkFrame (set_reg (env fr) id r) (slots fr) h')
              | Some (None, h') => Some (mkFrame (env fr) (slots fr) h')
              | None => None
              end
          end
      end
  | i =>
      match pure_instr args (env fr) i with
      | Some r => Some (bind_reg fr id r)
      | None => None
      end
  end.

Fixpoint exec_instrs (args : list rtval) (fr : frame) (code : list (nat * instr))
  : option frame :=
  match code with
  | [] => Some fr
  | ii :: code' =>
      match exec_instr args fr ii with
      | Some fr' => exec_instrs args fr' code'
      | None => None
      end
  end.

End Semantics.

Section Runner.

Variables exp_f64 log_f64 : f64 -> f64.
Variable m : module.

(** Run function [f] from block [b].  [fuel] bounds the number of blocks
    entered, calls included; [None] means stuck or out of fuel. *)
Fixpoint run_blocks (fuel : nat) (f : function) (b : nat) (args : list rtval)
    (fr : frame) {struct fuel} : option (option rtval * heap) :=
  match fuel with
  | O => None
  | S fuel' =>
      match nth_error (blocks f) b with
      | None => None
      | Some blk =>
          let call_function pos argv h :=
            match nth_error (functions m) pos with
            | Some g => run_blocks fuel' g 0 argv (init_frame h)
            | None => None
            end in
          match exec_instrs exp_f64 log_f64 call_function args fr (instrs blk) with
          | None => None
          | Some fr' =>
              match term blk with
              | None => None
              | Some (Ret v) =>
                  match eval_operand args (env fr') v with
                  | Some x => Some (Some x, mem fr')
                  | None => None
                  end
              | Some RetVoid => Some (None, mem fr')
              | Some (Branch target) => run_blocks fuel' f target args fr'
              | Some (CBranch c t e) =>
                  match eval_operand args (env fr') c with
                  | Some (VBool true) => run_blocks fuel' f t args fr'
                  | Some (VBool false) => run_blocks fuel' f e args fr'
                  | _ => None
                  end
              end
          end
      end
  end.

Definition run_function (fuel : nat) (pos : nat) (args : list rtval) (h : heap)
  : option (option rtval * heap) :=
  match nth_error (functions m) pos with
  | Some f => run_blocks fuel f 0 args (init_frame h)
  | None => None
  end.

End Runner.

(* ===================================================================== *)
(** * What the emitted tree code computes *)
(* ===================================================================== *)

(** The truth value of the predicate [_populate_numerical_node_block] emits,
    on input [v]: true means "go left". *)
Definition numerical_decision (d : DecisionNode) (v : f64) : bool :=
  let t := threshold d in
  let mt := missing_type (decision_type d) in
  let default_left :=
    if MissingType_eqb mt MNone then SFleb f64_zero t
    else is_default_left (decision_type d) in
  if default_left then
    if negb (MissingType_eqb mt MZero) || SFleb f64_zero t
    then fcmp_sem false CmpLe v t
    else fcmp_sem false CmpEq v f64_zero || fcmp_sem false CmpLe v t
  else
    if negb (MissingType_eqb mt MZero) || SFltb t f64_zero
    then fcmp_sem true CmpLe v t
    else negb (fcmp_sem false CmpEq v f64_zero || fcmp_sem true CmpGt v t).

(** Membership of category [v] (an i32) in the packed bitset [cat]. *)
Definition in_bitset_range (cat : list Z) (v : Z) : bool :=
  to_unsigned v <? to_unsigned (32 * Z.of_nat (List.length cat)).

Definition bitset_bit (cat : list Z) (v : Z) : bool :=
  Z.testbit (nth (Z.to_nat (to_unsigned v / 32)) cat 0) (to_unsigned v mod 32).

Definition categorical_decision (cat : list Z) (v : Z) : bool :=
  in_bitset_range cat v && bitset_bit cat v.

(** The argument a node tests, [func.args[node.split_feature]], at run time. *)
Definition node_input (args : list rtval) (d : DecisionNode) : option rtval :=
  match py_index (List.length args) (split_feature d) with
  | Some j => nth_error args j
  | None => None
  end.

(** Whether the node sends the row left; [None] when the argument is missing
    or not of the kind the node compares. *)
Definition goes_left (args : list rtval) (d : DecisionNode) : option bool :=
  if is_categorical (decision_type d) then
    match node_input args d, cat_threshold d with
    | Some (VInt v), Some cat => Some (categorical_decision cat v)
    | _, _ => None
    end
  else
    match node_input args d with
    | Some (VDouble v) => Some (numerical_decision d v)
    | _ => None
    end.

(** The leaf value a row reaches. *)
Fixpoint predict (args : list rtval) (n : Node) : option f64 :=
  match n with
  | Leaf leaf => Some (value leaf)
  | Decision d l r =>
      match goes_left args d with
      | Some true => predict args l
      | Some false => predict args r
      | None => None
      end
  end.

Fixpoint height (n : Node) : nat :=
  match n with
  | Leaf _ => 1
  | Decision _ l r => S (Nat.max (height l) (height r))
  end.

(* ===================================================================== *)
(** * Definitions for the statements: effects of the emitters, the
      spec's tables, well-formedness, and the examples *)
(* ===================================================================== *)

(** [appended f f' bb code]: [f'] is [f] with [code] added at the end of
    block [bb], numbered from [next_id f]. *)
Definition appended (f f' : function) (bb : nat) (code : list (nat * instr)) : Prop :=
  fargs f' = fargs f /\
  List.length (blocks f') = List.length (blocks f) /\
  (forall k, k <> bb -> nth_error (blocks f') k = nth_error (blocks f) k) /\
  (forall blk, nth_error (blocks f) bb = Some blk ->
               nth_error (blocks f') bb
               = Some (mkBlock (bname blk) (instrs blk ++ code) (term blk))) /\
  next_id f' = (next_id f + List.length code)%nat /\
  Forall (fun ii => (next_id f <= fst ii)%nat) code.

(** Effect of setting the terminator of block [bb]. *)
Definition terminated (f f' : function) (bb : nat) (t : terminator) : Prop :=
  fargs f' = fargs f /\
  List.length (blocks f') = List.length (blocks f) /\
  (forall k, k <> bb -> nth_error (blocks f') k = nth_error (blocks f) k) /\
  (forall blk, nth_error (blocks f) bb = Some blk ->
               nth_error (blocks f') bb
               = Some (mkBlock (bname blk) (instrs blk) (Some t))) /\
  next_id f' = next_id f.

(** A value built before the counter reached [n]. *)
Definition value_below (n : nat) (v : ir_value) : Prop :=
  match v with
  | InstrRef _ id => (id < n)%nat
  | _ => True
  end.

(** [f'] keeps every block of [f] that already has its terminator. *)
Definition extends (f f' : function) : Prop :=
  forall i blk, nth_error (blocks f) i = Some blk -> term blk <> None ->
                nth_error (blocks f') i = Some blk.

(** What an emitter [gen] guarantees when it generates node [n] into a
    block [b] that is still empty: it leaves the other blocks alone, and
    running from [b] returns the leaf value [predict] names. *)
Definition gen_sound (gen : nat -> M function unit) (n : Node) : Prop :=
  forall f b f' name,
    nth_error (blocks f) b = Some (mkBlock name [] None) ->
    gen b f = OK (tt, f') ->
    fargs f' = fargs f /\
    (List.length (blocks f) <= List.length (blocks f'))%nat /\
    (forall k, (k < List.length (blocks f))%nat -> k <> b ->
               nth_error (blocks f') k = nth_error (blocks f) k) /\
    forall exp lg m args fr y fuel,
      List.length args = List.length (fargs f) ->
      predict args n = Some y ->
      (2 * height n <= fuel)%nat ->
      run_blocks exp lg m fuel f' b args fr = Some (Some (VDouble y), mem fr).

Definition node_sound (n : Node) : Prop :=
  gen_sound (fun b => gen_node b n) n.

(** The way a block of [m] calls the functions of [m] with [fuel] left. *)
Definition call_in (exp lg : f64 -> f64) (m : module) (fuel : nat)
  : nat -> list rtval -> heap -> option (option rtval * heap) :=
  fun pos argv h =>
    match nth_error (functions m) pos with
    | Some g => run_blocks exp lg m fuel g 0 argv (init_frame h)
    | None => None
    end.

(** The four shapes of the spec's case table for numerical nodes. *)
Inductive numerical_case : Type :=
| UnorderedLe            (* fcmp_unordered <= *)
| ZeroOrUnorderedLe      (* (v == 0.0) OR (v <= t), unordered compares *)
| OrderedLe              (* fcmp_ordered <= *)
| NotZeroOrOrderedGt.    (* NOT ((v == 0.0) OR (v > t)), ordered > *)

(** "If mt == MNone: override dl to (0.0 <= t).  Otherwise keep dl." *)
Definition effective_default_left (d : DecisionNode) : bool :=
  match missing_type (decision_type d) with
  | MNone => SFleb f64_zero (threshold d)
  | _ => is_default_left (decision_type d)
  end.

(** The case the spec's table selects. *)
Definition spec_numerical_case (d : DecisionNode) : numerical_case :=
  let mt := missing_type (decision_type d) in
  let t := threshold d in
  if effective_default_left d then
    if negb (MissingType_eqb mt MZero) || SFleb f64_zero t
    then UnorderedLe else ZeroOrUnorderedLe
  else
    if negb (MissingType_eqb mt MZero) || SFltb t f64_zero
    then OrderedLe else NotZeroOrOrderedGt.

(** The instructions of each shape, numbered from [n], on input [v] and
    threshold constant [t]. *)
Definition case_code (c : numerical_case) (v t : ir_value) (n : nat)
  : list (nat * instr) :=
  match c with
  | UnorderedLe => [(n, Fcmp false CmpLe v t)]
  | ZeroOrUnorderedLe =>
      [(n, Fcmp false CmpEq v (fconst f64_zero));
       (S n, Fcmp false CmpLe v t);
       (S (S n), Or (InstrRef BOOL n) (InstrRef BOOL (S n)))]
  | OrderedLe => [(n, Fcmp true CmpLe v t)]
  | NotZeroOrOrderedGt =>
      [(n, Fcmp false CmpEq v (fconst f64_zero));
       (S n, Fcmp true CmpGt v t);
       (S (S n), Or (InstrRef BOOL n) (InstrRef BOOL (S n)));
       (S (S (S n)), Xor (InstrRef BOOL (S (S n))) (Constant BOOL (PyInt (-1))))]
  end.

(** The value that holds the condition: the result of the last instruction. *)
Definition case_result (c : numerical_case) (n : nat) : ir_value :=
  InstrRef BOOL (n + List.length (case_code c ZERO_V ZERO_V n) - 1).

Section ObjectiveTable.

Variable py_float : string -> option f64.
Variables exp_f64 log_f64 : f64 -> f64.

(** The spec's table of objective transforms. *)
Definition sigmoid (alpha x : f64) : f64 :=
  f64_div f64_one (f64_add f64_one (exp_f64 (f64_mul (SFopp alpha) x))).

(** The text of the config after the first [':'] (up to the next one), read
    as a float. *)
Definition binary_alpha (config : option string) : option f64 :=
  match config with
  | Some cfg =>
      match nth_error (py_split ":" cfg) 1 with
      | Some a => py_float a
      | None => None
      end
  | None => None
  end.

Definition config_has_sqrt (config : option string) : bool :=
  match config with
  | Some cfg => py_contains "sqrt" cfg
  | None => false
  end.

Definition spec_transform (objective : string) (config : option string) (x : f64)
  : option f64 :=
  if String.eqb objective "binary" then
    match binary_alpha config with
    | Some alpha => Some (sigmoid alpha x)
    | None => None
    end
  else if in_list objective ["xentropy"; "cross_entropy"] then
    Some (sigmoid f64_one x)
  else if in_list objective ["xentlambda"; "cross_entropy_lambda"] then
    Some (log_f64 (f64_add f64_one (exp_f64 x)))
  else if in_list objective ["poisson"; "gamma"; "tweedie"] then
    Some (exp_f64 x)
  else if in_list objective
            ["regression"; "regression_l1"; "huber"; "fair"; "quantile"; "mape"] then
    Some (if config_has_sqrt config then f64_copysign (f64_mul x x) x else x)
  else if in_list objective ["lambdarank"; "rank_xendcg"; "custom"] then
    Some x
  else None.

(** The tags of the spec's table. *)
Definition enumerated (objective : string) : bool :=
  in_list objective
    ["binary"; "xentropy"; "cross_entropy"; "xentlambda"; "cross_entropy_lambda";
     "poisson"; "gamma"; "tweedie";
     "regression"; "regression_l1"; "huber"; "fair"; "quantile"; "mape";
     "lambdarank"; "rank_xendcg"; "custom"].


(** The exception objective lowering raises, if any; it depends on the tag
    and the config only. *)
Definition objective_error (objective : string) (config : option string)
  : option PyError :=
  if String.eqb objective "binary" then
    match config with
    | None => Some AttributeError
    | Some cfg =>
        match nth_error (py_split ":" cfg) 1 with
        | None => Some IndexError
        | Some a =>
            match py_float a with
            | None => Some (FloatParseError a)
            | Some alpha =>
                if SFleb alpha f64_zero then Some (SigmoidParamError alpha) else None
            end
        end
    end
  else if enumerated objective then None
  else Some (ObjectiveNotImplemented objective).

End ObjectiveTable.

Definition example_inf_node : DecisionNode :=
  mkDecisionNode 0 0 (S754_infinity false) (mkDecisionType false true MNaN) None.



(** A tree function that returns, on every row, the leaf [predict] names. *)
Definition tree_fn_ok (ft : function) (tree : Tree.t) : Prop :=
  forall exp lg m args fr y fuel,
    List.length args = List.length (Tree.features tree) ->
    predict args (Tree.root_node tree) = Some y ->
    (2 * height (Tree.root_node tree) <= fuel)%nat ->
    run_blocks exp lg m fuel ft 0 args fr = Some (Some (VDouble y), mem fr).

(** Element offset of feature [k] of row [i] in the data buffer, in the
    wrapping i32 arithmetic of the emitted [mul] and [add]. *)
Definition row_offset (n_args : nat) (i : Z) (k : nat) : Z :=
  wrap32 (wrap32 (i * wrap32 (Z.of_nat n_args)) + wrap32 (Z.of_nat k)).

(** An argument as the core block passes it to the trees. *)
Definition load_arg (feature : Feature.t) (x : f64) : rtval :=
  if Feature.is_categorical feature then VInt (fptosi x) else VDouble x.

(** The arguments built for row [i]. *)
Definition row_args (features : list Feature.t) (h : heap) (data : nat) (doff : Z)
    (i : Z) : list rtval :=
  map (fun fk : Feature.t * nat =>
         load_arg (fst fk) (h data (doff + row_offset (List.length features) i (snd fk))))
      (combine features (seq 0 (List.length features))).

(** Accumulation of the tree results: the first, then [fadd tree_res res]. *)
Definition tree_sum (ys : list f64) : option f64 :=
  match ys with
  | [] => None
  | y0 :: rest => Some (fold_left (fun res tree_res => f64_add tree_res res) rest y0)
  end.

Fixpoint all_some {A} (l : list (option A)) : option (list A) :=
  match l with
  | [] => Some []
  | Some a :: l' =>
      match all_some l' with Some r => Some (a :: r) | None => None end
  | None :: _ => None
  end.

(** The body of the loop: everything [_populate_forest_func] emits from the
    load of the loop counter on. *)
Definition core_body (py_float : string -> option f64) (forest : Forest.t)
    (tree_funcs : list callee) (builder : nat)
    (data_arr out_arr loop_iter : ir_value) (condition_block term_block : nat)
  : M fstate unit :=
  loop_iter_reg <- on_func (load builder loop_iter) ;;
  let n_args := Constant INT (PyInt (Z.of_nat (Forest.n_args forest))) in
  iter_mul_nargs <- on_func (mul builder loop_iter_reg n_args) ;;
  raw_ptrs <- mapM (fun i : nat =>
                      c <- on_func (add builder iter_mul_nargs (iconst (Z.of_nat i))) ;;
                      on_func (gep builder data_arr c))
                   (seq 0 (Forest.n_args forest)) ;;
  args <- mapM (fun fp : Feature.t * ir_value =>
                  el <- on_func (load builder (snd fp)) ;;
                  if Feature.is_categorical (fst fp)
                  then on_func (builder_fptosi builder el INT_CAT)
                  else ret el)
               (combine (Forest.features forest) raw_ptrs) ;;
  match tree_funcs with
  | [] => raise IndexError
  | tree_func0 :: rest =>
      res <- on_func (call builder tree_func0 args) ;;
      res <- foldM (fun res func =>
                      tree_res <- on_func (call builder func args) ;;
                      on_func (fadd builder tree_res res))
                   rest res ;;
      ptr <- on_func (gep builder out_arr loop_iter_reg) ;;
      res <- _populate_objective_func_block py_float builder res
               (Forest.objective_func forest) (Forest.objective_func_config forest) ;;
      on_func (store builder res ptr) ;;;
      tmpp1 <- on_func (add builder loop_iter_reg (iconst 1)) ;;
      on_func (store builder tmpp1 loop_iter) ;;;
      on_func (branch builder condition_block) ;;;
      on_func (ret_void term_block)
  end.

(** How the functions called by the core block must behave: callee number
    [j] returns [ys[j]] on the row's arguments and leaves memory alone. *)
Definition calls_return (callf : nat -> list rtval -> heap -> option (option rtval * heap))
    (argv : list rtval) (tree_funcs : list callee) (ys : list f64) : Prop :=
  Forall2 (fun c y => exists pos, c = FuncRef pos DOUBLE /\
             forall h, callf pos argv h = Some (Some (VDouble y), h))
          tree_funcs ys.

Unset Implicit Arguments.

Definition root0 : function :=
  mkFunction "forest_root" VoidType [DOUBLE_PTR; DOUBLE_PTR; INT; INT] [] 0.

(** The root function when the loop body starts being emitted: the setup and
    loop-condition blocks are complete, the core and term blocks empty. *)
Definition root_before_core : function :=
  mkFunction "forest_root" VoidType [DOUBLE_PTR; DOUBLE_PTR; INT; INT]
    [mkBlock "setup"
       [(0%nat, Alloca INT);
        (1%nat, Store (Argument INT 2) (InstrRef (PointerType INT) 0))]
       (Some (Branch 1));
     mkBlock "loop-condition"
       [(2%nat, Load (InstrRef (PointerType INT) 0));
        (3%nat, Icmp true CmpLt (InstrRef INT 2) (Argument INT 3))]
       (Some (CBranch (InstrRef BOOL 3) 2 3));
     mkBlock "loop-core" [] None;
     mkBlock "term" [] None]
    4.

(** The score the forest gives to the row with arguments [argv]: the leaf of
    every tree, in the order of [Forest.trees], accumulated as
    [forest_root] does, then transformed by the objective. *)
Definition forest_output (py_float : string -> option f64) (exp_f64 log_f64 : f64 -> f64)
    (forest : Forest.t) (argv : list rtval) : option f64 :=
  match all_some (map (fun t => predict argv (Tree.root_node t)) (Forest.trees forest)) with
  | Some ys =>
      match tree_sum ys with
      | Some x =>
          spec_transform py_float exp_f64 log_f64 (Forest.objective_func forest)
            (Forest.objective_func_config forest) x
      | None => None
      end
  | None => None
  end.

(** The heap after the [k] rows from [i] on have been scored one after the
    other, each result stored at [out[i]]. *)
Fixpoint score_rows (score : heap -> Z -> option f64) (ob : nat) (ooff : Z)
    (k : nat) (i : Z) (h : heap) : option heap :=
  match k with
  | O => Some h
  | S k' =>
      match score h i with
      | Some y => score_rows score ob ooff k' (i + 1) (heap_store h ob (ooff + i) y)
      | None => None
      end
  end.

(** Every decision node tests an existing feature of the kind the node is
    of, and a categorical node has its bitset. *)
Fixpoint node_wf (kinds : list bool) (n : Node) : bool :=
  match n with
  | Leaf _ => true
  | Decision d l r =>
      match py_index (List.length kinds) (split_feature d) with
      | Some j =>
          match nth_error kinds j with
          | Some c => Bool.eqb c (is_categorical (decision_type d))
          | None => false
          end
      | None => false
      end
      && (if is_categorical (decision_type d)
          then match cat_threshold d with Some _ => true | None => false end
          else true)
      && node_wf kinds l && node_wf kinds r
  end.

Fixpoint kinds_eqb (a b : list bool) : bool :=
  match a, b with
  | [], [] => true
  | x :: a', y :: b' => Bool.eqb x y && kinds_eqb a' b'
  | _, _ => false
  end.

(** The trees take the forest's features, and their nodes are well formed. *)
Definition forest_wf (forest : Forest.t) : bool :=
  let kinds := map Feature.is_categorical (Forest.features forest) in
  forallb (fun t =>
             kinds_eqb (map Feature.is_categorical (Tree.features t)) kinds
             && node_wf kinds (Tree.root_node t))
          (Forest.trees forest).

(** An argument list of the kinds the features ask for. *)
Definition arg_of_kind (c : bool) (v : rtval) : Prop :=
  if c then exists z, v = VInt z else exists x, v = VDouble x.

(** Fuel that is enough for every tree of the forest. *)
Definition trees_fuel (trees : list Tree.t) : nat :=
  fold_right Nat.max 0%nat (map (fun t => (2 * height (Tree.root_node t))%nat) trees).

(** The arguments [forest_root] is called with. *)
Definition root_args (db : nat) (doff : Z) (ob : nat) (ooff : Z) (start end_index : Z)
  : list rtval :=
  [VPtr db doff; VPtr ob ooff; VInt start; VInt end_index].

(** The score of row [i] of the data buffer, read from heap [h]. *)
Definition row_score (py_float : string -> option f64) (exp_f64 log_f64 : f64 -> f64)
    (forest : Forest.t) (db : nat) (doff : Z) (h : heap) (i : Z) : option f64 :=
  forest_output py_float exp_f64 log_f64 forest
    (row_args (Forest.features forest) h db doff i).

(** What the blocks of a generated [forest_root] are and do. *)
Definition root_blocks (py_float : string -> option f64) (exp_f64 log_f64 : f64 -> f64)
    (forest : Forest.t) (tree_funcs : list callee) (f : function) : Prop :=
  exists core_code,
    nth_error (blocks f) 0
    = Some (mkBlock "setup"
              [(0%nat, Alloca INT);
               (1%nat, Store (Argument INT 2) (InstrRef (PointerType INT) 0))]
              (Some (Branch 1))) /\
    nth_error (blocks f) 1
    = Some (mkBlock "loop-condition"
              [(2%nat, Load (InstrRef (PointerType INT) 0));
               (3%nat, Icmp true CmpLt (InstrRef INT 2) (Argument INT 3))]
              (Some (CBranch (InstrRef BOOL 3) 2 3))) /\
    nth_error (blocks f) 2 = Some (mkBlock "loop-core" core_code (Some (Branch 1))) /\
    nth_error (blocks f) 3 = Some (mkBlock "term" [] (Some RetVoid)) /\
    forall callf args fr db doff ob ooff sl i ys x,
      nth_error args 0 = Some (VPtr db doff) ->
      nth_error args 1 = Some (VPtr ob ooff) ->
      env fr 0%nat = Some (VSlot sl) ->
      nth_error (slots fr) sl = Some i ->
      calls_return callf (row_args (Forest.features forest) (mem fr) db doff i)
                   tree_funcs ys ->
      tree_sum ys = Some x ->
      exists fr' y,
        exec_instrs exp_f64 log_f64 callf args fr core_code = Some fr' /\
        spec_transform py_float exp_f64 log_f64 (Forest.objective_func forest)
          (Forest.objective_func_config forest) x = Some y /\
        mem fr' = heap_store (mem fr) ob (ooff + i) y /\
        slots fr' = update_nth (slots fr) sl (fun _ => wrap32 (i + 1)) /\
        env fr' 0%nat = env fr 0%nat.

(** The callees of the module return what [predict] says, given fuel for the
    deepest tree. *)
Definition trees_callable (exp_f64 log_f64 : f64 -> f64) (m : module)
    (forest : Forest.t) (tree_funcs : list callee) : Prop :=
  forall fuel argv ys,
    (trees_fuel (Forest.trees forest) <= fuel)%nat ->
    List.length argv = List.length (Forest.features forest) ->
    Forall2 (fun t y => predict argv (Tree.root_node t) = Some y)
            (Forest.trees forest) ys ->
    calls_return (call_in exp_f64 log_f64 m fuel) argv tree_funcs ys.

(** Emitters that cannot raise. *)
Definition total {S A} (c : M S A) : Prop :=
  forall s, exists a s', c s = OK (a, s').

(** The accumulator and the result of the spec's [sqrt] example. *)
Definition f64_minus_four : f64 := S754_finite true 4503599627370496 (-50).

Definition f64_minus_sixteen : f64 := S754_finite true 4503599627370496 (-48).



Definition f64_minus_one : f64 := S754_finite true 4503599627370496 (-52).

Definition f64_half : f64 := S754_finite false 4503599627370496 (-53).

Definition f64_minus_half : f64 := S754_finite true 4503599627370496 (-53).

(** The stubs of the spec's scenarios: one decision node over feature 0, its
    left leaf worth [1.0] and its right leaf [-1.0]. *)
Definition left_leaf : LeafNode := mkLeafNode 0 f64_one.

Definition right_leaf : LeafNode := mkLeafNode 1 f64_minus_one.

Definition numerical_stub_node (mt : MissingType) (default_left : bool) (t : f64)
  : DecisionNode :=
  mkDecisionNode 0 0 t (mkDecisionType false default_left mt) None.

Definition numerical_stub (mt : MissingType) (default_left : bool) (t : f64) : Node :=
  Decision (numerical_stub_node mt default_left t) (Leaf left_leaf) (Leaf right_leaf).

Definition categorical_stub_node (cat : list Z) : DecisionNode :=
  mkDecisionNode 0 0 f64_zero (mkDecisionType true false MNone) (Some cat).

Definition categorical_stub (cat : list Z) : Node :=
  Decision (categorical_stub_node cat) (Leaf left_leaf) (Leaf right_leaf).

(** A tree function over one feature, before [gen_tree] fills it, with its
    entry block appended. *)
Definition stub_function (ty : ir_type) : function :=
  mkFunction "tree_0" DOUBLE [ty] [mkBlock "node_0" [] None] 0.

(** A bitset of [2^26 + 1] words: all clear but bit 0 of the last word, the
    bit of category [2^31]. *)
Definition huge_bitset : list Z := repeat 0 (Z.to_nat 67108864) ++ [1].

(** What an emitter returns when it does not raise. *)
Definition outcome {A} (r : result A) (default : A) : A :=
  match r with OK a => a | Raise _ => default end.

(** A numerical node in the explicit-missing form: zero is missing and goes
    left, the threshold is negative. *)
Definition zero_missing_node : DecisionNode :=
  numerical_stub_node MZero true f64_minus_half.

Definition zero_missing_block : ir_value * function :=
  outcome (_populate_numerical_node_block 0 zero_missing_node (stub_function DOUBLE))
          (ZERO_V, stub_function DOUBLE).

(** The bitset of the spec's categorical scenario: bits 1 and 3. *)
Definition small_bitset : list Z := [10].

Definition small_tree_function : function :=
  snd (outcome (gen_node 0 (categorical_stub small_bitset) (stub_function INT_CAT))
               (tt, stub_function INT_CAT)).

Definition fused_function : function :=
  snd (outcome (gen_node 0 (numerical_stub MZero true f64_half) (stub_function DOUBLE))
               (tt, stub_function DOUBLE)).

(** A reader of the two floats the examples need. *)
Definition example_py_float (s : string) : option f64 :=
  if String.eqb s "1.0" then Some f64_one
  else if String.eqb s "-1.0" then Some f64_minus_one
  else None.

(** Stand-ins for the host's [exp] and [log]; the examples do not depend on
    what they compute. *)
Definition stand_in_exp (x : f64) : f64 := f64_add x f64_one.

Definition stand_in_log (x : f64) : f64 := f64_add x f64_minus_one.

(** Two numerical stubs over one feature. *)
Definition two_tree_forest (n_classes class_id : Z) (objective : string)
    (config : option string) : Forest.t :=
  Forest.mk
    [Tree.mk 0 (numerical_stub MZero true f64_half) [Feature.mk false] 0;
     Tree.mk 1 (numerical_stub MNone false f64_minus_half) [Feature.mk false] class_id]
    [Feature.mk false] n_classes objective config.

Definition regression_forest : Forest.t :=
  two_tree_forest 1 0 "regression" (Some "sqrt").

Definition regression_module : module :=
  snd (outcome (gen_forest example_py_float regression_forest empty_module)
               (tt, empty_module)).

(** Buffer 0 holds the rows [0.5] and [-1.0]; the other buffers are zero. *)
Definition example_heap : heap :=
  fun b o =>
    if Nat.eqb b 0 then (if Z.eqb o 0 then f64_half else f64_minus_one) else f64_zero.

(** The state in which the objective of the example is lowered: the loop
    body under construction, the accumulator in register 3. *)
Definition objective_state : fstate := (root_before_core, []).

Definition objective_block : ir_value * fstate :=
  outcome (_populate_objective_func_block example_py_float 2 (InstrRef DOUBLE 3)
             "regression" (Some "sqrt") objective_state)
          (ZERO_V, objective_state).




(** Which blocks of a function have their terminator. *)
Definition shape (f : function) : list bool :=
  map (fun blk => match term blk with Some _ => true | None => false end) (blocks f).

Definition set_true (b : nat) (l : list bool) : list bool :=
  update_nth l b (fun _ => true).

(** The name, the return type and the parameters of a function. *)
Definition same_signature (f f' : function) : Prop :=
  fname f' = fname f /\ fret f' = fret f /\ fargs f' = fargs f.

(** One step of an emitter: the signature stays, the blocks change as [st]
    says. *)
Definition evolves (st : list bool -> list bool) (f f' : function) : Prop :=
  same_signature f f' /\ shape f' = st (shape f).

(** The blocks [gen_node] appends for a node: one for the bitset compare of
    a categorical node; none for the leaves of a fused double leaf, but the
    right one when the node is categorical; otherwise one per child. *)
Fixpoint new_blocks (n : Node) : nat :=
  match n with
  | Leaf _ => 0
  | Decision d l r =>
      (if is_categorical (decision_type d) then 1 else 0)
      + (if is_leaf l && is_leaf r
         then (if is_categorical (decision_type d) then 1 else 0)
         else 2 + new_blocks l + new_blocks r)
  end.

(** The exception [gen_node] raises, if any: the first one met when the
    nodes are visited root first, then the left subtree, then the right. *)
Fixpoint first_error (n_args : nat) (n : Node) : option PyError :=
  match n with
  | Leaf _ => None
  | Decision d l r =>
      match py_index n_args (split_feature d) with
      | None => Some IndexError
      | Some _ =>
          match is_categorical (decision_type d), cat_threshold d with
          | true, None => Some TypeError
          | _, _ =>
              match first_error n_args l with
              | Some e => Some e
              | None => first_error n_args r
              end
          end
      end
  end.

(** [module.declare_intrinsic] on the list of declared intrinsics. *)
Definition declare (i : intrinsic) (l : list intrinsic) : list intrinsic :=
  if existsb (intrinsic_eqb i) l then l else l ++ [i].

(** The three intrinsics of [_populate_objective_func_block], in the order
    it declares them. *)
Definition declare_objective_intrinsics (l : list intrinsic) : list intrinsic :=
  declare llvm_copysign (declare llvm_log (declare llvm_exp l)).

(** What an emitter on [forest_root] keeps and changes: the signature of
    the function stays, the declared intrinsics change as [g] says. *)
Definition fstep {A} (g : list intrinsic -> list intrinsic) (c : M fstate A) : Prop :=
  forall s a s', c s = OK (a, s') ->
                 same_signature (fst s) (fst s') /\ snd s' = g (snd s).

(** The exception raised while the trees are generated, if any: a name that
    is taken, or the first error of a tree. *)
Fixpoint trees_error (names : list string) (trees : list Tree.t) : option PyError :=
  match trees with
  | [] => None
  | t :: ts =>
      if existsb (fun s => String.eqb s (Tree.str t)) names
      then Some (DuplicatedNameError (Tree.str t))
      else
        match first_error (List.length (Tree.features t)) (Tree.root_node t) with
        | Some e => Some e
        | None => trees_error (names ++ [Tree.str t]) ts
        end
  end.

(** The exception [gen_forest] raises, if any, in the order the code meets
    them: the name [forest_root] is taken; a tree cannot be generated; there
    is no tree ([tree_funcs[0]]); the objective cannot be lowered. *)
Definition gen_forest_error (py_float : string -> option f64) (forest : Forest.t)
    (m : module) : option PyError :=
  let names := map fname (functions m) in
  if existsb (fun s => String.eqb s "forest_root") names
  then Some (DuplicatedNameError "forest_root")
  else
    match trees_error (names ++ ["forest_root"]) (Forest.trees forest) with
    | Some e => Some e
    | None =>
        match Forest.trees forest with
        | [] => Some IndexError
        | _ :: _ =>
            objective_error py_float (Forest.objective_func forest)
              (Forest.objective_func_config forest)
        end
    end.

(** The signature of the function of a tree. *)
Definition tree_signature (ft : function) (t : Tree.t) : Prop :=
  fname ft = Tree.str t /\
  fret ft = DOUBLE /\
  fargs ft = map (fun f => if Feature.is_categorical f then INT_CAT else DOUBLE)
                 (Tree.features t).

Definition all_terminated (f : function) : Prop :=
  Forall (fun blk => term blk <> None) (blocks f).

(** A tree of depth two over a numerical and a categorical feature: the
    root compares feature 0 with 0.5 and has a categorical node over
    feature 1 (bitset with bits 1 and 3) as its left child. *)
Definition example_tree : Tree.t :=
  Tree.mk 7
    (Decision (mkDecisionNode 0 0 f64_half (mkDecisionType false false MNaN) None)
       (Decision (mkDecisionNode 1 1 f64_zero (mkDecisionType true false MNone)
                    (Some small_bitset))
          (Leaf (mkLeafNode 0 f64_one)) (Leaf (mkLeafNode 1 f64_minus_one)))
       (Leaf (mkLeafNode 2 f64_half)))
    [Feature.mk false; Feature.mk true] 0.

Definition example_tree_start : function :=
  mkFunction "tree_7" DOUBLE [DOUBLE; INT_CAT] [] 0.

Definition example_tree_function : function :=
  snd (outcome (gen_tree example_tree example_tree_start) (tt, example_tree_start)).

Set Implicit Arguments.

(* ===================================================================== *)
(** * Lists, the monad and the builder: basic facts *)
(* ===================================================================== *)

Lemma update_nth_length {A} (l : list A) n g :
  List.length (update_nth l n g) = List.length l.
Proof.
  revert n; induction l as [|x l IH]; intros [|n]; simpl; auto.
Qed.

Lemma nth_error_update_nth_same {A} (l : list A) n g x :
  nth_error l n = Some x -> nth_error (update_nth l n g) n = Some (g x).
Proof.
  revert n; induction l as [|y l IH]; intros [|n]; simpl; try discriminate.
  - intros H; inversion H; reflexivity.
  - apply IH.
Qed.

Lemma nth_error_update_nth_other {A} (l : list A) n k g :
  k <> n -> nth_error (update_nth l n g) k = nth_error l k.
Proof.
  revert n k; induction l as [|y l IH]; intros [|n] [|k] Hne; simpl; auto;
    congruence.
Qed.

Lemma nth_error_app_last {A} (l : list A) x :
  nth_error (l ++ [x]) (List.length l) = Some x.
Proof.
  rewrite nth_error_app2 by apply Nat.le_refl.
  rewrite Nat.sub_diag; reflexivity.
Qed.

Lemma nth_error_app_keep {A} (l : list A) x k :
  (k < List.length l)%nat -> nth_error (l ++ [x]) k = nth_error l k.
Proof. intros; apply nth_error_app1; assumption. Qed.

Lemma bind_inv {S A B} (c : M S A) (k : A -> M S B) s b s' :
  bind c k s = OK (b, s') ->
  exists a s1, c s = OK (a, s1) /\ k a s1 = OK (b, s').
Proof.
  unfold bind; destruct (c s) as [[a s1]|e]; try discriminate.
  intros H; exists a, s1; auto.
Qed.

Lemma on_func_inv {A} (c : M function A) s a s' :
  on_func c s = OK (a, s') ->
  c (fst s) = OK (a, fst s') /\ snd s' = snd s.
Proof.
  unfold on_func; destruct (c (fst s)) as [[x f']|e]; try discriminate.
  intros H; inversion H; subst; auto.
Qed.

Lemma appended_nil f bb : appended f f bb [].
Proof.
  unfold appended; repeat split; auto.
  intros [n i t] H; simpl; rewrite app_nil_r; exact H.
Qed.

Lemma appended_trans f1 f2 f3 bb c1 c2 :
  appended f1 f2 bb c1 -> appended f2 f3 bb c2 -> appended f1 f3 bb (c1 ++ c2).
Proof.
  intros (A1 & L1 & O1 & S1 & N1 & I1) (A2 & L2 & O2 & S2 & N2 & I2).
  repeat split.
  - congruence.
  - congruence.
  - intros k Hk; rewrite O2, O1; auto.
  - intros blk Hb. rewrite (S2 _ (S1 _ Hb)); simpl. rewrite app_assoc; reflexivity.
  - rewrite N2, N1, length_app; lia.
  - apply Forall_app; split; auto.
    eapply Forall_impl; [|exact I2]. simpl; intros; lia.
Qed.

Lemma emit_appended bb ty i f :
  exists f', emit bb ty i f = OK (InstrRef ty (next_id f), f') /\
             appended f f' bb [(next_id f, i)].
Proof.
  eexists; split; [reflexivity|].
  repeat split; simpl.
  - apply update_nth_length.
  - intros k Hk; apply nth_error_update_nth_other; auto.
  - intros blk Hb. erewrite nth_error_update_nth_same; eauto.
  - lia.
  - constructor; auto.
Qed.

Lemma emit_inv bb ty i f v f' :
  emit bb ty i f = OK (v, f') ->
  v = InstrRef ty (next_id f) /\ appended f f' bb [(next_id f, i)].
Proof.
  destruct (emit_appended bb ty i f) as (f0 & E & Ha).
  rewrite E; intros H; inversion H; subst; auto.
Qed.

Lemma terminate_inv bb t f u f' :
  terminate bb t f = OK (u, f') -> terminated f f' bb t.
Proof.
  unfold terminate; intros H; inversion H; subst; clear H.
  repeat split; simpl.
  - apply update_nth_length.
  - intros k Hk; apply nth_error_update_nth_other; auto.
  - intros blk Hb. erewrite nth_error_update_nth_same; eauto.
Qed.

(** Effect of [append_basic_block]. *)
Lemma append_basic_block_inv name f b f' :
  append_basic_block name f = OK (b, f') ->
  b = List.length (blocks f) /\
  fargs f' = fargs f /\
  blocks f' = blocks f ++ [mkBlock name [] None] /\
  next_id f' = next_id f.
Proof.
  unfold append_basic_block; intros H; inversion H; subst; simpl; auto.
Qed.

Lemma func_arg_inv i f v f' :
  func_arg i f = OK (v, f') ->
  f' = f /\ exists j ty, py_index (List.length (fargs f)) i = Some j /\
                         nth_error (fargs f) j = Some ty /\ v = Argument ty j.
Proof.
  unfold func_arg.
  destruct (py_index _ i) as [j|]; try discriminate.
  destruct (nth_error (fargs f) j) as [ty|] eqn:E; try discriminate.
  intros H; inversion H; subst; split; auto. exists j, ty; auto.
Qed.

(* ===================================================================== *)
(** * Executing emitted code: basic facts *)
(* ===================================================================== *)

Section ExecFacts.

Variables exp_f64 log_f64 : f64 -> f64.
Variable callf : nat -> list rtval -> heap -> option (option rtval * heap).

Abbreviation exec := (exec_instrs exp_f64 log_f64 callf).

Lemma exec_instrs_app args fr c1 c2 :
  exec args fr (c1 ++ c2)
  = match exec args fr c1 with
    | Some fr' => exec args fr' c2
    | None => None
    end.
Proof.
  revert fr; induction c1 as [|ii c1 IH]; intros fr; simpl; auto.
  destruct (exec_instr _ _ _ _ _ ii); auto.
Qed.

(** An instruction writes no register but its own. *)
Lemma exec_instr_regs args fr ii fr' :
  exec_instr exp_f64 log_f64 callf args fr ii = Some fr' ->
  forall id, id <> fst ii -> env fr' id = env fr id.
Proof.
  destruct ii as [n i]; unfold exec_instr; simpl.
  intros H id Hid.
  assert (Hset : forall v, set_reg (env fr) n v id = env fr id).
  { intros v; unfold set_reg. destruct (Nat.eqb_spec id n); congruence. }
  destruct i; simpl in H;
    repeat match type of H with
    | match ?x with _ => _ end = Some _ => destruct x eqn:?; try discriminate
    | (if ?x then _ else _) = Some _ => destruct x eqn:?; try discriminate
    end;
    inversion H; subst; simpl; auto.
Qed.

Lemma exec_instrs_regs args code : forall fr fr' n,
  exec args fr code = Some fr' ->
  Forall (fun ii => (n <= fst ii)%nat) code ->
  forall id, (id < n)%nat -> env fr' id = env fr id.
Proof.
  induction code as [|ii code IH]; intros fr fr' n H Hall id Hid; simpl in H.
  - inversion H; auto.
  - destruct (exec_instr _ _ _ _ _ ii) as [fr1|] eqn:E; try discriminate.
    inversion Hall; subst.
    rewrite (IH _ _ _ H H3 id Hid).
    eapply exec_instr_regs; eauto. lia.
Qed.

End ExecFacts.

Lemma eval_operand_stable args e e' n v :
  (forall id, (id < n)%nat -> e' id = e id) ->
  value_below n v ->
  eval_operand args e' v = eval_operand args e v.
Proof.
  intros He Hv; destruct v; simpl in *; auto.
Qed.

Lemma set_reg_same e id v : set_reg e id v id = Some v.
Proof. unfold set_reg; rewrite Nat.eqb_refl; reflexivity. Qed.

Lemma set_reg_other e id v j : j <> id -> set_reg e id v j = e j.
Proof. unfold set_reg; intros H; destruct (Nat.eqb_spec j id); congruence. Qed.

Ltac reg_simpl :=
  repeat (rewrite set_reg_same || (rewrite set_reg_other by lia)).

(** Monadic inversion of a successful builder run. *)
Ltac minv :=
  repeat match goal with
  | H : bind _ _ _ = OK _ |- _ =>
      let a := fresh "a" in
      let s := fresh "s" in
      let E := fresh "E" in
      apply bind_inv in H; destruct H as (a & s & E & H)
  | H : ret _ _ = OK _ |- _ => inversion H; subst; clear H
  | H : raise _ _ = OK _ |- _ => discriminate H
  | H : emit _ _ _ _ = OK _ |- _ =>
      let A := fresh "Happ" in
      apply emit_inv in H; destruct H as [? A]; subst
  | H : terminate _ _ _ = OK _ |- _ => apply terminate_inv in H
  | H : func_arg _ _ = OK _ |- _ =>
      let j := fresh "j" in
      let ty := fresh "ty" in
      apply func_arg_inv in H; destruct H as (? & j & ty & ? & ? & ?); subst
  end.

Ltac unfold_builder :=
  unfold fcmp_unordered, fcmp_ordered, icmp_unsigned, icmp_signed, or_, not_, xor,
    select, udiv, urem, lshr, mul, add, fadd, fmul, fdiv, extract_element, trunc,
    builder_fptosi, alloca, load, store, gep, call, builder_ret, ret_void, branch,
    cbranch in *.

Lemma node_input_arg args d (f : function) j :
  List.length args = List.length (fargs f) ->
  py_index (List.length (fargs f)) (split_feature d) = Some j ->
  node_input args d = nth_error args j.
Proof.
  intros Hl Hj; unfold node_input; rewrite Hl, Hj; reflexivity.
Qed.

(** Record the counter reached by each step, then merge the steps. *)
Ltac note_ids :=
  repeat match goal with
  | H : appended ?a ?b _ _ |- _ =>
      lazymatch goal with
      | _ : next_id b = _ |- _ => fail
      | _ => let N := fresh "N" in
             pose proof (proj1 (proj2 (proj2 (proj2 (proj2 H))))) as N; simpl in N
      end
  end.

Ltac chain :=
  repeat match goal with
  | H1 : appended ?a ?b ?bb _, H2 : appended ?b ?c ?bb _ |- _ =>
      let H := fresh "Hch" in
      pose proof (appended_trans H1 H2) as H; simpl in H; clear H1 H2
  end.

Ltac run_code :=
  repeat (progress (simpl; unfold exec_instr; simpl; reg_simpl)).

Lemma populate_numerical_spec bb d f comp f' :
  _populate_numerical_node_block bb d f = OK (comp, f') ->
  exists code,
    appended f f' bb code /\
    value_below (next_id f') comp /\
    forall exp lg callf args fr v,
      List.length args = List.length (fargs f) ->
      node_input args d = Some (VDouble v) ->
      exists fr',
        exec_instrs exp lg callf args fr code = Some fr' /\
        mem fr' = mem fr /\
        eval_operand args (env fr') comp = Some (VBool (numerical_decision d v)).
Proof.
  unfold _populate_numerical_node_block, numerical_decision.
  intros H. apply bind_inv in H. destruct H as (val & f0 & Ha & H).
  apply func_arg_inv in Ha. destruct Ha as (-> & j & ty & Hj & Hty & ->).
  set (mt := missing_type (decision_type d)) in *.
  destruct (if MissingType_eqb mt MNone then SFleb f64_zero (threshold d)
            else is_default_left (decision_type d));
    destruct (MissingType_eqb mt MZero) eqn:Emt; simpl in H |- *;
    try destruct (SFleb f64_zero (threshold d)) eqn:Et; simpl in H |- *;
    try destruct (SFltb (threshold d) f64_zero) eqn:Et'; simpl in H |- *;
    unfold_builder; minv; note_ids; chain;
    (eexists; split; [eassumption|]; split; [simpl; lia|]);
    intros exp lg callf args fr v Hl Hin;
    rewrite (node_input_arg _ _ _ Hl Hj) in Hin;
    (eexists; split; [|split];
     [ simpl; unfold exec_instr; simpl; rewrite Hin; run_code; reflexivity
     | reflexivity
     | run_code; rewrite ?xorb_true_r; reflexivity ]).
Qed.

(* ===================================================================== *)
(** * 32-bit arithmetic facts *)
(* ===================================================================== *)

Lemma two32_pow : two32 = 2 ^ 32.
Proof. reflexivity. Qed.

Lemma to_unsigned_range z : 0 <= to_unsigned z < two32.
Proof. unfold to_unsigned; apply Z.mod_pos_bound; reflexivity. Qed.

Lemma to_unsigned_wrap32 z : to_unsigned (wrap32 z) = to_unsigned z.
Proof.
  unfold to_unsigned, wrap32.
  rewrite Zminus_mod_idemp_l. f_equal. lia.
Qed.

Lemma to_unsigned_small z : 0 <= z < two32 -> to_unsigned z = z.
Proof. intros; unfold to_unsigned; apply Z.mod_small; assumption. Qed.

Lemma odd_to_unsigned z : Z.odd (to_unsigned z) = Z.odd z.
Proof.
  unfold to_unsigned. rewrite two32_pow, <- !Z.bit0_odd.
  apply Z.mod_pow2_bits_low; lia.
Qed.

Lemma odd_wrap32 z : Z.odd (wrap32 z) = Z.odd z.
Proof.
  rewrite <- (odd_to_unsigned (wrap32 z)), to_unsigned_wrap32.
  apply odd_to_unsigned.
Qed.

Lemma testbit_to_unsigned z s : 0 <= s < 32 -> Z.testbit (to_unsigned z) s = Z.testbit z s.
Proof.
  intros; unfold to_unsigned; rewrite two32_pow.
  apply Z.mod_pow2_bits_low; lia.
Qed.

(** The bit the bitset-compare block extracts: [trunc (lshr word, shift)]. *)
Lemma lshr_trunc_bit w s :
  0 <= s < 32 ->
  Z.odd (wrap32 (Z.shiftr (to_unsigned (wrap32 w)) s)) = Z.testbit w s.
Proof.
  intros Hs. rewrite odd_wrap32, to_unsigned_wrap32.
  rewrite <- Z.bit0_odd, Z.shiftr_spec by lia.
  simpl. apply testbit_to_unsigned; assumption.
Qed.

Lemma in_bitset_range_index cat v :
  in_bitset_range cat v = true ->
  (Z.to_nat (to_unsigned v / 32) < List.length cat)%nat.
Proof.
  unfold in_bitset_range; intros H. apply Z.ltb_lt in H.
  pose proof (to_unsigned_range v) as Hv.
  assert (Hle : to_unsigned (32 * Z.of_nat (List.length cat))
                <= 32 * Z.of_nat (List.length cat)).
  { unfold to_unsigned. apply Z.mod_le; [lia | reflexivity]. }
  assert (to_unsigned v / 32 < Z.of_nat (List.length cat)).
  { apply Z.div_lt_upper_bound; lia. }
  assert (0 <= to_unsigned v / 32) by (apply Z.div_pos; lia).
  lia.
Qed.

Lemma nth_error_map_nth {A B} (g : A -> B) (l : list A) k d :
  (k < List.length l)%nat -> nth_error (map g l) k = Some (g (nth k l d)).
Proof.
  revert k; induction l as [|x l IH]; intros [|k] H; simpl in *; try lia; auto.
  apply IH; lia.
Qed.

Lemma icmp_range cat v :
  icmp_sem false CmpLt v (wrap32 (32 * Z.of_nat (List.length cat)))
  = in_bitset_range cat v.
Proof.
  unfold icmp_sem, in_bitset_range, Z.ltb. rewrite to_unsigned_wrap32.
  destruct (to_unsigned v ?= _); reflexivity.
Qed.

Lemma populate_categorical_spec b c d rb f comp f' :
  _populate_categorical_node_block b c d c (Some rb) f = OK (comp, f') ->
  exists cat j ty fa fb code,
    cat_threshold d = Some cat /\
    py_index (List.length (fargs f)) (split_feature d) = Some j /\
    appended f fa b
      [(next_id f,
        Icmp false CmpLt (Argument ty j) (iconst (32 * Z.of_nat (List.length cat))))] /\
    terminated fa fb b (CBranch (InstrRef BOOL (next_id f)) c rb) /\
    appended fb f' c code /\
    value_below (next_id f') comp /\
    forall exp lg callf args fr v,
      List.length args = List.length (fargs f) ->
      node_input args d = Some (VInt v) ->
      in_bitset_range cat v = true ->
      exists fr',
        exec_instrs exp lg callf args fr code = Some fr' /\
        mem fr' = mem fr /\
        eval_operand args (env fr') comp = Some (VBool (bitset_bit cat v)).
Proof.
  unfold _populate_categorical_node_block.
  intros H. apply bind_inv in H. destruct H as (val & f0 & Ha & H).
  apply func_arg_inv in Ha. destruct Ha as (-> & j & ty & Hj & Hty & ->).
  destruct (cat_threshold d) as [cat|]; [|discriminate H].
  unfold_builder. minv.
  match goal with
  | H1 : appended f ?fa b _, H2 : terminated ?fa ?fb b _ |- _ =>
      exists cat, j, ty, fa, fb
  end.
  note_ids.
  assert (Hid : next_id s0 = next_id s) by (destruct E0 as (_ & _ & _ & _ & Hn); exact Hn).
  clear N. chain.
  eexists. repeat (split; [first [reflexivity | eassumption]|]).
  split; [simpl; lia|].
  intros exp lg callf args fr v Hl Hin Hr.
  rewrite (node_input_arg _ _ _ Hl Hj) in Hin.
  pose proof (in_bitset_range_index _ _ Hr) as Hk.
  pose proof (to_unsigned_range v) as Hv.
  assert (Hq : 0 <= to_unsigned v / 32 < two32).
  { split; [apply Z.div_pos; lia|]. apply Z.div_lt_upper_bound; unfold two32 in *; lia. }
  assert (Hm : 0 <= to_unsigned v mod 32 < 32) by (apply Z.mod_pos_bound; lia).
  eexists; split; [|split].
  - simpl; unfold exec_instr; simpl; rewrite Hin. simpl.
    change (to_unsigned (wrap32 32)) with 32. simpl.
    run_code.
    rewrite to_unsigned_wrap32, (to_unsigned_small Hq).
    rewrite (nth_error_map_nth _ _ 0 Hk). simpl.
    run_code.
    rewrite (to_unsigned_wrap32 (to_unsigned v mod 32)).
    rewrite (to_unsigned_small (z := to_unsigned v mod 32)) by (unfold two32; lia).
    destruct (Z.ltb_spec (to_unsigned v mod 32) 32); [|lia].
    run_code. reflexivity.
  - reflexivity.
  - run_code. rewrite lshr_trunc_bit by assumption. reflexivity.
Qed.

(* ===================================================================== *)
(** * Soundness of the tree emitter *)
(* ===================================================================== *)

Lemma run_blocks_extends exp lg m f f' :
  extends f f' ->
  forall fuel b args fr r,
    run_blocks exp lg m fuel f b args fr = Some r ->
    run_blocks exp lg m fuel f' b args fr = Some r.
Proof.
  intros Hext; induction fuel as [|fuel IH]; intros b args fr r H; [discriminate|].
  simpl in H |- *.
  destruct (nth_error (blocks f) b) as [blk|] eqn:Eb; [|discriminate].
  destruct (exec_instrs _ _ _ args fr (instrs blk)) as [fr'|] eqn:Ex; [|discriminate].
  destruct (term blk) as [t|] eqn:Et; [|discriminate].
  rewrite (Hext _ _ Eb) by congruence.
  rewrite Ex, Et.
  destruct t; auto.
  destruct (eval_operand args (env fr') cond) as [[[|]| | | |]|]; auto; discriminate.
Qed.

Lemma leaf_sound leaf : node_sound (Leaf leaf).
Proof.
  intros f b f' name Hb H. simpl in H. unfold _gen_leaf_node, builder_ret in H.
  apply terminate_inv in H. destruct H as (Ha & Hl & Ho & Hs & Hn).
  repeat split; auto.
  - rewrite Hl; auto.
  - intros exp lg m args fr y fuel Hlen Hp Hfuel. simpl in Hp, Hfuel.
    inversion Hp; subst. destruct fuel as [|fuel]; [lia|].
    simpl. rewrite (Hs _ Hb). simpl. reflexivity.
Qed.

Lemma nth_error_lt {A} (l : list A) k x :
  nth_error l k = Some x -> (k < List.length l)%nat.
Proof. intros H; apply nth_error_Some; congruence. Qed.

(** Both children generated one after the other, into two blocks that were
    still empty. *)
Lemma children_sound l r f4 f5 f' bl br namel namer u :
  node_sound l -> node_sound r ->
  bl <> br ->
  nth_error (blocks f4) bl = Some (mkBlock namel [] None) ->
  nth_error (blocks f4) br = Some (mkBlock namer [] None) ->
  gen_node bl l f4 = OK (u, f5) ->
  gen_node br r f5 = OK (tt, f') ->
  fargs f' = fargs f4 /\
  (List.length (blocks f4) <= List.length (blocks f'))%nat /\
  (forall k, (k < List.length (blocks f4))%nat -> k <> bl -> k <> br ->
             nth_error (blocks f') k = nth_error (blocks f4) k) /\
  forall exp lg m args fr y fuel,
    List.length args = List.length (fargs f4) ->
    (predict args l = Some y -> (2 * height l <= fuel)%nat ->
     run_blocks exp lg m fuel f' bl args fr = Some (Some (VDouble y), mem fr)) /\
    (predict args r = Some y -> (2 * height r <= fuel)%nat ->
     run_blocks exp lg m fuel f' br args fr = Some (Some (VDouble y), mem fr)).
Proof.
  intros IHl IHr Hne Hbl Hbr Gl Gr. destruct u.
  destruct (IHl _ _ _ _ Hbl Gl) as (Al & Ll & Ol & Rl).
  pose proof (nth_error_lt _ _ Hbl) as Hl4.
  pose proof (nth_error_lt _ _ Hbr) as Hr4.
  assert (Hbr5 : nth_error (blocks f5) br = Some (mkBlock namer [] None)).
  { rewrite Ol; auto. }
  destruct (IHr _ _ _ _ Hbr5 Gr) as (Ar & Lr & Or & Rr).
  assert (Hext : extends f5 f').
  { intros i blk Hi Ht. rewrite Or; auto.
    - eapply nth_error_lt; eauto.
    - intros ->. rewrite Hbr5 in Hi. inversion Hi; subst. simpl in Ht. congruence. }
  repeat split.
  - congruence.
  - lia.
  - intros k Hk Hkl Hkr. rewrite Or, Ol; auto. lia.
  - intros Hp Hf. eapply run_blocks_extends; [exact Hext|]. apply Rl; auto.
  - intros Hp Hf. apply Rr; auto. congruence.
Qed.

Lemma run_cbranch exp lg m fuel f b args fr nm code c t e fr' dec :
  nth_error (blocks f) b = Some (mkBlock nm code (Some (CBranch c t e))) ->
  exec_instrs exp lg (call_in exp lg m fuel) args fr code = Some fr' ->
  eval_operand args (env fr') c = Some (VBool dec) ->
  run_blocks exp lg m (S fuel) f b args fr
  = run_blocks exp lg m fuel f (if dec then t else e) args fr'.
Proof.
  intros Hb Hx Hc. simpl. rewrite Hb. simpl.
  unfold call_in in Hx. rewrite Hx, Hc. destruct dec; reflexivity.
Qed.

Lemma run_ret exp lg m fuel f b args fr nm code v fr' x :
  nth_error (blocks f) b = Some (mkBlock nm code (Some (Ret v))) ->
  exec_instrs exp lg (call_in exp lg m fuel) args fr code = Some fr' ->
  eval_operand args (env fr') v = Some x ->
  run_blocks exp lg m (S fuel) f b args fr = Some (Some x, mem fr').
Proof.
  intros Hb Hx Hc. simpl. rewrite Hb. simpl.
  unfold call_in in Hx. rewrite Hx, Hc. reflexivity.
Qed.

Lemma nth_error_app_keep2 {A} (l : list A) x y k :
  (k < List.length l)%nat -> nth_error ((l ++ [x]) ++ [y]) k = nth_error l k.
Proof.
  intros H. rewrite nth_error_app1 by (rewrite length_app; simpl; lia).
  apply nth_error_app1; assumption.
Qed.

Lemma nth_app2_0 {A} (l : list A) x y :
  nth_error ((l ++ [x]) ++ [y]) (List.length l) = Some x.
Proof.
  rewrite nth_error_app1 by (rewrite length_app; simpl; lia).
  apply nth_error_app_last.
Qed.

Lemma nth_app2_1 {A} (l : list A) x y :
  nth_error ((l ++ [x]) ++ [y]) (List.length l + 1) = Some y.
Proof.
  replace (List.length l + 1)%nat with (List.length (l ++ [x]))
    by (rewrite length_app; reflexivity).
  apply nth_error_app_last.
Qed.

Lemma nth_app3_keep {A} (l : list A) x y z k :
  (k < List.length l + 2)%nat ->
  nth_error (((l ++ [x]) ++ [y]) ++ [z]) k = nth_error ((l ++ [x]) ++ [y]) k.
Proof.
  intros H. apply nth_error_app1. rewrite !length_app; simpl; lia.
Qed.

Lemma nth_app3_2 {A} (l : list A) x y z :
  nth_error (((l ++ [x]) ++ [y]) ++ [z]) (List.length l + 1 + 1) = Some z.
Proof.
  replace (List.length l + 1 + 1)%nat with (List.length ((l ++ [x]) ++ [y]))
    by (rewrite !length_app; reflexivity).
  apply nth_error_app_last.
Qed.

Lemma exec_icmp_range exp lg callf args fr n ty j cat v :
  nth_error args j = Some (VInt v) ->
  exec_instrs exp lg callf args fr
    [(n, Icmp false CmpLt (Argument ty j) (iconst (32 * Z.of_nat (List.length cat))))]
  = Some (bind_reg fr n (VBool (in_bitset_range cat v))).
Proof.
  intros Hin. unfold exec_instrs, exec_instr, pure_instr, iconst, INT, const_value.
  cbn [fst snd eval_operand Pos.eqb]. rewrite Hin.
  change (const_value (IntType 32) (PyInt (32 * Z.of_nat (List.length cat))))
    with (Some (VInt (wrap32 (32 * Z.of_nat (List.length cat))))).
  cbv beta iota. rewrite icmp_range. reflexivity.
Qed.

Lemma fusing_sound fuse d l r :
  (fuse = true -> is_leaf l && is_leaf r = true) ->
  node_sound l -> node_sound r ->
  gen_sound (fun b => gen_decision_node_fusing fuse
                        (fun b' => gen_node b' l) (fun b' => gen_node b' r) b d l r)
            (Decision d l r).
Proof.
  intros Hfuse IHl IHr f b f' name Hb H.
  pose proof (nth_error_lt _ _ Hb) as Hblt.
  unfold gen_decision_node_fusing in H.
  destruct fuse eqn:Efuse;
    [pose proof (Hfuse eq_refl) as Efused|clear Hfuse];
    destruct (is_categorical (decision_type d)) eqn:Ecat.
  2:{ (* numerical, fused double leaf *)
    destruct l as [ll|]; [|discriminate Efused].
    destruct r as [lr|]; [|discriminate Efused].
    minv. cbn [fst snd leaf_value] in *. unfold_builder. minv.
    match goal with
    | H : _populate_numerical_node_block _ _ _ = OK _ |- _ =>
        apply populate_numerical_spec in H;
        destruct H as (code & Hcode & Hbelow & Hsem)
    end.
    match goal with
    | H : appended _ _ b [_] |- _ =>
        pose proof (appended_trans Hcode H) as Hall; clear H
    end.
    match goal with
    | H : terminated _ _ b _ |- _ => destruct H as (At & Lt & Ot & St & Nt)
    end.
    destruct Hcode as (Ac & Lc & Oc & Sc & Nc & Ic).
    destruct Hall as (Aa & La & Oa & Sa & Na & Ia).
    repeat split.
    - congruence.
    - lia.
    - intros k Hk Hkb. rewrite Ot, Oa by lia. reflexivity.
    - intros exp lg m args fr y fuel Hlen Hp Hfuel.
      cbn [predict] in Hp. unfold goes_left in Hp. rewrite Ecat in Hp.
      destruct (node_input args d) as [[| |v| |]|] eqn:Hin; try discriminate.
      destruct fuel as [|fuel]; [simpl in Hfuel; lia|].
      destruct (Hsem exp lg (call_in exp lg m fuel) args fr v Hlen Hin)
        as (fr' & Hx & Hm & Hc).
      erewrite run_ret.
      2:{ rewrite (St _ (Sa _ Hb)). simpl. reflexivity. }
      2:{ rewrite exec_instrs_app, Hx. simpl. unfold exec_instr. simpl.
          rewrite Hc. simpl. reflexivity. }
      2:{ simpl. rewrite set_reg_same. reflexivity. }
      simpl. rewrite Hm.
      destruct (numerical_decision d v); congruence. }
  3:{ (* numerical, children in their own blocks *)
    minv. cbn [fst snd] in *. unfold_builder. minv.
    repeat match goal with
    | H : append_basic_block _ _ = OK _ |- _ =>
        apply append_basic_block_inv in H; destruct H as (-> & ? & ? & ?)
    end.
    match goal with
    | H : _populate_numerical_node_block _ _ _ = OK _ |- _ =>
        apply populate_numerical_spec in H;
        destruct H as (code & Hcode & Hbelow & Hsem)
    end.
    match goal with
    | H : terminated _ _ b _ |- _ => destruct H as (At & Lt & Ot & St & Nt)
    end.
    destruct Hcode as (Ac & Lc & Oc & Sc & Nc & Ic).
    repeat match goal with
    | H : blocks ?s = _ ++ _ |- _ => rewrite H in *; clear H
    end.
    rewrite ?length_app in *. cbn [List.length] in *.
    match goal with
    | H : gen_node _ l ?s1 = OK (_, ?s2) |- _ => rename H into Gl
    end.
    match goal with
    | H : gen_node _ r _ = OK _ |- _ => rename H into Gr
    end.
    match type of Gl with gen_node _ _ ?s1 = _ =>
    assert (Hbl : nth_error (blocks s1) (List.length (blocks f))
                  = Some (mkBlock (Node_str l) [] None));
    [ rewrite Ot, Oc by lia;
      rewrite nth_error_app1 by (rewrite length_app; simpl; lia);
      apply nth_error_app_last |];
    assert (Hbr : nth_error (blocks s1) (List.length (blocks f) + 1)
                  = Some (mkBlock (Node_str r) [] None));
    [ rewrite Ot, Oc by lia;
      replace (List.length (blocks f) + 1)%nat
        with (List.length (blocks f ++ [mkBlock (Node_str l) [] None]))
        by (rewrite length_app; reflexivity);
      apply nth_error_app_last |]
    end.
    assert (Hne : List.length (blocks f) <> (List.length (blocks f) + 1)%nat) by lia.
    destruct (@children_sound l r _ _ f' _ _ _ _ _ IHl IHr Hne Hbl Hbr Gl Gr)
      as (Af & Lf & Of & Rf).
    repeat split.
    - congruence.
    - lia.
    - intros k Hk Hkb. rewrite Of, Ot, Oc by lia.
      apply nth_error_app_keep2; auto.
    - intros exp lg m args fr y fuel Hlen Hp Hfuel.
      cbn [predict] in Hp. unfold goes_left in Hp. rewrite Ecat in Hp.
      destruct (node_input args d) as [[| |v| |]|] eqn:Hin; try discriminate.
      destruct fuel as [|fuel]; [simpl in Hfuel; lia|].
      destruct (Hsem exp lg (call_in exp lg m fuel) args fr v
                  ltac:(congruence) Hin) as (fr' & Hx & Hm & Hc).
      erewrite run_cbranch; [| |exact Hx|exact Hc].
      2:{ rewrite Of by lia. erewrite St.
          2:{ apply Sc. rewrite nth_error_app_keep2 by lia. exact Hb. }
          simpl. reflexivity. }
      rewrite <- Hm.
      edestruct Rf as [Rl Rr]; [|].
      { transitivity (List.length (fargs f)); [exact Hlen | congruence]. }
      cbn [height] in Hfuel.
      destruct (numerical_decision d v).
      + apply Rl; auto. lia.
      + apply Rr; auto. lia. }
  2:{ (* categorical, children in their own blocks *)
    minv. cbn [fst snd] in *. unfold_builder. minv.
    repeat match goal with
    | H : append_basic_block _ _ = OK _ |- _ =>
        apply append_basic_block_inv in H; destruct H as (-> & ? & ? & ?)
    end.
    match goal with
    | H : _populate_categorical_node_block _ _ _ _ _ _ = OK _ |- _ =>
        apply populate_categorical_spec in H;
        destruct H as (cat & j & ty & fa & fb & code & Hcat & Hj & Hicmp & Hbr0
                       & Hcode & Hbelow & Hsem)
    end.
    match type of Hj with
    | py_index (List.length (fargs ?s)) _ = _ => rename s into fs3
    end.
    match goal with
    | H : terminated _ ?s1 _ (CBranch _ (List.length (blocks f)) _) |- _ =>
        destruct H as (At & Lt & Ot & St & Nt)
    end.
    destruct Hicmp as (Ai & Li & Oi & Si & Ni & Ii).
    destruct Hbr0 as (Ab & Lb & Ob & Sb & Nb).
    destruct Hcode as (Ac & Lc & Oc & Sc & Nc & Ic).
    repeat match goal with
    | H : blocks ?s = _ ++ _ |- _ => rewrite H in *; clear H
    end.
    rewrite ?length_app in *. cbn [List.length] in *.
    match goal with
    | H : gen_node _ l ?s1 = OK (_, ?s2) |- _ => rename H into Gl
    end.
    match goal with
    | H : gen_node _ r _ = OK _ |- _ => rename H into Gr
    end.
    match type of Gl with gen_node _ _ ?s1 = _ =>
    assert (Hbl : nth_error (blocks s1) (List.length (blocks f))
                  = Some (mkBlock (Node_str l) [] None));
    [ rewrite Ot, Oc, Ob, Oi by lia;
      rewrite nth_app3_keep by lia; apply nth_app2_0 |];
    assert (Hbr : nth_error (blocks s1) (List.length (blocks f) + 1)
                  = Some (mkBlock (Node_str r) [] None));
    [ rewrite Ot, Oc, Ob, Oi by lia;
      rewrite nth_app3_keep by lia; apply nth_app2_1 |]
    end.
    assert (Hne : List.length (blocks f) <> (List.length (blocks f) + 1)%nat) by lia.
    destruct (@children_sound l r _ _ f' _ _ _ _ _ IHl IHr Hne Hbl Hbr Gl Gr)
      as (Af & Lf & Of & Rf).
    repeat split.
    - congruence.
    - lia.
    - intros k Hk Hkb. rewrite Of, Ot, Oc, Ob, Oi by lia.
      rewrite nth_app3_keep by lia. apply nth_error_app_keep2; auto.
    - intros exp lg m args fr y fuel Hlen Hp Hfuel.
      cbn [predict] in Hp. unfold goes_left in Hp. rewrite Ecat, Hcat in Hp.
      destruct (node_input args d) as [[|v| | |]|] eqn:Hin; try discriminate.
      cbn [height] in Hfuel.
      destruct fuel as [|[|fuel]]; [lia|lia|].
      assert (Hlen3 : List.length args
                      = List.length (fargs fs3)) by congruence.
      pose proof Hin as Hin'. rewrite (node_input_arg _ _ _ Hlen3 Hj) in Hin'.
      erewrite run_cbranch.
      2:{ rewrite Of, Ot, Oc by lia. erewrite Sb.
          2:{ apply Si. rewrite nth_app3_keep by lia.
              rewrite nth_error_app_keep2 by lia. exact Hb. }
          simpl. reflexivity. }
      2:{ apply exec_icmp_range; exact Hin'. }
      2:{ simpl; apply set_reg_same. }
      match type of Af with
      | _ = fargs ?s1 =>
          assert (Hlen1 : List.length args = List.length (fargs s1)) by congruence
      end.
      unfold categorical_decision in Hp.
      destruct (in_bitset_range cat v) eqn:Hrange; simpl in Hp.
      + destruct (Hsem exp lg (call_in exp lg m fuel) args
                    (bind_reg fr (next_id fs3) (VBool true)) v Hlen3 Hin Hrange)
          as (fr' & Hx & Hm & Hc).
        erewrite run_cbranch.
        2:{ rewrite Of by lia. erewrite St.
            2:{ apply Sc. rewrite Ob, Oi by lia. apply nth_app3_2. }
            simpl. reflexivity. }
        2:{ exact Hx. }
        2:{ exact Hc. }
        replace (mem fr) with (mem fr') by (rewrite Hm; reflexivity).
        destruct (bitset_bit cat v).
        * apply (proj1 (Rf exp lg m args fr' y fuel Hlen1)); auto. lia.
        * apply (proj2 (Rf exp lg m args fr' y fuel Hlen1)); auto. lia.
      + change (mem fr) with (mem (bind_reg fr (next_id fs3) (VBool false))).
        apply (proj2 (Rf exp lg m args _ y (S fuel) Hlen1)); auto. lia. }
  (* categorical, fused double leaf *)
  destruct l as [ll|]; [|discriminate Efused].
  destruct r as [lr|]; [|discriminate Efused].
  minv. cbn [fst snd leaf_value] in *. unfold_builder. minv.
  repeat match goal with
  | H : append_basic_block _ _ = OK _ |- _ =>
      apply append_basic_block_inv in H; destruct H as (-> & ? & ? & ?)
  end.
  match goal with
  | H : _populate_categorical_node_block _ _ _ _ _ _ = OK _ |- _ =>
      apply populate_categorical_spec in H;
      destruct H as (cat & j & ty & fa & fb & code & Hcat & Hj & Hicmp & Hbr0
                     & Hcode & Hbelow & Hsem)
  end.
  match type of Hj with
  | py_index (List.length (fargs ?s)) _ = _ => rename s into fs3
  end.
  match goal with
  | H : appended _ _ _ [(_, Select _ _ _)] |- _ =>
      pose proof (appended_trans Hcode H) as Hall; clear H
  end.
  match goal with
  | H : terminated _ _ _ (Ret _) |- _ => destruct H as (At & Lt & Ot & St & Nt)
  end.
  destruct Hicmp as (Ai & Li & Oi & Si & Ni & Ii).
  destruct Hbr0 as (Ab & Lb & Ob & Sb & Nb).
  destruct Hcode as (Ac & Lc & Oc & Sc & Nc & Ic).
  destruct Hall as (Aa & La & Oa & Sa & Na & Ia).
  repeat match goal with
  | H : blocks ?s = _ ++ _ |- _ => rewrite H in *; clear H
  end.
  rewrite ?length_app in *. cbn [List.length] in *.
  match goal with
  | H : gen_node _ (Leaf lr) _ = OK _ |- _ => rename H into Gr
  end.
  match type of Gr with gen_node _ _ ?s1 = _ =>
  assert (Hbr : nth_error (blocks s1) (List.length (blocks f))
                = Some (mkBlock (Node_str (Leaf lr)) [] None));
  [ rewrite Ot, Oa, Ob, Oi by lia; apply nth_app2_0 |]
  end.
  destruct (IHr _ _ _ _ Hbr Gr) as (Af & Lf & Of & Rf).
  repeat split.
  - congruence.
  - lia.
  - intros k Hk Hkb. rewrite Of, Ot, Oa, Ob, Oi by lia.
    apply nth_error_app_keep2; auto.
  - intros exp lg m args fr y fuel Hlen Hp Hfuel.
    cbn [predict] in Hp. unfold goes_left in Hp. rewrite Ecat, Hcat in Hp.
    destruct (node_input args d) as [[|v| | |]|] eqn:Hin; try discriminate.
    cbn [height] in Hfuel.
    destruct fuel as [|[|fuel]]; [simpl in Hfuel; lia|simpl in Hfuel; lia|].
    assert (Hlen3 : List.length args = List.length (fargs fs3)) by congruence.
    pose proof Hin as Hin'. rewrite (node_input_arg _ _ _ Hlen3 Hj) in Hin'.
    erewrite run_cbranch.
    2:{ rewrite Of, Ot, Oa by lia. erewrite Sb.
        2:{ apply Si. rewrite nth_error_app_keep2 by lia. exact Hb. }
        simpl. reflexivity. }
    2:{ apply exec_icmp_range; exact Hin'. }
    2:{ simpl; apply set_reg_same. }
    unfold categorical_decision in Hp.
    destruct (in_bitset_range cat v) eqn:Hrange; simpl in Hp.
    + destruct (Hsem exp lg (call_in exp lg m fuel) args
                  (bind_reg fr (next_id fs3) (VBool true)) v Hlen3 Hin Hrange)
        as (fr' & Hx & Hm & Hc).
      erewrite run_ret.
      2:{ rewrite Of by lia. erewrite St.
          2:{ apply Sa. rewrite Ob, Oi by lia. apply nth_app2_1. }
          simpl. reflexivity. }
      2:{ rewrite exec_instrs_app, Hx. simpl. unfold exec_instr. simpl.
          rewrite Hc. simpl. reflexivity. }
      2:{ simpl. rewrite set_reg_same. reflexivity. }
      simpl. rewrite Hm. simpl.
      destruct (bitset_bit cat v); congruence.
    + change (mem fr) with (mem (bind_reg fr (next_id fs3) (VBool false))).
      apply Rf; auto.
      * congruence.
      * simpl in Hfuel |- *. lia.
Qed.

Lemma decision_sound d l r :
  node_sound l -> node_sound r -> node_sound (Decision d l r).
Proof.
  intros IHl IHr. unfold node_sound. simpl.
  change (fun b : nat =>
            _gen_decision_node (fun b0 => gen_node b0 l) (fun b0 => gen_node b0 r)
              b d l r)
    with (fun b : nat =>
            gen_decision_node_fusing (is_leaf l && is_leaf r)
              (fun b' => gen_node b' l) (fun b' => gen_node b' r) b d l r).
  apply fusing_sound; auto.
Qed.

Theorem gen_node_sound n : node_sound n.
Proof.
  induction n as [leaf|d l IHl r IHr].
  - apply leaf_sound.
  - apply decision_sound; assumption.
Qed.

(** The un-fused form of a node is sound as well. *)
Lemma unfused_sound d l r :
  gen_sound (fun b => gen_decision_node_unfused b d l r) (Decision d l r).
Proof.
  unfold gen_decision_node_unfused.
  apply fusing_sound; auto using gen_node_sound. discriminate.
Qed.

Lemma gen_tree_sound tree f0 f' :
  blocks f0 = [] ->
  gen_tree tree f0 = OK (tt, f') ->
  fargs f' = fargs f0 /\
  forall exp lg m args fr y fuel,
    List.length args = List.length (fargs f0) ->
    predict args (Tree.root_node tree) = Some y ->
    (2 * height (Tree.root_node tree) <= fuel)%nat ->
    run_blocks exp lg m fuel f' 0 args fr = Some (Some (VDouble y), mem fr).
Proof.
  intros Hnil H. unfold gen_tree in H. minv.
  match goal with
  | E : append_basic_block _ _ = OK _ |- _ =>
      apply append_basic_block_inv in E; destruct E as (-> & A0 & B0 & N0)
  end.
  rewrite Hnil in *. simpl in *.
  match goal with
  | G : gen_node 0 _ ?s = OK _ |- _ =>
      assert (Hb : nth_error (blocks s) 0
                   = Some (mkBlock (Node_str (Tree.root_node tree)) [] None))
        by (rewrite B0; reflexivity);
      destruct (gen_node_sound (Tree.root_node tree) _ _ Hb G) as (Af & _ & _ & Rf)
  end.
  split; [congruence|].
  intros exp lg m args fr y fuel Hlen Hp Hfuel.
  apply Rf; auto. congruence.
Qed.

Lemma appended_ids f f' bb code :
  appended f f' bb code -> next_id f' = (next_id f + List.length code)%nat.
Proof. intros (_ & _ & _ & _ & N & _); exact N. Qed.

Lemma effective_default_left_if d :
  effective_default_left d
  = if MissingType_eqb (missing_type (decision_type d)) MNone
    then SFleb f64_zero (threshold d)
    else is_default_left (decision_type d).
Proof. unfold effective_default_left; destruct (missing_type _); reflexivity. Qed.

Lemma populate_numerical_shape bb d f comp f' :
  _populate_numerical_node_block bb d f = OK (comp, f') ->
  exists val,
    func_arg (split_feature d) f = OK (val, f) /\
    appended f f' bb
      (case_code (spec_numerical_case d) val
                 (Constant DOUBLE (PyFloat (threshold d))) (next_id f)) /\
    comp = case_result (spec_numerical_case d) (next_id f).
Proof.
  unfold _populate_numerical_node_block.
  intros H. apply bind_inv in H. destruct H as (val & f0 & Ha & H).
  apply func_arg_inv in Ha. destruct Ha as (-> & j & ty & Hj & Hty & ->).
  exists (Argument ty j). split.
  { unfold func_arg. rewrite Hj, Hty. reflexivity. }
  unfold spec_numerical_case, case_result. rewrite effective_default_left_if.
  set (mt := missing_type (decision_type d)) in *.
  destruct (if MissingType_eqb mt MNone then SFleb f64_zero (threshold d)
            else is_default_left (decision_type d));
    destruct (MissingType_eqb mt MZero) eqn:Emt; simpl in H |- *;
    try destruct (SFleb f64_zero (threshold d)) eqn:Et; simpl in H |- *;
    try destruct (SFltb (threshold d) f64_zero) eqn:Et'; simpl in H |- *;
    unfold_builder; minv; note_ids; chain;
    (split; [|f_equal; lia]);
    repeat match goal with
    | N : next_id ?s = _ |- _ => rewrite N in *; clear N
    end;
    rewrite ?Nat.add_1_r in *; assumption.
Qed.

(** C1.  For every numerical decision node the emitted branch condition is
    the one the spec's case table names: with default_left overridden to
    [0.0 <= threshold] under MNone, an unordered [<=] when default_left holds
    and (missing_type is not MZero or [0.0 <= threshold]), else
    [(v == 0.0) OR (v <= t)] unordered; an ordered [<=] when default_left
    fails and (missing_type is not MZero or [threshold < 0.0]), else
    [NOT ((v == 0.0) OR (v > t))] with ordered [>].  Each case is taken
    exactly under its condition, so the four are exclusive and exhaustive. *)
Theorem C1_numerical_case_table bb d f comp f' :
  _populate_numerical_node_block bb d f = OK (comp, f') ->
  let mt := missing_type (decision_type d) in
  let t := threshold d in
  let dl := effective_default_left d in
  (exists val,
      func_arg (split_feature d) f = OK (val, f) /\
      appended f f' bb
        (case_code (spec_numerical_case d) val (Constant DOUBLE (PyFloat t)) (next_id f)) /\
      comp = case_result (spec_numerical_case d) (next_id f)) /\
  (spec_numerical_case d = UnorderedLe <->
     dl = true /\ (mt <> MZero \/ SFleb f64_zero t = true)) /\
  (spec_numerical_case d = ZeroOrUnorderedLe <->
     dl = true /\ ~ (mt <> MZero \/ SFleb f64_zero t = true)) /\
  (spec_numerical_case d = OrderedLe <->
     dl = false /\ (mt <> MZero \/ SFltb t f64_zero = true)) /\
  (spec_numerical_case d = NotZeroOrOrderedGt <->
     dl = false /\ ~ (mt <> MZero \/ SFltb t f64_zero = true)).
Proof.
  intros H mt t dl. split; [apply populate_numerical_shape; exact H|].
  unfold spec_numerical_case. fold mt t dl.
  assert (Hmt : MissingType_eqb mt MZero = true <-> mt = MZero)
    by (destruct mt; simpl; split; congruence).
  destruct dl; destruct (MissingType_eqb mt MZero) eqn:Emt;
    destruct (SFleb f64_zero t); destruct (SFltb t f64_zero); simpl;
    intuition congruence.
Qed.

(** The node block of a categorical node: the unsigned range check and its
    two-way branch, to the bitset-compare block or to the right child. *)
Lemma categorical_entry fuse d l r f b name f' :
  (fuse = true -> is_leaf l && is_leaf r = true) ->
  is_categorical (decision_type d) = true ->
  nth_error (blocks f) b = Some (mkBlock name [] None) ->
  gen_decision_node_fusing fuse
    (fun b' => gen_node b' l) (fun b' => gen_node b' r) b d l r f = OK (tt, f') ->
  exists nid j ty cat cb rb,
    cat_threshold d = Some cat /\
    py_index (List.length (fargs f)) (split_feature d) = Some j /\
    cb <> rb /\
    nth_error (blocks f') b
    = Some (mkBlock name
              [(nid, Icmp false CmpLt (Argument ty j)
                       (iconst (32 * Z.of_nat (List.length cat))))]
              (Some (CBranch (InstrRef BOOL nid) cb rb))).
Proof.
  intros Hfuse Ecat Hb H.
  pose proof (nth_error_lt _ _ Hb) as Hblt.
  unfold gen_decision_node_fusing in H. rewrite Ecat in H.
  destruct fuse eqn:Efuse;
    [pose proof (Hfuse eq_refl) as Efused|clear Hfuse].
  - destruct l as [ll|]; [|discriminate Efused].
    destruct r as [lr|]; [|discriminate Efused].
    minv. cbn [fst snd leaf_value] in *. unfold_builder. minv.
    repeat match goal with
    | H : append_basic_block _ _ = OK _ |- _ =>
        apply append_basic_block_inv in H; destruct H as (-> & ? & ? & ?)
    end.
    match goal with
    | H : _populate_categorical_node_block _ _ _ _ _ _ = OK _ |- _ =>
        apply populate_categorical_spec in H;
        destruct H as (cat & j & ty & fa & fb & code & Hcat & Hj & Hicmp & Hbr0
                       & Hcode & Hbelow & Hsem)
    end.
    match type of Hj with
    | py_index (List.length (fargs ?s)) _ = _ => rename s into fs3
    end.
    match goal with
    | H : appended _ _ _ [(_, Select _ _ _)] |- _ =>
        pose proof (appended_trans Hcode H) as Hall; clear H
    end.
    match goal with
    | H : terminated _ _ _ (Ret _) |- _ => destruct H as (At & Lt & Ot & St & Nt)
    end.
    destruct Hicmp as (Ai & Li & Oi & Si & Ni & Ii).
    destruct Hbr0 as (Ab & Lb & Ob & Sb & Nb).
    destruct Hcode as (Ac & Lc & Oc & Sc & Nc & Ic).
    destruct Hall as (Aa & La & Oa & Sa & Na & Ia).
    repeat match goal with
    | H : blocks ?s = _ ++ _ |- _ => rewrite H in *; clear H
    end.
    rewrite ?length_app in *. cbn [List.length] in *.
    match goal with
    | H : gen_node _ (Leaf lr) _ = OK _ |- _ => rename H into Gr
    end.
    match type of Gr with gen_node _ _ ?s1 = _ =>
    assert (Hbr : nth_error (blocks s1) (List.length (blocks f))
                  = Some (mkBlock (Node_str (Leaf lr)) [] None));
    [ rewrite Ot, Oa, Ob, Oi by lia; apply nth_app2_0 |]
    end.
    destruct (gen_node_sound (Leaf lr) _ _ Hbr Gr) as (Af & Lf & Of & Rf).
    exists (next_id fs3), j, ty, cat, (List.length (blocks f) + 1)%nat,
           (List.length (blocks f)).
    repeat split; auto.
    + rewrite <- Hj. f_equal. f_equal. congruence.
    + lia.
    + rewrite Of, Ot, Oa by lia. erewrite Sb.
      2:{ apply Si. rewrite nth_error_app_keep2 by lia. exact Hb. }
      simpl. reflexivity.
  - minv. cbn [fst snd] in *. unfold_builder. minv.
    repeat match goal with
    | H : append_basic_block _ _ = OK _ |- _ =>
        apply append_basic_block_inv in H; destruct H as (-> & ? & ? & ?)
    end.
    match goal with
    | H : _populate_categorical_node_block _ _ _ _ _ _ = OK _ |- _ =>
        apply populate_categorical_spec in H;
        destruct H as (cat & j & ty & fa & fb & code & Hcat & Hj & Hicmp & Hbr0
                       & Hcode & Hbelow & Hsem)
    end.
    match type of Hj with
    | py_index (List.length (fargs ?s)) _ = _ => rename s into fs3
    end.
    match goal with
    | H : terminated _ ?s1 _ (CBranch _ (List.length (blocks f)) _) |- _ =>
        destruct H as (At & Lt & Ot & St & Nt)
    end.
    destruct Hicmp as (Ai & Li & Oi & Si & Ni & Ii).
    destruct Hbr0 as (Ab & Lb & Ob & Sb & Nb).
    destruct Hcode as (Ac & Lc & Oc & Sc & Nc & Ic).
    repeat match goal with
    | H : blocks ?s = _ ++ _ |- _ => rewrite H in *; clear H
    end.
    rewrite ?length_app in *. cbn [List.length] in *.
    match goal with
    | H : gen_node _ l ?s1 = OK (_, ?s2) |- _ => rename H into Gl
    end.
    match goal with
    | H : gen_node _ r _ = OK _ |- _ => rename H into Gr
    end.
    match type of Gl with gen_node _ _ ?s1 = _ =>
    assert (Hbl : nth_error (blocks s1) (List.length (blocks f))
                  = Some (mkBlock (Node_str l) [] None));
    [ rewrite Ot, Oc, Ob, Oi by lia;
      rewrite nth_app3_keep by lia; apply nth_app2_0 |];
    assert (Hbr : nth_error (blocks s1) (List.length (blocks f) + 1)
                  = Some (mkBlock (Node_str r) [] None));
    [ rewrite Ot, Oc, Ob, Oi by lia;
      rewrite nth_app3_keep by lia; apply nth_app2_1 |]
    end.
    assert (Hne : List.length (blocks f) <> (List.length (blocks f) + 1)%nat) by lia.
    destruct (@children_sound l r _ _ f' _ _ _ _ _
                (gen_node_sound l) (gen_node_sound r) Hne Hbl Hbr Gl Gr)
      as (Af & Lf & Of & Rf).
    exists (next_id fs3), j, ty, cat, (List.length (blocks f) + 1 + 1)%nat,
           (List.length (blocks f) + 1)%nat.
    repeat split; auto.
    + rewrite <- Hj. f_equal. f_equal. congruence.
    + lia.
    + rewrite Of, Ot, Oc by lia. erewrite Sb.
      2:{ apply Si. rewrite nth_app3_keep by lia.
          rewrite nth_error_app_keep2 by lia. exact Hb. }
      simpl. reflexivity.
Qed.

Lemma fptosi_nan x : f64_is_nan x = true -> fptosi x = INT_MIN.
Proof. destruct x; simpl; try discriminate; reflexivity. Qed.

Lemma in_bitset_range_small cat v :
  32 * Z.of_nat (List.length cat) < two32 ->
  in_bitset_range cat v = (to_unsigned v <? 32 * Z.of_nat (List.length cat)).
Proof.
  intros H. unfold in_bitset_range.
  rewrite (@to_unsigned_small (32 * Z.of_nat (List.length cat))); [reflexivity|lia].
Qed.

Lemma predict_categorical args d cat v l r :
  is_categorical (decision_type d) = true ->
  cat_threshold d = Some cat ->
  node_input args d = Some (VInt v) ->
  predict args (Decision d l r)
  = if categorical_decision cat v then predict args l else predict args r.
Proof.
  intros Ec Hc Hin. cbn [predict]. unfold goes_left. rewrite Ec, Hin, Hc.
  reflexivity.
Qed.

(** C3 (amended).  For a categorical decision node whose bitset [B] has
    [32 * |B| < 2^32] (the range constant is an i32): the node block is the
    unsigned comparison of the category with [32 * |B|], branching to the
    bitset-compare block or to the right child; a category whose unsigned
    value is below [32 * |B|] goes left iff bit [v mod 32] of word
    [B[v div 32]] is set; a category at or above [32 * |B|] continues at
    the right child straight from the node block; and a NaN, which [fptosi]
    turns into [INT_MIN], goes right provided [32 * |B| <= 2^31]. *)
Theorem C3_categorical_routing d cat l r f b name f' args v yl yr :
  is_categorical (decision_type d) = true ->
  cat_threshold d = Some cat ->
  32 * Z.of_nat (List.length cat) < two32 ->
  nth_error (blocks f) b = Some (mkBlock name [] None) ->
  gen_node b (Decision d l r) f = OK (tt, f') ->
  List.length args = List.length (fargs f) ->
  node_input args d = Some (VInt v) ->
  predict args l = Some yl ->
  predict args r = Some yr ->
  let u := to_unsigned v in
  let n := 32 * Z.of_nat (List.length cat) in
  (forall exp lg m fr fuel,
      (2 * height (Decision d l r) <= fuel)%nat ->
      u < n ->
      run_blocks exp lg m fuel f' b args fr
      = Some (Some (VDouble (if Z.testbit (nth (Z.to_nat (u / 32)) cat 0) (u mod 32)
                             then yl else yr)), mem fr)) /\
  (exists nid val cb rb,
      cb <> rb /\
      nth_error (blocks f') b
      = Some (mkBlock name [(nid, Icmp false CmpLt val (iconst n))]
                (Some (CBranch (InstrRef BOOL nid) cb rb))) /\
      forall exp lg m fr fuel,
        n <= u ->
        run_blocks exp lg m (S fuel) f' b args fr
        = run_blocks exp lg m fuel f' rb args (bind_reg fr nid (VBool false))) /\
  (forall exp lg m fr fuel,
      (2 * height (Decision d l r) <= fuel)%nat ->
      n <= u ->
      run_blocks exp lg m fuel f' b args fr = Some (Some (VDouble yr), mem fr)) /\
  (forall x, f64_is_nan x = true -> fptosi x = INT_MIN) /\
  (forall exp lg m fr fuel,
      (2 * height (Decision d l r) <= fuel)%nat ->
      n <= two31 ->
      v = INT_MIN ->
      run_blocks exp lg m fuel f' b args fr = Some (Some (VDouble yr), mem fr)).
Proof.
  intros Ecat Hcat Hsmall Hb Hgen Hlen Hin Hl Hr u n.
  pose proof (gen_node_sound (Decision d l r) _ _ Hb Hgen) as (_ & _ & _ & Hrun).
  pose proof (@predict_categorical args d cat v l r Ecat Hcat Hin) as Hp.
  unfold categorical_decision in Hp.
  rewrite (@in_bitset_range_small cat v Hsmall) in Hp. fold u n in Hp.
  assert (Hright : forall exp lg m fr fuel,
             (2 * height (Decision d l r) <= fuel)%nat ->
             n <= u ->
             run_blocks exp lg m fuel f' b args fr = Some (Some (VDouble yr), mem fr)).
  { intros exp lg m fr fuel Hf Hu. apply Hrun; auto.
    rewrite Hp. destruct (Z.ltb_spec u n); [lia|]. simpl. exact Hr. }
  split; [|split; [|split; [|split]]].
  - intros exp lg m fr fuel Hf Hu. apply Hrun; auto.
    rewrite Hp. destruct (Z.ltb_spec u n); [|lia]. simpl.
    unfold bitset_bit. fold u.
    destruct (Z.testbit _ _); assumption.
  - simpl in Hgen.
    change (_gen_decision_node (fun b0 => gen_node b0 l) (fun b0 => gen_node b0 r)
              b d l r f)
      with (gen_decision_node_fusing (is_leaf l && is_leaf r)
              (fun b' => gen_node b' l) (fun b' => gen_node b' r) b d l r f) in Hgen.
    destruct (@categorical_entry _ d l r f b name f' (fun e => e) Ecat Hb Hgen)
      as (nid & j & ty & cat' & cb & rb & Hcat' & Hj & Hne & Hblk).
    assert (cat' = cat) by congruence. subst cat'.
    exists nid, (Argument ty j), cb, rb. repeat split; auto.
    intros exp lg m fr fuel Hu.
    erewrite run_cbranch.
    2:{ exact Hblk. }
    2:{ apply exec_icmp_range. rewrite <- (@node_input_arg args d f j Hlen Hj). exact Hin. }
    2:{ simpl. apply set_reg_same. }
    rewrite (@in_bitset_range_small cat v Hsmall). fold u n.
    destruct (Z.ltb_spec u n); [lia|]. reflexivity.
  - exact Hright.
  - exact fptosi_nan.
  - intros exp lg m fr fuel Hf Hn Hv. apply Hright; auto.
    unfold u. rewrite Hv. change (to_unsigned INT_MIN) with two31. exact Hn.
Qed.

(** Block layout of a fused double leaf. *)
Lemma fused_numerical_layout d ll lr f b name f' :
  is_categorical (decision_type d) = false ->
  nth_error (blocks f) b = Some (mkBlock name [] None) ->
  gen_node b (Decision d (Leaf ll) (Leaf lr)) f = OK (tt, f') ->
  List.length (blocks f') = List.length (blocks f) /\
  exists code comp n,
    nth_error (blocks f') b
    = Some (mkBlock name
              (code ++ [(n, Select comp (dconst (value ll)) (dconst (value lr)))])
              (Some (Ret (InstrRef DOUBLE n)))).
Proof.
  intros Ecat Hb H. simpl in H. unfold _gen_decision_node in H.
  simpl in H. rewrite Ecat in H.
  minv. cbn [fst snd leaf_value] in *. unfold_builder. minv.
  match goal with
  | H : _populate_numerical_node_block _ _ _ = OK _ |- _ =>
      apply populate_numerical_spec in H;
      destruct H as (code & Hcode & Hbelow & Hsem)
  end.
  match goal with
  | H : appended _ _ b [_] |- _ =>
      pose proof (appended_trans Hcode H) as Hall; clear H
  end.
  match goal with
  | H : terminated _ _ b _ |- _ => destruct H as (At & Lt & Ot & St & Nt)
  end.
  destruct Hall as (Aa & La & Oa & Sa & Na & Ia).
  split; [congruence|].
  do 3 eexists. rewrite (St _ (Sa _ Hb)). simpl. reflexivity.
Qed.

Lemma fused_categorical_layout d ll lr f b name f' :
  is_categorical (decision_type d) = true ->
  nth_error (blocks f) b = Some (mkBlock name [] None) ->
  gen_node b (Decision d (Leaf ll) (Leaf lr)) f = OK (tt, f') ->
  List.length (blocks f') = (List.length (blocks f) + 2)%nat /\
  nth_error (blocks f') (List.length (blocks f))
  = Some (mkBlock (Node_str (Leaf lr)) [] (Some (Ret (dconst (value lr))))) /\
  exists cname code comp n,
    nth_error (blocks f') (List.length (blocks f) + 1)
    = Some (mkBlock cname
              (code ++ [(n, Select comp (dconst (value ll)) (dconst (value lr)))])
              (Some (Ret (InstrRef DOUBLE n)))).
Proof.
  intros Ecat Hb H. pose proof (nth_error_lt _ _ Hb) as Hblt.
  cbn [gen_node] in H. unfold _gen_decision_node in H.
  cbn [is_leaf andb] in H. rewrite Ecat in H.
  minv. cbn [fst snd leaf_value] in *. unfold_builder. minv.
  repeat match goal with
  | H : append_basic_block _ _ = OK _ |- _ =>
      apply append_basic_block_inv in H; destruct H as (-> & ? & ? & ?)
  end.
  match goal with
  | H : _populate_categorical_node_block _ _ _ _ _ _ = OK _ |- _ =>
      apply populate_categorical_spec in H;
      destruct H as (cat & j & ty & fa & fb & code & Hcat & Hj & Hicmp & Hbr0
                     & Hcode & Hbelow & Hsem)
  end.
  match goal with
  | H : appended _ _ _ [(_, Select _ _ _)] |- _ =>
      pose proof (appended_trans Hcode H) as Hall; clear H
  end.
  match goal with
  | H : terminated _ _ _ (Ret (InstrRef _ _)) |- _ =>
      destruct H as (At & Lt & Ot & St & Nt)
  end.
  match goal with
  | H : _gen_leaf_node _ _ _ = OK _ |- _ =>
      unfold _gen_leaf_node, builder_ret in H; apply terminate_inv in H;
      destruct H as (Ar & Lr & Or & Sr & Nr)
  end.
  destruct Hicmp as (Ai & Li & Oi & Si & Ni & Ii).
  destruct Hbr0 as (Ab & Lb & Ob & Sb & Nb).
  destruct Hcode as (Ac & Lc & Oc & Sc & Nc & Ic).
  destruct Hall as (Aa & La & Oa & Sa & Na & Ia).
  repeat match goal with
  | H : blocks ?s = _ ++ _ |- _ => rewrite H in *; clear H
  end.
  rewrite ?length_app in *. cbn [List.length] in *.
  split; [lia|]. split.
  - erewrite Sr.
    2:{ rewrite Ot, Oa, Ob, Oi by lia. apply nth_app2_0. }
    reflexivity.
  - do 4 eexists. rewrite Or by lia. erewrite St.
    2:{ apply Sa. rewrite Ob, Oi by lia. apply nth_app2_1. }
    simpl. reflexivity.
Qed.

(** C5.  A decision node whose two children are leaves is fused: a numerical
    one allocates no block at all and its node block ends with a [select] of
    the two leaf constants followed by [ret]; a categorical one allocates the
    right child's block (a plain [ret] of the right leaf) and the
    bitset-compare block, which ends with the fused [select] and [ret].  On
    every input of the kind the node compares, the fused code returns what
    the un-fused branching form returns. *)
Theorem C5_fused_double_leaf d ll lr f b name f' :
  nth_error (blocks f) b = Some (mkBlock name [] None) ->
  gen_node b (Decision d (Leaf ll) (Leaf lr)) f = OK (tt, f') ->
  (is_categorical (decision_type d) = false ->
   List.length (blocks f') = List.length (blocks f) /\
   exists code comp n,
     nth_error (blocks f') b
     = Some (mkBlock name
               (code ++ [(n, Select comp (dconst (value ll)) (dconst (value lr)))])
               (Some (Ret (InstrRef DOUBLE n))))) /\
  (is_categorical (decision_type d) = true ->
   List.length (blocks f') = (List.length (blocks f) + 2)%nat /\
   nth_error (blocks f') (List.length (blocks f))
   = Some (mkBlock (Node_str (Leaf lr)) [] (Some (Ret (dconst (value lr))))) /\
   exists cname code comp n,
     nth_error (blocks f') (List.length (blocks f) + 1)
     = Some (mkBlock cname
               (code ++ [(n, Select comp (dconst (value ll)) (dconst (value lr)))])
               (Some (Ret (InstrRef DOUBLE n))))) /\
  (forall fu,
      gen_decision_node_unfused b d (Leaf ll) (Leaf lr) f = OK (tt, fu) ->
      forall exp lg m args fr fuel g,
        List.length args = List.length (fargs f) ->
        goes_left args d = Some g ->
        (4 <= fuel)%nat ->
        run_blocks exp lg m fuel f' b args fr = run_blocks exp lg m fuel fu b args fr /\
        run_blocks exp lg m fuel f' b args fr
        = Some (Some (VDouble (if g then value ll else value lr)), mem fr)).
Proof.
  intros Hb Hgen. split; [|split].
  - intros Ecat. eapply fused_numerical_layout; eauto.
  - intros Ecat. eapply fused_categorical_layout; eauto.
  - intros fu Hu exp lg m args fr fuel g Hlen Hg Hfuel.
    assert (Hp : predict args (Decision d (Leaf ll) (Leaf lr))
                 = Some (if g then value ll else value lr)).
    { cbn [predict]. rewrite Hg. destruct g; reflexivity. }
    pose proof (gen_node_sound (Decision d (Leaf ll) (Leaf lr)) _ _ Hb Hgen)
      as (_ & _ & _ & Hrun).
    pose proof (@unfused_sound d (Leaf ll) (Leaf lr) f b fu name Hb Hu)
      as (_ & _ & _ & Hrunu).
    rewrite (Hrun exp lg m args fr _ fuel Hlen Hp) by (simpl; lia).
    rewrite (Hrunu exp lg m args fr _ fuel Hlen Hp) by (simpl; lia).
    split; reflexivity.
Qed.

Section Objective.

Variable py_float : string -> option f64.
Variables exp_f64 log_f64 : f64 -> f64.

Lemma declare_intrinsic_inv i s c s' :
  declare_intrinsic i s = OK (c, s') -> c = IntrinsicRef i /\ fst s' = fst s.
Proof. unfold declare_intrinsic; intros H; inversion H; subst; auto. Qed.

Lemma py_contains_empty needle : needle <> "" -> py_contains needle "" = false.
Proof. destruct needle; [congruence|reflexivity]. Qed.

Ltac oinv :=
  repeat match goal with
  | H : bind _ _ _ = OK _ |- _ =>
      let a := fresh "a" in
      let s := fresh "s" in
      let E := fresh "E" in
      apply bind_inv in H; destruct H as (a & s & E & H)
  | H : ret _ _ = OK _ |- _ => inversion H; subst; clear H
  | H : raise _ _ = OK _ |- _ => discriminate H
  | H : on_func _ _ = OK _ |- _ =>
      let D := fresh "D" in
      apply on_func_inv in H; destruct H as [H D]
  | H : emit _ _ _ _ = OK _ |- _ =>
      let A := fresh "Happ" in
      apply emit_inv in H; destruct H as [? A]; subst
  | H : declare_intrinsic _ _ = OK _ |- _ =>
      let D := fresh "D" in
      apply declare_intrinsic_inv in H; destruct H as [? D]; subst
  end.

Lemma eval_set_reg_below args e n id v x :
  value_below n x -> (n <= id)%nat ->
  eval_operand args (set_reg e id v) x = eval_operand args e x.
Proof.
  intros Hb Hle. destruct x; simpl in *; auto.
  apply set_reg_other. lia.
Qed.

Lemma populate_sigmoid_spec builder input alpha s res s' :
  _populate_sigmoid builder input (IntrinsicRef llvm_exp) alpha s = OK (res, s') ->
  value_below (next_id (fst s)) input ->
  SFleb alpha f64_zero = false /\
  exists code,
    appended (fst s) (fst s') builder code /\
    value_below (next_id (fst s')) res /\
    forall callf args fr x,
      eval_operand args (env fr) input = Some (VDouble x) ->
      exists fr',
        exec_instrs exp_f64 log_f64 callf args fr code = Some fr' /\
        mem fr' = mem fr /\ slots fr' = slots fr /\
        eval_operand args (env fr') res = Some (VDouble (sigmoid exp_f64 alpha x)).
Proof.
  unfold _populate_sigmoid. intros H Hbelow.
  destruct (SFleb alpha f64_zero); [discriminate H|]. split; [reflexivity|].
  unfold_builder. oinv. note_ids. chain.
  eexists; split; [eassumption|]. split; [simpl; lia|].
  intros callf args fr x Hin.
  eexists; split; [|split; [|split]].
  - simpl. unfold exec_instr. simpl. rewrite Hin. simpl.
    run_code. reflexivity.
  - reflexivity.
  - reflexivity.
  - run_code. reflexivity.
Qed.

(** What the emitted objective code computes. *)
Lemma populate_objective_spec builder input objective config s res s' :
  _populate_objective_func_block py_float builder input objective config s
  = OK (res, s') ->
  value_below (next_id (fst s)) input ->
  exists code,
    appended (fst s) (fst s') builder code /\
    value_below (next_id (fst s')) res /\
    forall callf args fr x,
      eval_operand args (env fr) input = Some (VDouble x) ->
      exists fr' y,
        exec_instrs exp_f64 log_f64 callf args fr code = Some fr' /\
        mem fr' = mem fr /\ slots fr' = slots fr /\
        spec_transform py_float exp_f64 log_f64 objective config x = Some y /\
        eval_operand args (env fr') res = Some (VDouble y).
Proof.
  unfold _populate_objective_func_block, spec_transform, binary_alpha.
  intros H Hbelow. oinv.
  repeat match goal with D : fst _ = fst _ |- _ => rewrite D in *; clear D end.
  destruct (String.eqb objective "binary").
  { destruct config as [cfg|]; [|discriminate H].
    destruct (nth_error (py_split ":" cfg) 1) as [a|]; [|discriminate H].
    destruct (py_float a) as [alpha|]; [|discriminate H].
    apply populate_sigmoid_spec in H; [|rewrite D; exact Hbelow].
    destruct H as (_ & code & Happ & Hres & Hsem).
    exists code. rewrite <- D. split; [exact Happ|]. split; [exact Hres|].
    intros callf args fr x Hin.
    destruct (Hsem callf args fr x Hin) as (fr' & Hx & Hm & Hs & Hr).
    exists fr', (sigmoid exp_f64 alpha x). auto. }
  rewrite <- D in Hbelow |- *. clear D.
  destruct (in_list objective ["xentropy"; "cross_entropy"]).
  { apply populate_sigmoid_spec in H; [|exact Hbelow].
    destruct H as (_ & code & Happ & Hres & Hsem).
    exists code. split; [exact Happ|]. split; [exact Hres|].
    intros callf args fr x Hin.
    destruct (Hsem callf args fr x Hin) as (fr' & Hx & Hm & Hs & Hr).
    exists fr', (sigmoid exp_f64 f64_one x). auto. }
  destruct (in_list objective ["xentlambda"; "cross_entropy_lambda"]).
  { unfold_builder. oinv. note_ids. chain.
    eexists; split; [eassumption|]. split; [simpl; lia|].
    intros callf args fr x Hin.
    do 2 eexists; split; [|split; [|split; [|split]]].
    - simpl. unfold exec_instr. simpl. rewrite Hin. simpl.
      run_code. reflexivity.
    - reflexivity.
    - reflexivity.
    - reflexivity.
    - run_code. reflexivity. }
  destruct (in_list objective ["poisson"; "gamma"; "tweedie"]).
  { unfold_builder. oinv. note_ids. chain.
    eexists; split; [eassumption|]. split; [simpl; lia|].
    intros callf args fr x Hin.
    do 2 eexists; split; [|split; [|split; [|split]]].
    - simpl. unfold exec_instr. simpl. rewrite Hin. simpl. reflexivity.
    - reflexivity.
    - reflexivity.
    - reflexivity.
    - run_code. reflexivity. }
  destruct (in_list objective
              ["regression"; "regression_l1"; "huber"; "fair"; "quantile"; "mape"]).
  { unfold config_has_sqrt.
    destruct config as [cfg|].
    2:{ inversion H; subst.
        exists []. split; [apply appended_nil|]. split; [exact Hbelow|].
        intros callf args fr x Hin. exists fr, x. simpl. auto. }
    destruct (String.eqb_spec cfg "") as [->|Hne]; simpl in H.
    { inversion H; subst.
      exists []. split; [apply appended_nil|]. split; [exact Hbelow|].
      intros callf args fr x Hin. exists fr, x. simpl. auto. }
    destruct (py_contains "sqrt" cfg).
    2:{ inversion H; subst.
        exists []. split; [apply appended_nil|]. split; [exact Hbelow|].
        intros callf args fr x Hin. exists fr, x. simpl. auto. }
    unfold_builder. oinv. note_ids. chain.
    eexists; split; [eassumption|]. split; [simpl; lia|].
    intros callf args fr x Hin.
    do 2 eexists; split; [|split; [|split; [|split]]].
    - simpl. unfold exec_instr. simpl. rewrite Hin. simpl.
      run_code.
      rewrite (eval_set_reg_below _ _ _ _ Hbelow (Nat.le_refl _)), Hin.
      simpl. reflexivity.
    - reflexivity.
    - reflexivity.
    - reflexivity.
    - run_code. reflexivity. }
  destruct (in_list objective ["lambdarank"; "rank_xendcg"; "custom"]);
    [|discriminate H].
  inversion H; subst.
  exists []. split; [apply appended_nil|]. split; [exact Hbelow|].
  intros callf args fr x Hin. exists fr, x. simpl. auto.
Qed.

Lemma populate_objective_result builder input objective config s :
  match _populate_objective_func_block py_float builder input objective config s with
  | Raise e => objective_error py_float objective config = Some e
  | OK _ => objective_error py_float objective config = None
  end.
Proof.
  unfold _populate_objective_func_block, objective_error, enumerated, in_list.
  cbn [existsb].
  unfold bind at 1 2 3. cbn [declare_intrinsic].
  match goal with
  | |- match _ ?st with OK _ => _ | Raise _ => _ end => generalize st; intros s3
  end.
  destruct (String.eqb objective "binary"); cbn [orb].
  { destruct config as [cfg|]; [|reflexivity].
    destruct (nth_error (py_split ":" cfg) 1) as [a|]; [|reflexivity].
    destruct (py_float a) as [alpha|]; [|reflexivity].
    unfold _populate_sigmoid.
    destruct (SFleb alpha f64_zero); reflexivity. }
  repeat match goal with
  | |- context [String.eqb objective ?t] =>
      destruct (String.eqb objective t); cbn [orb]; try reflexivity
  end.
  all: destruct config as [cfg|]; try reflexivity.
  all: destruct (negb (String.eqb cfg "") && py_contains "sqrt" cfg); reflexivity.
Qed.

End Objective.

(* ===================================================================== *)
(** * Validation of decision nodes *)
(* ===================================================================== *)

Lemma py_bool_float_zero x :
  py_bool_float x = false <-> exists s, x = S754_zero s.
Proof.
  unfold py_bool_float, SFeqb, f64_zero.
  destruct x as [s|s| |s m e]; simpl; split; intros H.
  - exists s; reflexivity.
  - reflexivity.
  - destruct s; discriminate H.
  - destruct H as [s' H]; discriminate H.
  - discriminate H.
  - destruct H as [s' H]; discriminate H.
  - destruct s; discriminate H.
  - destruct H as [s' H]; discriminate H.
Qed.

(** C9 (amended).  A non-categorical node passes [validate] exactly when its
    threshold is not a zero (Python's truth value of a float): both signed
    zeros are rejected with an assertion failure, every other float passes,
    the non-finite ones (NaN, infinities) included. *)
Theorem C9_validate_threshold d :
  is_categorical (decision_type d) = false ->
  (validate d = OK tt <-> forall s, threshold d <> S754_zero s) /\
  (validate d <> OK tt -> validate d = Raise AssertionError) /\
  (f64_is_finite (threshold d) = false -> validate d = OK tt).
Proof.
  intros Hc. unfold validate. rewrite Hc.
  destruct (py_bool_float (threshold d)) eqn:E.
  - repeat split; auto.
    + intros _ s Hs. rewrite Hs in E. discriminate E.
    + congruence.
  - apply py_bool_float_zero in E. destruct E as [s Hs].
    repeat split; auto.
    + discriminate.
    + intros H. exfalso. apply (H s). exact Hs.
    + rewrite Hs. simpl. discriminate.
Qed.

(** C9, counterexample to the claim as stated: a numerical node whose
    threshold is +infinity passes validation, and so does one whose
    threshold is NaN. *)
Lemma C9_counterexample :
  is_categorical (decision_type example_inf_node) = false /\
  validate example_inf_node = OK tt /\
  f64_is_finite (threshold example_inf_node) = false /\
  validate (mkDecisionNode 0 0 f64_nan (mkDecisionType false true MNaN) None) = OK tt.
Proof. repeat split. Qed.

Lemma C9_witness :
  is_categorical (decision_type example_inf_node) = false /\
  ((validate example_inf_node = OK tt <->
    forall s, threshold example_inf_node <> S754_zero s) /\
   (validate example_inf_node <> OK tt ->
    validate example_inf_node = Raise AssertionError) /\
   (f64_is_finite (threshold example_inf_node) = false ->
    validate example_inf_node = OK tt)).
Proof.
  split; [reflexivity|]. apply (C9_validate_threshold example_inf_node). reflexivity.
Defined.

(* ===================================================================== *)
(** * Independence of the class structure *)
(* ===================================================================== *)




(* ===================================================================== *)
(** * The module [gen_forest] builds *)
(* ===================================================================== *)

Lemma update_nth_app_last {A} (l : list A) x g :
  update_nth (l ++ [x]) (List.length l) g = l ++ [g x].
Proof. induction l as [|y l IH]; simpl; [reflexivity|]. rewrite IH; reflexivity. Qed.

Lemma ir_Function_inv ret_ty arg_tys name m pos m1 :
  ir_Function ret_ty arg_tys name m = OK (pos, m1) ->
  pos = List.length (functions m) /\
  functions m1 = functions m ++ [mkFunction name ret_ty arg_tys [] 0] /\
  intrinsics m1 = intrinsics m.
Proof.
  unfold ir_Function. destruct (existsb _ _); [discriminate|].
  intros H; inversion H; subst; simpl; auto.
Qed.

Lemma make_tree_spec tree m c m1 :
  make_tree tree m = OK (c, m1) ->
  c = FuncRef (List.length (functions m)) DOUBLE /\
  intrinsics m1 = intrinsics m /\
  exists ft, functions m1 = functions m ++ [ft] /\ tree_fn_ok ft tree.
Proof.
  unfold make_tree. intros H.
  apply bind_inv in H. destruct H as (pos & m0 & Hf & H).
  apply ir_Function_inv in Hf. destruct Hf as (-> & Hfs & Hi).
  apply bind_inv in H. destruct H as (u & m2 & Hin & H).
  inversion H; subst; clear H.
  unfold in_function in Hin. rewrite Hfs, nth_error_app_last in Hin.
  unfold on_func in Hin. cbn [fst snd] in Hin.
  destruct (gen_tree tree _) as [[[] ft]|e] eqn:G; [|discriminate Hin].
  inversion Hin; subst; clear Hin.
  cbn [functions intrinsics]. rewrite update_nth_app_last.
  repeat split; auto.
  exists ft. split; [reflexivity|].
  apply gen_tree_sound in G; [|reflexivity].
  destruct G as (Ha & Hrun). simpl in Ha.
  intros exp lg m' args fr y fuel Hlen Hp Hfuel.
  apply Hrun; auto. simpl. rewrite length_map. exact Hlen.
Qed.

Lemma mapM_make_tree_spec trees : forall m cs m1,
  mapM make_tree trees m = OK (cs, m1) ->
  intrinsics m1 = intrinsics m /\
  cs = map (fun i => FuncRef (List.length (functions m) + i) DOUBLE)
           (seq 0 (List.length trees)) /\
  exists fts, functions m1 = functions m ++ fts /\ Forall2 tree_fn_ok fts trees.
Proof.
  induction trees as [|t trees IH]; intros m cs m1 H; simpl in H.
  - inversion H; subst. repeat split; auto. exists []. rewrite app_nil_r. auto.
  - apply bind_inv in H. destruct H as (c & m0 & Ht & H).
    apply bind_inv in H. destruct H as (cs' & m2 & Hts & H).
    inversion H; subst; clear H.
    apply make_tree_spec in Ht. destruct Ht as (-> & Hi & ft & Hfs & Hok).
    apply IH in Hts. destruct Hts as (Hi' & -> & fts & Hfs' & Hoks).
    repeat split.
    + congruence.
    + simpl. f_equal; [f_equal; lia|].
      rewrite <- seq_shift, map_map. apply map_ext. intros i.
      rewrite Hfs, length_app. simpl. f_equal. lia.
    + exists (ft :: fts). split; [|constructor; auto].
      rewrite Hfs', Hfs, <- app_assoc. reflexivity.
Qed.

(* ===================================================================== *)
(** * What [forest_root] computes *)
(* ===================================================================== *)

Ltac finv :=
  repeat match goal with
  | H : bind _ _ _ = OK _ |- _ =>
      let a := fresh "a" in
      let s := fresh "s" in
      let E := fresh "E" in
      apply bind_inv in H; destruct H as (a & s & E & H)
  | H : ret _ _ = OK _ |- _ => inversion H; subst; clear H
  | H : raise _ _ = OK _ |- _ => discriminate H
  | H : on_func _ _ = OK _ |- _ =>
      let D := fresh "D" in
      apply on_func_inv in H; destruct H as [H D]
  | H : emit _ _ _ _ = OK _ |- _ =>
      let A := fresh "Happ" in
      apply emit_inv in H; destruct H as [? A]; subst
  end.

Lemma value_below_mono n n' v : value_below n v -> (n <= n')%nat -> value_below n' v.
Proof. destruct v; simpl; auto. intros; lia. Qed.

(** Code numbered from [n] on leaves the values built before [n] alone. *)
Lemma exec_stable exp lg callf args fr code fr' n v :
  exec_instrs exp lg callf args fr code = Some fr' ->
  Forall (fun ii => (n <= fst ii)%nat) code ->
  value_below n v ->
  eval_operand args (env fr') v = eval_operand args (env fr) v.
Proof.
  intros Hx Hall Hv. apply eval_operand_stable with (n := n); auto.
  intros id Hid. eapply exec_instrs_regs; eauto.
Qed.

Lemma exec_stable_list exp lg callf args fr code fr' n vs :
  exec_instrs exp lg callf args fr code = Some fr' ->
  Forall (fun ii => (n <= fst ii)%nat) code ->
  Forall (value_below n) vs ->
  eval_operands args (env fr') vs = eval_operands args (env fr) vs.
Proof.
  intros Hx Hall Hvs. induction Hvs as [|v vs Hv Hvs IH]; simpl; auto.
  rewrite IH, (@exec_stable _ _ _ _ _ _ _ _ _ Hx Hall Hv). reflexivity.
Qed.

Lemma appended_code_ids f f' bb code :
  appended f f' bb code -> Forall (fun ii => (next_id f <= fst ii)%nat) code.
Proof. intros (_ & _ & _ & _ & _ & I); exact I. Qed.

Lemma appended_mono f f' bb code :
  appended f f' bb code -> (next_id f <= next_id f')%nat.
Proof. intros (_ & _ & _ & _ & N & _); lia. Qed.

(** The pointers to the features of the current row. *)
Lemma raw_ptrs_spec builder iter_mul data_arr ks : forall s ptrs s',
  mapM (fun i : nat =>
          (c <- on_func (add builder iter_mul (iconst (Z.of_nat i))) ;;
           on_func (gep builder data_arr c))%monad) ks s = OK (ptrs, s') ->
  value_below (next_id (fst s)) iter_mul ->
  value_below (next_id (fst s)) data_arr ->
  exists code,
    appended (fst s) (fst s') builder code /\
    snd s' = snd s /\
    Forall (value_below (next_id (fst s'))) ptrs /\
    forall exp lg callf args fr base db doff,
      eval_operand args (env fr) iter_mul = Some (VInt base) ->
      eval_operand args (env fr) data_arr = Some (VPtr db doff) ->
      exists fr',
        exec_instrs exp lg callf args fr code = Some fr' /\
        mem fr' = mem fr /\ slots fr' = slots fr /\
        eval_operands args (env fr') ptrs
        = Some (map (fun k => VPtr db (doff + wrap32 (base + wrap32 (Z.of_nat k)))) ks).
Proof.
  induction ks as [|k ks IH]; intros s ptrs s' H Hm Hd; simpl in H.
  - inversion H; subst. exists []. split; [apply appended_nil|].
    repeat split; auto. intros. exists fr. simpl. auto.
  - apply bind_inv in H. destruct H as (p & s1 & Hp & H).
    apply bind_inv in H. destruct H as (ps & s2 & Hps & H).
    inversion H; subst; clear H.
    unfold_builder. finv. note_ids.
    pose proof (appended_trans Happ0 Happ) as Hhead. simpl in Hhead.
    assert (Hn1 : (next_id (fst s) <= next_id (fst s1))%nat) by lia.
    apply IH in Hps;
      [|eapply value_below_mono; eauto|eapply value_below_mono; eauto].
    destruct Hps as (code & Hcode & Hsnd & Hbelow & Hsem).
    eexists. split; [exact (appended_trans Hhead Hcode)|].
    split; [congruence|]. split.
    { constructor; auto. simpl.
      pose proof (appended_mono Hcode). lia. }
    intros exp lg callf args fr base db doff Hb Hp.
    rewrite exec_instrs_app.
    assert (Hx1 : exec_instrs exp lg callf args fr
                    [(next_id (fst s), Add iter_mul (iconst (Z.of_nat k)));
                     (next_id (fst s0),
                      Gep data_arr (InstrRef (type_of iter_mul) (next_id (fst s))))]
                  = Some (bind_reg
                            (bind_reg fr (next_id (fst s))
                               (VInt (wrap32 (base + wrap32 (Z.of_nat k)))))
                            (next_id (fst s0))
                            (VPtr db (doff + wrap32 (base + wrap32 (Z.of_nat k)))))).
    { simpl. unfold exec_instr. simpl. rewrite Hb. simpl.
      rewrite (@eval_set_reg_below _ _ _ _ _ _ Hd (Nat.le_refl _)), Hp.
      rewrite set_reg_same. reflexivity. }
    rewrite Hx1.
    pose proof (appended_code_ids Hhead) as Hids.
    edestruct Hsem as (fr' & Hx & Hmem & Hsl & Hev).
    { rewrite (@exec_stable _ _ _ _ _ _ _ _ _ Hx1 Hids Hm). exact Hb. }
    { rewrite (@exec_stable _ _ _ _ _ _ _ _ _ Hx1 Hids Hd). exact Hp. }
    exists fr'. split; [exact Hx|]. split; [rewrite Hmem; reflexivity|].
    split; [rewrite Hsl; reflexivity|].
    simpl. rewrite Hev.
    assert (Hv : value_below (next_id (fst s1)) (InstrRef (type_of data_arr) (next_id (fst s0))))
      by (simpl; lia).
    pose proof (@exec_stable _ _ _ _ _ _ _ _ _ Hx (appended_code_ids Hcode) Hv) as Hst.
    simpl in Hst. rewrite Hst. simpl. rewrite set_reg_same. reflexivity.
Qed.

(** The loads, and the casts of the categorical features. *)
Lemma load_args_spec builder fps : forall s vals s',
  mapM (fun fp : Feature.t * ir_value =>
          (el <- on_func (load builder (snd fp)) ;;
           if Feature.is_categorical (fst fp)
           then on_func (builder_fptosi builder el INT_CAT)
           else ret el)%monad) fps s = OK (vals, s') ->
  Forall (fun fp => value_below (next_id (fst s)) (snd fp)) fps ->
  exists code,
    appended (fst s) (fst s') builder code /\
    snd s' = snd s /\
    Forall (value_below (next_id (fst s'))) vals /\
    forall exp lg callf args fr db offs,
      eval_operands args (env fr) (map snd fps) = Some (map (VPtr db) offs) ->
      exists fr',
        exec_instrs exp lg callf args fr code = Some fr' /\
        mem fr' = mem fr /\ slots fr' = slots fr /\
        eval_operands args (env fr') vals
        = Some (map (fun fo : Feature.t * Z => load_arg (fst fo) (mem fr db (snd fo)))
                    (combine (map fst fps) offs)).
Proof.
  induction fps as [|[feat p] fps IH]; intros s vals s' H Hb; simpl in H.
  - inversion H; subst. exists []. split; [apply appended_nil|].
    repeat split; auto. intros. exists fr. simpl. auto.
  - inversion Hb as [|? ? Hp Hps]; subst. simpl in Hp.
    apply bind_inv in H. destruct H as (v & s1 & Hv & H).
    apply bind_inv in H. destruct H as (vs & s2 & Hvs & H).
    inversion H; subst; clear H.
    apply bind_inv in Hv. destruct Hv as (el & s0 & Hel & Hv).
    unfold load in Hel. apply on_func_inv in Hel. destruct Hel as [Hel D0].
    apply emit_inv in Hel. destruct Hel as [-> Hload].
    cbn [fst snd] in Hv.
    assert (Hhead : exists chead,
               appended (fst s) (fst s1) builder
                 ((next_id (fst s), Load p) :: chead) /\
               snd s1 = snd s /\
               value_below (next_id (fst s1)) v /\
               forall exp lg callf args fr db o,
                 eval_operand args (env fr) p = Some (VPtr db o) ->
                 exists fr1,
                   exec_instrs exp lg callf args fr
                     ((next_id (fst s), Load p) :: chead) = Some fr1 /\
                   mem fr1 = mem fr /\ slots fr1 = slots fr /\
                   eval_operand args (env fr1) v
                   = Some (load_arg feat (mem fr db o))).
    { unfold load_arg. destruct (Feature.is_categorical feat).
      - unfold builder_fptosi in Hv. apply on_func_inv in Hv. destruct Hv as [Hv D1].
        apply emit_inv in Hv. destruct Hv as [-> Hcast].
        pose proof (appended_trans Hload Hcast) as Hh. simpl in Hh.
        pose proof (appended_ids Hload) as N0. pose proof (appended_ids Hcast) as N1.
        simpl in N0, N1.
        eexists. split; [exact Hh|]. split; [congruence|]. split; [simpl; lia|].
        intros exp lg callf args fr db o Hev.
        eexists. split; [|split; [|split]].
        + simpl. unfold exec_instr. simpl. rewrite Hev. simpl.
          rewrite set_reg_same. reflexivity.
        + reflexivity.
        + reflexivity.
        + simpl. rewrite set_reg_same. reflexivity.
      - inversion Hv; subst.
        pose proof (appended_ids Hload) as N0. simpl in N0.
        exists []. split; [exact Hload|]. split; [congruence|]. split; [simpl; lia|].
        intros exp lg callf args fr db o Hev.
        eexists. split; [|split; [|split]].
        + simpl. unfold exec_instr. simpl. rewrite Hev. reflexivity.
        + reflexivity.
        + reflexivity.
        + simpl. rewrite set_reg_same. reflexivity. }
    destruct Hhead as (chead & Hh & Hs1 & Hvb & Hsemh).
    pose proof (appended_mono Hh) as Hmono.
    apply IH in Hvs.
    2:{ eapply Forall_impl; [|exact Hps]. intros fp Hfp. simpl in Hfp.
        eapply value_below_mono; [exact Hfp|lia]. }
    destruct Hvs as (code & Hcode & Hsnd & Hbelow & Hsem).
    eexists. split; [exact (appended_trans Hh Hcode)|].
    split; [congruence|]. split.
    { constructor; auto. eapply value_below_mono; [exact Hvb|].
      apply (appended_mono Hcode). }
    intros exp lg callf args fr db offs Hev. simpl in Hev.
    destruct (eval_operand args (env fr) p) as [pv|] eqn:Ep; [|discriminate Hev].
    destruct (eval_operands args (env fr) (map snd fps)) as [pvs|] eqn:Eps;
      [|discriminate Hev].
    destruct offs as [|o offs]; [discriminate Hev|].
    simpl in Hev. inversion Hev; subst; clear Hev.
    destruct (Hsemh exp lg callf args fr db o Ep) as (fr1 & Hx1 & Hm1 & Hsl1 & Hv1).
    edestruct (Hsem exp lg callf args fr1 db offs) as (fr' & Hx & Hm' & Hsl' & Hv').
    { rewrite (@exec_stable_list _ _ _ _ _ _ _ (next_id (fst s)) _ Hx1
                 (appended_code_ids Hh)); [exact Eps|].
      clear - Hps. induction Hps; simpl; constructor; auto. }
    exists fr'. rewrite exec_instrs_app, Hx1.
    split; [exact Hx|]. split; [congruence|]. split; [congruence|].
    simpl. rewrite Hv'.
    rewrite (@exec_stable _ _ _ _ _ _ _ _ _ Hx (appended_code_ids Hcode) Hvb), Hv1.
    rewrite Hm1. reflexivity.
Qed.

(** The remaining trees: call, then [fadd tree_res res]. *)
Lemma tree_calls_spec builder argvals rest : forall s res0 res s',
  foldM (fun res func =>
           (tree_res <- on_func (call builder func argvals) ;;
            on_func (fadd builder tree_res res))%monad) rest res0 s = OK (res, s') ->
  value_below (next_id (fst s)) res0 ->
  Forall (value_below (next_id (fst s))) argvals ->
  exists code,
    appended (fst s) (fst s') builder code /\
    snd s' = snd s /\
    value_below (next_id (fst s')) res /\
    forall exp lg callf args fr argv ys y0,
      eval_operands args (env fr) argvals = Some argv ->
      eval_operand args (env fr) res0 = Some (VDouble y0) ->
      Forall2 (fun c y => exists pos, c = FuncRef pos DOUBLE /\
                 forall h, callf pos argv h = Some (Some (VDouble y), h)) rest ys ->
      exists fr',
        exec_instrs exp lg callf args fr code = Some fr' /\
        mem fr' = mem fr /\ slots fr' = slots fr /\
        eval_operand args (env fr') res
        = Some (VDouble (fold_left (fun r t => f64_add t r) ys y0)).
Proof.
  induction rest as [|c rest IH]; intros s res0 res s' H Hr Ha; simpl in H.
  - inversion H; subst. exists []. split; [apply appended_nil|].
    repeat split; auto. intros exp lg callf args fr argv ys y0 Hargs Hev Hall.
    inversion Hall; subst. exists fr. simpl. auto.
  - apply bind_inv in H. destruct H as (r1 & s1 & Hstep & H).
    unfold_builder. finv. note_ids.
    pose proof (appended_trans Happ0 Happ) as Hhead. simpl in Hhead.
    pose proof (appended_mono Hhead) as Hmono.
    apply IH in H; [|simpl; lia|].
    2:{ eapply Forall_impl; [|exact Ha]. intros v Hv.
        eapply value_below_mono; [exact Hv|lia]. }
    destruct H as (code & Hcode & Hsnd & Hbelow & Hsem).
    eexists. split; [exact (appended_trans Hhead Hcode)|].
    split; [congruence|]. split; [exact Hbelow|].
    intros exp lg callf args fr argv ys y0 Hargs Hev Hall.
    inversion Hall as [|? y ? ys' (pos & -> & Hcall) Hall']; subst.
    rewrite exec_instrs_app.
    assert (Hx1 : exec_instrs exp lg callf args fr
                    [(next_id (fst s), Call (FuncRef pos DOUBLE) argvals);
                     (next_id (fst s0),
                      Fadd (InstrRef (callee_ret (FuncRef pos DOUBLE)) (next_id (fst s)))
                           res0)]
                  = Some (bind_reg
                            (mkFrame (set_reg (env fr) (next_id (fst s)) (VDouble y))
                                     (slots fr) (mem fr))
                            (next_id (fst s0)) (VDouble (f64_add y y0)))).
    { simpl. unfold exec_instr. simpl. rewrite Hargs, Hcall. simpl.
      rewrite set_reg_same.
      rewrite (@eval_set_reg_below _ _ _ _ _ _ Hr (Nat.le_refl _)), Hev.
      reflexivity. }
    rewrite Hx1.
    edestruct (Hsem exp lg callf args) as (fr' & Hx & Hm' & Hsl' & Hv').
    { rewrite (@exec_stable_list _ _ _ _ _ _ _ _ _ Hx1
                 (appended_code_ids Hhead) Ha). exact Hargs. }
    { simpl. rewrite set_reg_same. reflexivity. }
    { exact Hall'. }
    exists fr'. split; [exact Hx|]. split; [exact Hm'|]. split; [exact Hsl'|].
    simpl. exact Hv'.
Qed.

Lemma eval_operands_length args e vs rs :
  eval_operands args e vs = Some rs -> List.length rs = List.length vs.
Proof.
  revert rs; induction vs as [|v vs IH]; intros rs H; simpl in H.
  - inversion H; reflexivity.
  - destruct (eval_operand args e v); [|discriminate].
    destruct (eval_operands args e vs); [|discriminate].
    inversion H; subst; simpl. f_equal; auto.
Qed.

Lemma map_snd_combine {A B} (l : list A) (l' : list B) :
  List.length l = List.length l' -> map snd (combine l l') = l'.
Proof.
  revert l'; induction l as [|a l IH]; intros [|b l'] H; simpl in *;
    try discriminate; auto. f_equal; auto.
Qed.

Lemma map_fst_combine {A B} (l : list A) (l' : list B) :
  List.length l = List.length l' -> map fst (combine l l') = l.
Proof.
  revert l'; induction l as [|a l IH]; intros [|b l'] H; simpl in *;
    try discriminate; auto. f_equal; auto.
Qed.

Lemma map_combine_map {A B C D} (g : B -> C) (f : A * C -> D) (l : list A) (l' : list B) :
  map f (combine l (map g l')) = map (fun p => f (fst p, g (snd p))) (combine l l').
Proof.
  revert l'; induction l as [|a l IH]; intros [|b l']; simpl; auto.
  f_equal; auto.
Qed.

Lemma exec_trans exp lg callf args fr c1 fr1 c2 fr2 :
  exec_instrs exp lg callf args fr c1 = Some fr1 ->
  exec_instrs exp lg callf args fr1 c2 = Some fr2 ->
  exec_instrs exp lg callf args fr (c1 ++ c2) = Some fr2.
Proof. intros H1 H2. rewrite exec_instrs_app, H1. exact H2. Qed.

Section CoreBlock.

Variable py_float : string -> option f64.
Variables exp_f64 log_f64 : f64 -> f64.

Lemma core_body_spec forest tree_funcs builder data_arr out_arr loop_iter cb tb s s' :
  core_body py_float forest tree_funcs builder data_arr out_arr loop_iter cb tb s
  = OK (tt, s') ->
  value_below (next_id (fst s)) data_arr ->
  value_below (next_id (fst s)) out_arr ->
  value_below (next_id (fst s)) loop_iter ->
  exists code fa fb,
    appended (fst s) fa builder code /\
    terminated fa fb builder (Branch cb) /\
    terminated fb (fst s') tb RetVoid /\
    forall callf args fr db doff ob ooff sl i ys x,
      eval_operand args (env fr) data_arr = Some (VPtr db doff) ->
      eval_operand args (env fr) out_arr = Some (VPtr ob ooff) ->
      eval_operand args (env fr) loop_iter = Some (VSlot sl) ->
      nth_error (slots fr) sl = Some i ->
      calls_return callf (row_args (Forest.features forest) (mem fr) db doff i)
                   tree_funcs ys ->
      tree_sum ys = Some x ->
      exists fr' y,
        exec_instrs exp_f64 log_f64 callf args fr code = Some fr' /\
        spec_transform py_float exp_f64 log_f64 (Forest.objective_func forest)
          (Forest.objective_func_config forest) x = Some y /\
        mem fr' = heap_store (mem fr) ob (ooff + i) y /\
        slots fr' = update_nth (slots fr) sl (fun _ => wrap32 (i + 1)) /\
        (forall id, (id < next_id (fst s))%nat -> env fr' id = env fr id).
Proof.
  unfold core_body. intros H Hd Ho Hl.
  apply bind_inv in H. destruct H as (lir & s1 & E1 & H).
  apply bind_inv in H. destruct H as (imn & s2 & E2 & H).
  apply bind_inv in H. destruct H as (raw_ptrs & s3 & E3 & H).
  apply bind_inv in H. destruct H as (argvals & s4 & E4 & H).
  destruct tree_funcs as [|tf0 rest]; [discriminate H|].
  apply bind_inv in H. destruct H as (res0 & s5 & E5 & H).
  apply bind_inv in H. destruct H as (res1 & s6 & E6 & H).
  apply bind_inv in H. destruct H as (ptr & s7 & E7 & H).
  apply bind_inv in H. destruct H as (res2 & s8 & E8 & H).
  apply bind_inv in H. destruct H as (u9 & s9 & E9 & H).
  apply bind_inv in H. destruct H as (tmpp1 & s10 & E10 & H).
  apply bind_inv in H. destruct H as (u11 & s11 & E11 & H).
  apply bind_inv in H. destruct H as (u12 & s12 & E12 & H).
  unfold_builder.
  apply on_func_inv in E1. destruct E1 as [E1 D1].
  apply emit_inv in E1. destruct E1 as [-> A1].
  apply on_func_inv in E2. destruct E2 as [E2 D2].
  apply emit_inv in E2. destruct E2 as [-> A2].
  apply on_func_inv in E5. destruct E5 as [E5 D5].
  apply emit_inv in E5. destruct E5 as [-> A5].
  apply on_func_inv in E7. destruct E7 as [E7 D7].
  apply emit_inv in E7. destruct E7 as [-> A7].
  apply on_func_inv in E9. destruct E9 as [E9 D9].
  apply emit_inv in E9. destruct E9 as [_ A9].
  apply on_func_inv in E10. destruct E10 as [E10 D10].
  apply emit_inv in E10. destruct E10 as [-> A10].
  apply on_func_inv in E11. destruct E11 as [E11 D11].
  apply emit_inv in E11. destruct E11 as [_ A11].
  apply on_func_inv in E12. destruct E12 as [E12 D12].
  apply terminate_inv in E12.
  apply on_func_inv in H. destruct H as [H D13].
  apply terminate_inv in H.
  pose proof (appended_mono A1) as M1. pose proof (appended_mono A2) as M2.
  pose proof (appended_ids A1) as N1. simpl in N1.
  pose proof (appended_ids A2) as N2. simpl in N2.
  apply raw_ptrs_spec in E3; [|simpl; lia|eapply value_below_mono; [exact Hd|lia]].
  destruct E3 as (c3 & A3 & D3 & B3 & S3).
  pose proof (appended_mono A3) as M3.
  apply load_args_spec in E4.
  2:{ clear - B3. revert B3. generalize (Forest.features forest).
      induction raw_ptrs as [|p ps IH]; intros [|ft fts] B; simpl; constructor;
        inversion B; subst; auto. }
  destruct E4 as (c4 & A4 & D4 & B4 & S4).
  pose proof (appended_mono A4) as M4.
  pose proof (appended_mono A5) as M5. pose proof (appended_ids A5) as N5. simpl in N5.
  apply tree_calls_spec in E6; [|simpl; lia|].
  2:{ eapply Forall_impl; [|exact B4]. intros v Hv.
      eapply value_below_mono; [exact Hv|lia]. }
  destruct E6 as (c6 & A6 & D6 & B6 & S6).
  pose proof (appended_mono A6) as M6.
  pose proof (appended_mono A7) as M7. pose proof (appended_ids A7) as N7. simpl in N7.
  apply populate_objective_spec with (exp_f64 := exp_f64) (log_f64 := log_f64) in E8;
    [|eapply value_below_mono; [exact B6|lia]].
  destruct E8 as (c8 & A8 & B8 & S8).
  pose proof (appended_mono A8) as M8.
  pose proof (appended_mono A9) as M9. pose proof (appended_ids A9) as N9. simpl in N9.
  pose proof (appended_mono A10) as M10. pose proof (appended_ids A10) as N10.
  simpl in N10.
  pose proof (appended_trans A1
               (appended_trans A2
                 (appended_trans A3
                   (appended_trans A4
                     (appended_trans A5
                       (appended_trans A6
                         (appended_trans A7
                           (appended_trans A8
                             (appended_trans A9
                               (appended_trans A10 A11)))))))))) as Hall.
  eexists. exists (fst s11), (fst s12).
  split; [exact Hall|]. split; [exact E12|]. split; [exact H|].
  intros callf args fr db doff ob ooff sl i ys x Hed Heo Hel Hsl Hcalls Hsum.
  set (n := Forest.n_args forest) in *.
  set (base := wrap32 (i * wrap32 (Z.of_nat n))).
  (* load of the counter, row base *)
  assert (X2 : exists fr2,
             exec_instrs exp_f64 log_f64 callf args fr
               [(next_id (fst s), Load loop_iter);
                (next_id (fst s1),
                 Mul (InstrRef (pointee_of (type_of loop_iter)) (next_id (fst s)))
                     (Constant INT (PyInt (Z.of_nat n))))] = Some fr2 /\
             mem fr2 = mem fr /\ slots fr2 = slots fr /\
             env fr2 (next_id (fst s)) = Some (VInt i) /\
             env fr2 (next_id (fst s1)) = Some (VInt base)).
  { eexists. split; [|split; [|split; [|split]]].
    - simpl. unfold exec_instr. simpl. rewrite Hel, Hsl. simpl.
      rewrite set_reg_same. simpl. reflexivity.
    - reflexivity.
    - reflexivity.
    - simpl. rewrite set_reg_other by lia. apply set_reg_same.
    - simpl. apply set_reg_same. }
  destruct X2 as (fr2 & X2 & Hm2 & Hs2 & Hi2 & Hb2).
  pose proof (appended_trans A1 A2) as A12. simpl in A12.
  assert (G2 : forall id, (id < next_id (fst s))%nat -> env fr2 id = env fr id).
  { intros id Hid. eapply exec_instrs_regs; [exact X2|exact (appended_code_ids A12)|exact Hid]. }
  (* pointers to the features *)
  destruct (S3 exp_f64 log_f64 callf args fr2 base db doff) as (fr3 & X3 & Hm3 & Hs3 & Hp3).
  { simpl. exact Hb2. }
  { rewrite (eval_operand_stable args _ _ _ G2 Hd). exact Hed. }
  assert (G3 : forall id, (id < next_id (fst s2))%nat -> env fr3 id = env fr2 id).
  { intros id Hid. eapply exec_instrs_regs; [exact X3|exact (appended_code_ids A3)|exact Hid]. }
  pose proof (eval_operands_length _ _ _ Hp3) as Hlen3.
  rewrite length_map, length_seq in Hlen3.
  (* loads and casts *)
  destruct (S4 exp_f64 log_f64 callf args fr3 db
              (map (fun k => doff + wrap32 (base + wrap32 (Z.of_nat k))) (seq 0 n)))
    as (fr4 & X4 & Hm4 & Hs4 & Ha4).
  { rewrite map_snd_combine by (exact Hlen3).
    rewrite Hp3, map_map. reflexivity. }
  rewrite map_fst_combine in Ha4 by (exact Hlen3).
  assert (Hrow : eval_operands args (env fr4) argvals
                 = Some (row_args (Forest.features forest) (mem fr) db doff i)).
  { rewrite Ha4. f_equal. unfold row_args. rewrite map_combine_map.
    rewrite Hm3, Hm2. reflexivity. }
  assert (G4 : forall id, (id < next_id (fst s3))%nat -> env fr4 id = env fr3 id).
  { intros id Hid. eapply exec_instrs_regs; [exact X4|exact (appended_code_ids A4)|exact Hid]. }
  (* the trees *)
  unfold calls_return in Hcalls.
  inversion Hcalls as [|c0 y0 rest' ys' (pos & -> & Hcall0) Hrest]; subst.
  simpl in Hsum. inversion Hsum; subst x; clear Hsum.
  set (argv := row_args (Forest.features forest) (mem fr) db doff i) in *.
  set (fr5 := mkFrame (set_reg (env fr4) (next_id (fst s4)) (VDouble y0))
                      (slots fr4) (mem fr4)).
  assert (X5 : exec_instrs exp_f64 log_f64 callf args fr4
                 [(next_id (fst s4), Call (FuncRef pos DOUBLE) argvals)] = Some fr5).
  { simpl. unfold exec_instr. simpl. rewrite Hrow, Hcall0. reflexivity. }
  assert (G5 : forall id, (id < next_id (fst s4))%nat -> env fr5 id = env fr4 id).
  { intros id Hid. eapply exec_instrs_regs; [exact X5|exact (appended_code_ids A5)|exact Hid]. }
  destruct (S6 exp_f64 log_f64 callf args fr5 argv ys' y0)
    as (fr6 & X6 & Hm6 & Hs6 & Hr6).
  { rewrite (@exec_stable_list _ _ _ _ _ _ _ _ _ X5 (appended_code_ids A5) B4).
    exact Hrow. }
  { simpl. apply set_reg_same. }
  { exact Hrest. }
  assert (G6 : forall id, (id < next_id (fst s5))%nat -> env fr6 id = env fr5 id).
  { intros id Hid. eapply exec_instrs_regs; [exact X6|exact (appended_code_ids A6)|exact Hid]. }
  (* everything built before the loads is still there *)
  assert (G06 : forall id, (id < next_id (fst s))%nat -> env fr6 id = env fr id).
  { intros id Hid. rewrite G6, G5, G4, G3, G2 by lia. reflexivity. }
  assert (Hi6 : env fr6 (next_id (fst s)) = Some (VInt i)).
  { rewrite G6, G5, G4, G3 by lia. exact Hi2. }
  (* address of out[i] *)
  set (fr7 := bind_reg fr6 (next_id (fst s6)) (VPtr ob (ooff + i))).
  assert (X7 : exec_instrs exp_f64 log_f64 callf args fr6
                 [(next_id (fst s6),
                   Gep out_arr (InstrRef (pointee_of (type_of loop_iter))
                                         (next_id (fst s))))] = Some fr7).
  { simpl. unfold exec_instr. simpl.
    rewrite (eval_operand_stable args _ _ _ G06 Ho), Heo, Hi6. reflexivity. }
  (* objective *)
  destruct (S8 callf args fr7 (fold_left (fun r t => f64_add t r) ys' y0))
    as (fr8 & y & X8 & Hm8 & Hs8 & Hy & Hr8).
  { unfold fr7. simpl.
    rewrite (@eval_set_reg_below _ _ _ _ _ _ B6 (Nat.le_refl _)). exact Hr6. }
  assert (G8 : forall id, (id < next_id (fst s7))%nat -> env fr8 id = env fr7 id).
  { intros id Hid. eapply exec_instrs_regs; [exact X8|exact (appended_code_ids A8)|exact Hid]. }
  assert (G78 : forall id, (id < next_id (fst s6))%nat -> env fr8 id = env fr6 id).
  { intros id Hid. rewrite G8 by lia. unfold fr7. simpl. apply set_reg_other. lia. }
  assert (Hptr8 : env fr8 (next_id (fst s6)) = Some (VPtr ob (ooff + i))).
  { rewrite G8 by lia. unfold fr7. simpl. apply set_reg_same. }
  (* store, increment, store *)
  assert (Hslt : (sl < List.length (slots fr))%nat) by (eapply nth_error_lt; eauto).
  set (fr11 := mkFrame (set_reg (env fr8) (next_id (fst s9)) (VInt (wrap32 (i + 1))))
                       (update_nth (slots fr) sl (fun _ => wrap32 (i + 1)))
                       (heap_store (mem fr) ob (ooff + i) y)).
  assert (X11 : exec_instrs exp_f64 log_f64 callf args fr8
                  [(next_id (fst s8), Store res2 (InstrRef (type_of out_arr) (next_id (fst s6))));
                   (next_id (fst s9),
                    Add (InstrRef (pointee_of (type_of loop_iter)) (next_id (fst s)))
                        (iconst 1));
                   (next_id (fst s10),
                    Store (InstrRef (pointee_of (type_of loop_iter)) (next_id (fst s9)))
                          loop_iter)] = Some fr11).
  { simpl. unfold exec_instr. simpl. rewrite Hr8, Hptr8. simpl.
    rewrite (G78 (next_id (fst s))) by lia. rewrite Hi6. simpl.
    rewrite set_reg_same.
    assert (Hl11 : value_below (next_id (fst s9)) loop_iter)
      by (eapply value_below_mono; [exact Hl|lia]).
    rewrite (@eval_set_reg_below _ _ _ _ _ _ Hl11 (Nat.le_refl _)).
    assert (Hl8 : eval_operand args (env fr8) loop_iter = Some (VSlot sl)).
    { rewrite <- Hel. apply eval_operand_stable with (n := next_id (fst s)); auto.
      intros id Hid. rewrite G78, G06 by lia. reflexivity. }
    rewrite Hl8. rewrite Hs8. unfold fr7. simpl. rewrite Hs6. unfold fr5. simpl.
    rewrite Hs4, Hs3, Hs2.
    destruct (Nat.ltb_spec sl (List.length (slots fr))); [|lia].
    unfold fr11. rewrite Hm8. unfold fr7. simpl. rewrite Hm6. unfold fr5. simpl.
    rewrite Hm4, Hm3, Hm2. reflexivity. }
  exists fr11, y.
  split.
  { refine (@exec_trans _ _ _ _ _ _ _ _ _ X2 _).
    refine (@exec_trans _ _ _ _ _ _ _ _ _ X3 _).
    refine (@exec_trans _ _ _ _ _ _ _ _ _ X4 _).
    refine (@exec_trans _ _ _ _ _ _ _ _ _ X5 _).
    refine (@exec_trans _ _ _ _ _ _ _ _ _ X6 _).
    refine (@exec_trans _ _ _ _ _ _ _ _ _ X7 _).
    refine (@exec_trans _ _ _ _ _ _ _ _ _ X8 _).
    exact X11. }
  split; [exact Hy|]. split; [reflexivity|]. split; [reflexivity|].
  intros id Hid. unfold fr11. simpl.
  rewrite set_reg_other by lia. rewrite G78, G06 by lia. reflexivity.
Qed.

End CoreBlock.
Unset Implicit Arguments.


Lemma populate_forest_func_unfold py_float forest tree_funcs decls :
  _populate_forest_func py_float forest tree_funcs (root0, decls)
  = core_body py_float forest tree_funcs 2 (Argument DOUBLE_PTR 0)
      (Argument DOUBLE_PTR 1) (InstrRef (PointerType INT) 0) 1 3
      (root_before_core, decls).
Proof. reflexivity. Qed.

Section ForestFunc.

Variable py_float : string -> option f64.
Variables exp_f64 log_f64 : f64 -> f64.

Lemma populate_forest_func_spec forest tree_funcs decls f' decls' :
  _populate_forest_func py_float forest tree_funcs (root0, decls)
  = OK (tt, (f', decls')) ->
  exists core_code,
    nth_error (blocks f') 0
    = Some (mkBlock "setup"
              [(0%nat, Alloca INT);
               (1%nat, Store (Argument INT 2) (InstrRef (PointerType INT) 0))]
              (Some (Branch 1))) /\
    nth_error (blocks f') 1
    = Some (mkBlock "loop-condition"
              [(2%nat, Load (InstrRef (PointerType INT) 0));
               (3%nat, Icmp true CmpLt (InstrRef INT 2) (Argument INT 3))]
              (Some (CBranch (InstrRef BOOL 3) 2 3))) /\
    nth_error (blocks f') 2 = Some (mkBlock "loop-core" core_code (Some (Branch 1))) /\
    nth_error (blocks f') 3 = Some (mkBlock "term" [] (Some RetVoid)) /\
    forall callf args fr db doff ob ooff sl i ys x,
      nth_error args 0 = Some (VPtr db doff) ->
      nth_error args 1 = Some (VPtr ob ooff) ->
      env fr 0%nat = Some (VSlot sl) ->
      nth_error (slots fr) sl = Some i ->
      calls_return callf (row_args (Forest.features forest) (mem fr) db doff i)
                   tree_funcs ys ->
      tree_sum ys = Some x ->
      exists fr' y,
        exec_instrs exp_f64 log_f64 callf args fr core_code = Some fr' /\
        spec_transform py_float exp_f64 log_f64 (Forest.objective_func forest)
          (Forest.objective_func_config forest) x = Some y /\
        mem fr' = heap_store (mem fr) ob (ooff + i) y /\
        slots fr' = update_nth (slots fr) sl (fun _ => wrap32 (i + 1)) /\
        env fr' 0%nat = env fr 0%nat.
Proof.
  intros H. rewrite populate_forest_func_unfold in H.
  apply core_body_spec with (exp_f64 := exp_f64) (log_f64 := log_f64) in H;
    [|exact I|exact I|simpl; lia].
  destruct H as (code & fa & fb & Hcode & Hbr & Hret & Hsem).
  cbn [fst] in Hcode, Hret, Hsem.
  destruct Hcode as (Ac & Lc & Oc & Sc & Nc & Ic).
  destruct Hbr as (Ab & Lb & Ob & Sb & Nb).
  destruct Hret as (Ar & Lr & Or & Sr & Nr).
  exists code. split; [|split; [|split; [|split]]].
  - rewrite Or, Ob, Oc by lia. reflexivity.
  - rewrite Or, Ob, Oc by lia. reflexivity.
  - rewrite Or by lia. erewrite Sb.
    2:{ apply Sc. reflexivity. }
    reflexivity.
  - erewrite Sr.
    2:{ rewrite Ob, Oc by lia. reflexivity. }
    reflexivity.
  - intros callf args fr db doff ob ooff sl i ys x Ha0 Ha1 He0 Hsl Hcalls Hsum.
    destruct (Hsem callf args fr db doff ob ooff sl i ys x Ha0 Ha1 He0 Hsl Hcalls Hsum)
      as (fr' & y & Hx & Hy & Hm & Hs & He).
    exists fr', y. repeat split; auto.
    apply He. simpl. lia.
Qed.

End ForestFunc.
(* ===================================================================== *)
(** * Rows on which the forest is defined *)
(* ===================================================================== *)

Lemma kinds_eqb_eq a : forall b, kinds_eqb a b = true -> a = b.
Proof.
  induction a as [|x a IH]; intros [|y b] H; simpl in H; try discriminate; auto.
  apply andb_true_iff in H. destruct H as [H1 H2].
  apply eqb_prop in H1. f_equal; auto.
Qed.

Lemma predict_defined kinds argv n :
  Forall2 arg_of_kind kinds argv ->
  node_wf kinds n = true ->
  exists y, predict argv n = Some y.
Proof.
  intros Hargs. induction n as [leaf|d l IHl r IHr]; simpl; intros H.
  - eauto.
  - apply andb_true_iff in H. destruct H as [H Hr].
    apply andb_true_iff in H. destruct H as [H Hl].
    apply andb_true_iff in H. destruct H as [Hk Hc].
    assert (Hg : exists b, goes_left argv d = Some b).
    { unfold goes_left, node_input.
      rewrite <- (Forall2_length Hargs).
      destruct (py_index (List.length kinds) (split_feature d)) as [j|]; [|discriminate].
      destruct (nth_error kinds j) as [c|] eqn:Ej; [|discriminate].
      apply eqb_prop in Hk. subst c.
      assert (Hv : exists v, nth_error argv j = Some v
                             /\ arg_of_kind (is_categorical (decision_type d)) v).
      { clear - Hargs Ej. revert j Ej.
        induction Hargs as [|c v kinds argv Hcv Hrest IH]; intros [|j] Ej;
          simpl in *; try discriminate.
        - inversion Ej; subst. eauto.
        - eauto. }
      destruct Hv as (v & -> & Hv). unfold arg_of_kind in Hv.
      destruct (is_categorical (decision_type d)).
      - destruct Hv as (z & ->). destruct (cat_threshold d); [eauto|discriminate].
      - destruct Hv as (x & ->). eauto. }
    destruct Hg as ([|] & ->); auto.
Qed.

Lemma row_args_kinds features h db doff i :
  Forall2 arg_of_kind (map Feature.is_categorical features)
          (row_args features h db doff i).
Proof.
  unfold row_args.
  generalize (List.length features) at 1. generalize 0%nat.
  induction features as [|ft features IH]; intros s n; simpl; constructor.
  - unfold load_arg, arg_of_kind. simpl. destruct (Feature.is_categorical ft); eauto.
  - apply IH.
Qed.

Lemma row_args_length features h db doff i :
  List.length (row_args features h db doff i) = List.length features.
Proof.
  pose proof (Forall2_length (row_args_kinds features h db doff i)) as H.
  rewrite length_map in H. auto.
Qed.

Lemma all_some_Forall2 {A B} (g : A -> option B) l : forall ys,
  all_some (map g l) = Some ys <-> Forall2 (fun a y => g a = Some y) l ys.
Proof.
  induction l as [|a l IH]; simpl; intros ys.
  - split; intros H; inversion H; subst; auto.
  - destruct (g a) as [b|] eqn:Eg.
    + destruct (all_some (map g l)) as [r|] eqn:Er.
      * split; intros H.
        -- inversion H; subst. constructor; auto. apply IH. reflexivity.
        -- inversion H; subst. apply IH in H4. inversion H4; subst. congruence.
      * split; intros H; [discriminate|].
        inversion H; subst. apply IH in H4. discriminate.
    + split; intros H; [discriminate|]. inversion H; subst. congruence.
Qed.

Lemma all_some_defined {A B} (g : A -> option B) l :
  (forall a, In a l -> exists b, g a = Some b) ->
  exists ys, all_some (map g l) = Some ys.
Proof.
  induction l as [|a l IH]; simpl; intros H; [eauto|].
  destruct (H a (or_introl eq_refl)) as (b & ->).
  destruct IH as (ys & ->); eauto.
Qed.

Lemma wrap32_small z : INT_MIN <= z < two31 -> wrap32 z = z.
Proof.
  unfold wrap32, INT_MIN, two31, two32. intros H.
  rewrite Z.mod_small; lia.
Qed.

Lemma trees_fuel_bound trees t :
  In t trees -> (2 * height (Tree.root_node t) <= trees_fuel trees)%nat.
Proof.
  unfold trees_fuel. induction trees as [|u trees IH]; intros H; [destruct H|].
  cbn [map fold_right]. destruct H as [->|H]; [lia|]. apply IH in H. lia.
Qed.
(* ===================================================================== *)
(** * The loop of [forest_root] *)
(* ===================================================================== *)

Lemma run_branch exp lg m fuel f b args fr nm code t fr' :
  nth_error (blocks f) b = Some (mkBlock nm code (Some (Branch t))) ->
  exec_instrs exp lg (call_in exp lg m fuel) args fr code = Some fr' ->
  run_blocks exp lg m (S fuel) f b args fr = run_blocks exp lg m fuel f t args fr'.
Proof.
  intros Hb Hx. simpl. rewrite Hb. simpl.
  unfold call_in in Hx. rewrite Hx. reflexivity.
Qed.

Lemma run_ret_void exp lg m fuel f b args fr nm code fr' :
  nth_error (blocks f) b = Some (mkBlock nm code (Some RetVoid)) ->
  exec_instrs exp lg (call_in exp lg m fuel) args fr code = Some fr' ->
  run_blocks exp lg m (S fuel) f b args fr = Some (None, mem fr').
Proof.
  intros Hb Hx. simpl. rewrite Hb. simpl.
  unfold call_in in Hx. rewrite Hx. reflexivity.
Qed.

Lemma icmp_signed_lt x y : icmp_sem true CmpLt x y = (x <? y).
Proof. unfold icmp_sem, Z.ltb. simpl. destruct (x ?= y); reflexivity. Qed.

Section Loop.

Variable py_float : string -> option f64.
Variables exp_f64 log_f64 : f64 -> f64.
Variable m : module.
Variable f : function.
Variable forest : Forest.t.
Variable tree_funcs : list callee.
Variables (db : nat) (doff : Z) (ob : nat) (ooff : Z) (start end_index : Z).

Hypothesis Hblocks : root_blocks py_float exp_f64 log_f64 forest tree_funcs f.
Hypothesis Hcalls : trees_callable exp_f64 log_f64 m forest tree_funcs.
Hypothesis Hend : end_index < two31.

Lemma loop_runs : forall k i fr fuel h',
  env fr 0%nat = Some (VSlot 0) ->
  slots fr = [i] ->
  INT_MIN <= i ->
  Z.to_nat (end_index - i) = k ->
  score_rows (row_score py_float exp_f64 log_f64 forest db doff) ob ooff k i (mem fr)
  = Some h' ->
  (2 * k + 2 + trees_fuel (Forest.trees forest) <= fuel)%nat ->
  run_blocks exp_f64 log_f64 m fuel f 1
    (root_args db doff ob ooff start end_index) fr = Some (None, h').
Proof.
  destruct Hblocks as (core_code & Hb0 & Hb1 & Hb2 & Hb3 & Hcore).
  induction k as [|k IH]; intros i fr fuel h' He0 Hsl Hi Hk Hs Hfuel.
  - destruct fuel as [|fuel]; [lia|].
    erewrite run_cbranch with (dec := i <? end_index)
      (fr' := bind_reg (bind_reg fr 2 (VInt i)) 3 (VBool (i <? end_index)));
      [|exact Hb1| |reflexivity].
    2:{ cbn [exec_instrs exec_instr fst snd eval_operand].
        rewrite He0, Hsl. cbn [nth_error].
        cbn [pure_instr eval_operand bind_reg env root_args nth_error].
        rewrite set_reg_same. rewrite icmp_signed_lt. reflexivity. }
    assert (Hlt : (i <? end_index) = false) by (apply Z.ltb_ge; lia).
    rewrite Hlt. destruct fuel as [|fuel]; [lia|].
    erewrite run_ret_void; [|exact Hb3|reflexivity].
    simpl in Hs. inversion Hs; subst. reflexivity.
  - destruct fuel as [|fuel]; [lia|].
    erewrite run_cbranch with (dec := i <? end_index)
      (fr' := bind_reg (bind_reg fr 2 (VInt i)) 3 (VBool (i <? end_index)));
      [|exact Hb1| |reflexivity].
    2:{ cbn [exec_instrs exec_instr fst snd eval_operand].
        rewrite He0, Hsl. cbn [nth_error].
        cbn [pure_instr eval_operand bind_reg env root_args nth_error].
        rewrite set_reg_same. rewrite icmp_signed_lt. reflexivity. }
    assert (Hlt : (i <? end_index) = true) by (apply Z.ltb_lt; lia).
    rewrite Hlt. destruct fuel as [|fuel]; [lia|].
    cbn [score_rows] in Hs. unfold row_score at 1 in Hs.
    destruct (forest_output _ _ _ _ _) as [y|] eqn:Ey; [|discriminate Hs].
    unfold forest_output in Ey.
    destruct (all_some _) as [ys|] eqn:Eys; [|discriminate Ey].
    destruct (tree_sum ys) as [x|] eqn:Ex; [|discriminate Ey].
    apply all_some_Forall2 in Eys.
    set (fr1 := bind_reg (bind_reg fr 2 (VInt i)) 3 (VBool true)) in *.
    destruct (Hcore (call_in exp_f64 log_f64 m fuel)
                (root_args db doff ob ooff start end_index) fr1
                db doff ob ooff 0%nat i ys x)
      as (fr' & y' & Hx & Hy & Hm & Hs' & He'); auto.
    { subst fr1. simpl. rewrite Hsl. reflexivity. }
    { apply Hcalls; [lia| |exact Eys]. apply row_args_length. }
    erewrite run_branch; [|exact Hb2|exact Hx].
    apply IH with (i := i + 1).
    + rewrite He'. subst fr1. simpl. unfold set_reg. simpl. exact He0.
    + rewrite Hs'. subst fr1. simpl. rewrite Hsl. simpl.
      rewrite wrap32_small; [reflexivity|lia].
    + lia.
    + lia.
    + rewrite Hm. subst fr1. simpl. congruence.
    + lia.
Qed.

(** From the entry block: the counter is allocated and set to [start]. *)
Lemma root_runs h h' fuel :
  INT_MIN <= start ->
  score_rows (row_score py_float exp_f64 log_f64 forest db doff) ob ooff
    (Z.to_nat (end_index - start)) start h = Some h' ->
  (2 * Z.to_nat (end_index - start) + 3 + trees_fuel (Forest.trees forest) <= fuel)%nat ->
  run_blocks exp_f64 log_f64 m fuel f 0
    (root_args db doff ob ooff start end_index) (init_frame h) = Some (None, h').
Proof.
  intros Hstart Hs Hfuel.
  destruct Hblocks as (core_code & Hb0 & _).
  destruct fuel as [|fuel]; [lia|].
  erewrite run_branch with
    (fr' := mkFrame (set_reg (fun _ => None) 0 (VSlot 0)) [start] h);
    [|exact Hb0|reflexivity].
  eapply loop_runs; eauto; try reflexivity. lia.
Qed.

End Loop.
(* ===================================================================== *)
(** * The module as a whole *)
(* ===================================================================== *)

Lemma update_nth_app_mid {A} (l r : list A) x g :
  update_nth ((l ++ [x]) ++ r) (List.length l) g = (l ++ [g x]) ++ r.
Proof. induction l as [|y l IH]; simpl; [reflexivity|]. rewrite IH; reflexivity. Qed.

Lemma nth_error_app_mid {A} (l r : list A) x :
  nth_error ((l ++ [x]) ++ r) (List.length l) = Some x.
Proof. induction l as [|y l IH]; simpl; auto. Qed.

Lemma nth_error_app_after {A} (l r : list A) x j :
  nth_error ((l ++ [x]) ++ r) (List.length l + 1 + j) = nth_error r j.
Proof.
  induction l as [|y l IH]; simpl; auto.
Qed.

Lemma calls_return_trees exp lg m fuel argv base fts : forall trees,
  Forall2 tree_fn_ok fts trees ->
  forall ys off,
  (forall j ft, nth_error fts j = Some ft ->
                nth_error (functions m) (base + (off + j)) = Some ft) ->
  Forall (fun t => List.length argv = List.length (Tree.features t)
                   /\ (2 * height (Tree.root_node t) <= fuel)%nat) trees ->
  Forall2 (fun t y => predict argv (Tree.root_node t) = Some y) trees ys ->
  calls_return (call_in exp lg m fuel) argv
    (map (fun i => FuncRef (base + i) DOUBLE) (seq off (List.length trees))) ys.
Proof.
  unfold calls_return.
  induction 1 as [|ft t fts trees Hok Hrest IH]; intros ys off Hpos Hall Hp.
  - inversion Hp; subst. constructor.
  - inversion Hp; subst. inversion Hall; subst. simpl. constructor.
    + exists (base + off)%nat. split; [reflexivity|].
      intros h. unfold call_in.
      rewrite <- (Nat.add_0_r off) at 1.
      rewrite (Hpos 0%nat ft eq_refl).
      match goal with H : _ /\ _ |- _ => destruct H as [Hlen Hfuel] end.
      rewrite (Hok exp lg m argv (init_frame h) y fuel); auto.
    + apply IH; auto.
      intros j g Hj. replace (S off + j)%nat with (off + S j)%nat by lia.
      apply Hpos. exact Hj.
Qed.

Lemma forest_wf_trees forest t :
  forest_wf forest = true -> In t (Forest.trees forest) ->
  map Feature.is_categorical (Tree.features t)
  = map Feature.is_categorical (Forest.features forest)
  /\ node_wf (map Feature.is_categorical (Forest.features forest)) (Tree.root_node t)
     = true.
Proof.
  unfold forest_wf. intros H Hin.
  rewrite forallb_forall in H. apply H in Hin.
  apply andb_true_iff in Hin. destruct Hin as [Hk Hn].
  split; [apply kinds_eqb_eq; exact Hk|exact Hn].
Qed.

Section Module.

Variable py_float : string -> option f64.
Variables exp_f64 log_f64 : f64 -> f64.

(** The module [gen_forest] leaves behind: [forest_root] at the first free
    position, with the four blocks of the loop, and behind it the trees. *)
Lemma gen_forest_spec forest m m' :
  gen_forest py_float forest m = OK (tt, m') ->
  forest_wf forest = true ->
  exists f' tree_funcs,
    nth_error (functions m') (List.length (functions m)) = Some f' /\
    root_blocks py_float exp_f64 log_f64 forest tree_funcs f' /\
    trees_callable exp_f64 log_f64 m' forest tree_funcs.
Proof.
  unfold gen_forest. intros H Hwf.
  apply bind_inv in H. destruct H as (root & m1 & Hroot & H).
  apply bind_inv in H. destruct H as (cs & m2 & Htrees & H).
  apply ir_Function_inv in Hroot. destruct Hroot as (-> & Hfs1 & Hi1).
  apply mapM_make_tree_spec in Htrees.
  destruct Htrees as (Hi2 & -> & fts & Hfs2 & Hoks).
  unfold in_function in H. rewrite Hfs2, Hfs1, nth_error_app_mid in H.
  match type of H with
  | match ?c with _ => _ end = _ => destruct c as [[[] [f' decls]]|e] eqn:G
  end; [|discriminate H].
  inversion H; subst m'; clear H.
  exists f'. eexists. split; [|split].
  - cbn [functions]. rewrite update_nth_app_mid. apply nth_error_app_mid.
  - apply (populate_forest_func_spec py_float exp_f64 log_f64) in G. exact G.
  - intros fuel argv ys Hfuel Hlen Hp.
    apply calls_return_trees with (fts := fts); auto.
    + intros j ft Hj. cbn [functions]. rewrite update_nth_app_mid.
      rewrite length_app. cbn [List.length].
      rewrite <- Hj. rewrite Nat.add_0_l. apply nth_error_app_after.
    + apply Forall_forall. intros t Hin.
      destruct (forest_wf_trees forest t Hwf Hin) as [Hk _].
      split.
      * rewrite Hlen. pose proof (f_equal (@List.length bool) Hk) as E.
        rewrite !length_map in E. auto.
      * etransitivity; [apply trees_fuel_bound; exact Hin|exact Hfuel].
Qed.

End Module.
(* ===================================================================== *)
(** * Scoring a range of rows *)
(* ===================================================================== *)

Section ScoreRows.

Variable score : heap -> Z -> option f64.
Variables (ob : nat) (ooff : Z).

Lemma score_rows_defined :
  (forall h i, exists y, score h i = Some y) ->
  forall k i h, exists h', score_rows score ob ooff k i h = Some h'.
Proof.
  intros Hdef. induction k as [|k IH]; intros i h; simpl; [eauto|].
  destruct (Hdef h i) as (y & ->). apply IH.
Qed.

Lemma score_rows_frame : forall k i h h',
  score_rows score ob ooff k i h = Some h' ->
  forall b o, ~ (b = ob /\ ooff + i <= o < ooff + i + Z.of_nat k) -> h' b o = h b o.
Proof.
  induction k as [|k IH]; intros i h h' H b o Hout; simpl in H.
  - inversion H; subst; reflexivity.
  - destruct (score h i) as [y|]; [|discriminate H].
    rewrite (IH _ _ _ H b o) by lia.
    unfold heap_store.
    destruct (Nat.eqb b ob) eqn:Eb; [|reflexivity].
    destruct (Z.eqb o (ooff + i)) eqn:Eo; [|reflexivity].
    apply Nat.eqb_eq in Eb. apply Z.eqb_eq in Eo. exfalso. apply Hout. lia.
Qed.

Lemma score_rows_app : forall k1 k2 i h,
  score_rows score ob ooff (k1 + k2) i h
  = match score_rows score ob ooff k1 i h with
    | Some h1 => score_rows score ob ooff k2 (i + Z.of_nat k1) h1
    | None => None
    end.
Proof.
  induction k1 as [|k1 IH]; intros k2 i h.
  - simpl. rewrite Z.add_0_r. reflexivity.
  - cbn [score_rows Nat.add]. destruct (score h i) as [y|]; [|reflexivity].
    rewrite IH. replace (i + 1 + Z.of_nat k1) with (i + Z.of_nat (S k1)) by lia.
    reflexivity.
Qed.

(** When storing into the output buffer does not change a score, every row
    of the range gets the score it has on the initial heap. *)
Lemma score_rows_value :
  (forall h o y j, score (heap_store h ob o y) j = score h j) ->
  forall k i h h',
    score_rows score ob ooff k i h = Some h' ->
    forall j, i <= j < i + Z.of_nat k -> score h j = Some (h' ob (ooff + j)).
Proof.
  intros Hinv. induction k as [|k IH]; intros i h h' H j Hj; [lia|].
  simpl in H. destruct (score h i) as [y|] eqn:Ey; [|discriminate H].
  destruct (Z.eq_dec j i) as [->|Hne].
  - rewrite (score_rows_frame _ _ _ _ H) by lia.
    unfold heap_store. rewrite Nat.eqb_refl, Z.eqb_refl. exact Ey.
  - rewrite <- (IH _ _ _ H j) by lia. symmetry. apply Hinv.
Qed.

End ScoreRows.

Lemma row_args_store features h db doff ob o y i :
  db <> ob ->
  row_args features (heap_store h ob o y) db doff i = row_args features h db doff i.
Proof.
  intros Hne. unfold row_args. apply map_ext. intros fk.
  unfold heap_store. apply Nat.eqb_neq in Hne. rewrite Hne. reflexivity.
Qed.

Lemma row_offset_exact n i k :
  (k < n)%nat -> 0 <= i * Z.of_nat n -> (i + 1) * Z.of_nat n <= two31 ->
  row_offset n i k = i * Z.of_nat n + Z.of_nat k.
Proof.
  intros Hk H0 H1. unfold row_offset.
  assert (Hi : 0 <= i) by nia.
  rewrite (wrap32_small (Z.of_nat k)) by (unfold INT_MIN, two31 in *; nia).
  destruct (Z.eq_dec i 0) as [->|Hne].
  - rewrite !Z.mul_0_l. rewrite (wrap32_small 0) by (unfold INT_MIN, two31; lia).
    apply wrap32_small. unfold INT_MIN, two31 in *. lia.
  - rewrite (wrap32_small (Z.of_nat n)) by (unfold INT_MIN, two31 in *; nia).
    rewrite (wrap32_small (i * Z.of_nat n)) by (unfold INT_MIN, two31 in *; nia).
    apply wrap32_small. unfold INT_MIN, two31 in *. nia.
Qed.

Section Defined.

Variable py_float : string -> option f64.
Variables exp_f64 log_f64 : f64 -> f64.

Lemma spec_transform_defined objective config x :
  objective_error py_float objective config = None ->
  exists y, spec_transform py_float exp_f64 log_f64 objective config x = Some y.
Proof.
  unfold objective_error, spec_transform, binary_alpha, enumerated, in_list.
  cbn [existsb].
  destruct (String.eqb objective "binary"); cbn [orb].
  { destruct config as [cfg|]; [|discriminate].
    destruct (nth_error (py_split ":" cfg) 1) as [a|]; [|discriminate].
    destruct (py_float a) as [alpha|]; [|discriminate]. eauto. }
  repeat match goal with
  | |- context [String.eqb objective ?t] =>
      destruct (String.eqb objective t); cbn [orb]; eauto
  end.
  discriminate.
Qed.

Lemma core_body_ok forest tree_funcs builder data_arr out_arr loop_iter cb tb s r :
  core_body py_float forest tree_funcs builder data_arr out_arr loop_iter cb tb s
  = OK r ->
  tree_funcs <> [] /\
  objective_error py_float (Forest.objective_func forest)
    (Forest.objective_func_config forest) = None.
Proof.
  unfold core_body. destruct r as [u s']. intros H.
  apply bind_inv in H. destruct H as (lir & s1 & E1 & H).
  apply bind_inv in H. destruct H as (imn & s2 & E2 & H).
  apply bind_inv in H. destruct H as (raw_ptrs & s3 & E3 & H).
  apply bind_inv in H. destruct H as (argvals & s4 & E4 & H).
  destruct tree_funcs as [|tf0 rest]; [discriminate H|].
  apply bind_inv in H. destruct H as (res0 & s5 & E5 & H).
  apply bind_inv in H. destruct H as (res1 & s6 & E6 & H).
  apply bind_inv in H. destruct H as (ptr & s7 & E7 & H).
  apply bind_inv in H. destruct H as (res2 & s8 & E8 & H).
  split; [discriminate|].
  pose proof (populate_objective_result py_float builder res1 (Forest.objective_func forest)
                (Forest.objective_func_config forest) s7) as R.
  rewrite E8 in R. exact R.
Qed.

Lemma gen_forest_ok forest m r :
  gen_forest py_float forest m = OK r ->
  Forest.trees forest <> [] /\
  objective_error py_float (Forest.objective_func forest)
    (Forest.objective_func_config forest) = None.
Proof.
  unfold gen_forest. destruct r as [u m']. intros H.
  apply bind_inv in H. destruct H as (root & m1 & Hroot & H).
  apply bind_inv in H. destruct H as (cs & m2 & Htrees & H).
  apply ir_Function_inv in Hroot. destruct Hroot as (-> & Hfs1 & Hi1).
  apply mapM_make_tree_spec in Htrees.
  destruct Htrees as (Hi2 & -> & fts & Hfs2 & Hoks).
  unfold in_function in H. rewrite Hfs2, Hfs1, nth_error_app_mid in H.
  match type of H with
  | match ?c with _ => _ end = _ => destruct c as [r'|e] eqn:G
  end; [|discriminate H].
  pose proof (populate_forest_func_unfold py_float forest
    (map (fun i => FuncRef (List.length (functions m1) + i) DOUBLE)
         (seq 0 (List.length (Forest.trees forest)))) (intrinsics m2)) as E.
  unfold root0 in E. rewrite Hfs1 in E. rewrite E in G.
  apply core_body_ok in G. destruct G as [Hne Hobj].
  split; [|exact Hobj].
  intros Hnil. apply Hne. rewrite Hnil. reflexivity.
Qed.

Lemma row_score_defined forest m r db doff :
  gen_forest py_float forest m = OK r ->
  forest_wf forest = true ->
  forall h i, exists y, row_score py_float exp_f64 log_f64 forest db doff h i = Some y.
Proof.
  intros Hgen Hwf h i.
  destruct (gen_forest_ok forest m r Hgen) as [Hne Hobj].
  unfold row_score, forest_output.
  destruct (all_some_defined
              (fun t => predict (row_args (Forest.features forest) h db doff i)
                                (Tree.root_node t))
              (Forest.trees forest)) as (ys & Eys).
  { intros t Hin. destruct (forest_wf_trees forest t Hwf Hin) as [_ Hn].
    eapply predict_defined; [apply row_args_kinds|exact Hn]. }
  rewrite Eys.
  assert (Hys : ys <> []).
  { apply all_some_Forall2 in Eys. intros ->. inversion Eys; subst.
    apply Hne. congruence. }
  destruct ys as [|y0 ys]; [congruence|]. cbn [tree_sum].
  apply spec_transform_defined. exact Hobj.
Qed.

End Defined.
(* ===================================================================== *)
(** * [forest_root]: rows, range and batching *)
(* ===================================================================== *)

Section Root.

Variable py_float : string -> option f64.
Variables exp_f64 log_f64 : f64 -> f64.

(** A call of the generated [forest_root] on a range of rows returns, and
    leaves the heap [score_rows] describes. *)
Lemma forest_root_runs forest m m' db doff ob ooff start end_index h h' fuel :
  gen_forest py_float forest m = OK (tt, m') ->
  forest_wf forest = true ->
  INT_MIN <= start -> end_index < two31 ->
  score_rows (row_score py_float exp_f64 log_f64 forest db doff) ob ooff
    (Z.to_nat (end_index - start)) start h = Some h' ->
  (2 * Z.to_nat (end_index - start) + 3 + trees_fuel (Forest.trees forest) <= fuel)%nat ->
  run_function exp_f64 log_f64 m' fuel (List.length (functions m))
    (root_args db doff ob ooff start end_index) h = Some (None, h').
Proof.
  intros Hgen Hwf Hs He Hrows Hfuel.
  destruct (gen_forest_spec py_float exp_f64 log_f64 forest m m' Hgen Hwf)
    as (f' & tree_funcs & Hf & Hblocks & Hcalls).
  unfold run_function. rewrite Hf.
  eapply root_runs; eauto.
Qed.

Lemma row_score_store forest db doff ob h o y j :
  db <> ob ->
  row_score py_float exp_f64 log_f64 forest db doff (heap_store h ob o y) j
  = row_score py_float exp_f64 log_f64 forest db doff h j.
Proof. intros Hne. unfold row_score. rewrite row_args_store; auto. Qed.

End Root.

(** C4.  For every row index [i] with [start <= i < end] (signed),
    the generated [forest_root] returns, and [out[i]] then holds the
    objective transform of the sum of the leaves all trees reach, taken in
    the order of [Forest.trees] from the first tree on and accumulated with
    [fadd]; every tree is run on the row's [n_features] values, read at
    offset [i * n_features + k] of the data buffer, the categorical ones
    cast to i32. *)
Theorem C4_forest_root_rows py_float exp_f64 log_f64 forest m m'
    db doff ob ooff start end_index h :
  gen_forest py_float forest m = OK (tt, m') ->
  forest_wf forest = true ->
  db <> ob ->
  INT_MIN <= start -> end_index < two31 ->
  exists h',
    (forall fuel,
       (2 * Z.to_nat (end_index - start) + 3 + trees_fuel (Forest.trees forest)
        <= fuel)%nat ->
       run_function exp_f64 log_f64 m' fuel (List.length (functions m))
         (root_args db doff ob ooff start end_index) h = Some (None, h')) /\
    forall i, start <= i < end_index ->
      let n := List.length (Forest.features forest) in
      let argv :=
        map (fun fk : Feature.t * nat =>
               load_arg (fst fk) (h db (doff + row_offset n i (snd fk))))
            (combine (Forest.features forest) (seq 0 n)) in
      (0 <= i * Z.of_nat n -> (i + 1) * Z.of_nat n <= two31 ->
       forall k, (k < n)%nat -> row_offset n i k = i * Z.of_nat n + Z.of_nat k) /\
      exists ys x y,
        Forall2 (fun t y => predict argv (Tree.root_node t) = Some y)
                (Forest.trees forest) ys /\
        tree_sum ys = Some x /\
        spec_transform py_float exp_f64 log_f64 (Forest.objective_func forest)
          (Forest.objective_func_config forest) x = Some y /\
        h' ob (ooff + i) = y.
Proof.
  intros Hgen Hwf Hne Hs He.
  destruct (score_rows_defined
              (row_score py_float exp_f64 log_f64 forest db doff) ob ooff
              (row_score_defined py_float exp_f64 log_f64 forest m (tt, m') db doff
                 Hgen Hwf)
              (Z.to_nat (end_index - start)) start h) as (h' & Hrows).
  exists h'. split.
  - intros fuel Hfuel. eapply forest_root_runs; eauto.
  - intros i Hi n argv. split.
    + intros H0 H1 k Hk. apply row_offset_exact; auto.
    + pose proof (score_rows_value
                    (row_score py_float exp_f64 log_f64 forest db doff) ob ooff
                    (fun h0 o y j => row_score_store py_float exp_f64 log_f64
                                       forest db doff ob h0 o y j Hne)
                    _ _ _ _ Hrows i) as Hv.
      rewrite Z2Nat.id in Hv by lia.
      specialize (Hv ltac:(lia)).
      unfold row_score, forest_output in Hv.
      change (row_args (Forest.features forest) h db doff i) with argv in Hv.
      destruct (all_some _) as [ys|] eqn:Eys; [|discriminate Hv].
      destruct (tree_sum ys) as [x|] eqn:Ex; [|discriminate Hv].
      apply all_some_Forall2 in Eys.
      exists ys, x, (h' ob (ooff + i)). auto.
Qed.

(** C8.  A call of [forest_root] changes nothing but the entries
    [out[start..end)]: the rest of the output buffer and every other buffer,
    the data in particular, are as before; and scoring [start..mid) and then
    [mid..end) leaves the same heap as scoring [start..end) at once. *)
Theorem C8_range_and_batching py_float exp_f64 log_f64 forest m m'
    db doff ob ooff start mid end_index h :
  gen_forest py_float forest m = OK (tt, m') ->
  forest_wf forest = true ->
  db <> ob ->
  INT_MIN <= start -> start <= mid <= end_index -> end_index < two31 ->
  exists h1 h',
    (forall fuel,
       (2 * Z.to_nat (end_index - start) + 3 + trees_fuel (Forest.trees forest)
        <= fuel)%nat ->
       let root := List.length (functions m) in
       run_function exp_f64 log_f64 m' fuel root
         (root_args db doff ob ooff start end_index) h = Some (None, h') /\
       run_function exp_f64 log_f64 m' fuel root
         (root_args db doff ob ooff start mid) h = Some (None, h1) /\
       run_function exp_f64 log_f64 m' fuel root
         (root_args db doff ob ooff mid end_index) h1 = Some (None, h')) /\
    (forall b o, ~ (b = ob /\ ooff + start <= o < ooff + end_index) ->
                 h' b o = h b o) /\
    (forall o, h' db o = h db o).
Proof.
  intros Hgen Hwf Hne Hs Hmid He.
  set (score := row_score py_float exp_f64 log_f64 forest db doff).
  destruct (score_rows_defined score ob ooff
              (row_score_defined py_float exp_f64 log_f64 forest m (tt, m') db doff
                 Hgen Hwf)
              (Z.to_nat (end_index - start)) start h) as (h' & Hrows).
  pose proof Hrows as Hsplit.
  replace (Z.to_nat (end_index - start))
    with (Z.to_nat (mid - start) + Z.to_nat (end_index - mid))%nat in Hsplit by lia.
  rewrite score_rows_app in Hsplit.
  destruct (score_rows score ob ooff (Z.to_nat (mid - start)) start h)
    as [h1|] eqn:H1; [|discriminate Hsplit].
  replace (start + Z.of_nat (Z.to_nat (mid - start))) with mid in Hsplit by lia.
  assert (Hframe : forall b o, ~ (b = ob /\ ooff + start <= o < ooff + end_index) ->
                               h' b o = h b o).
  { intros b o Hout. apply (score_rows_frame score ob ooff _ _ _ _ Hrows). lia. }
  exists h1, h'. split; [|split].
  - intros fuel Hfuel root. split; [|split].
    + eapply forest_root_runs; eauto.
    + eapply forest_root_runs; eauto; lia.
    + eapply forest_root_runs; eauto; lia.
  - exact Hframe.
  - intros o. apply Hframe. intros [Hb _]. congruence.
Qed.
(* ===================================================================== *)
(** * The objective: transforms and errors *)
(* ===================================================================== *)

Lemma bind_ok {S A B} (c : M S A) (k : A -> M S B) s a s1 :
  c s = OK (a, s1) -> bind c k s = k a s1.
Proof. intros H. unfold bind. rewrite H. reflexivity. Qed.

Lemma bind_raise {S A B} (c : M S A) (k : A -> M S B) s e :
  c s = Raise e -> bind c k s = Raise e.
Proof. intros H. unfold bind. rewrite H. reflexivity. Qed.

Lemma total_emit bb ty i : total (on_func (emit bb ty i)).
Proof. intros s. unfold on_func, emit. eauto. Qed.

Lemma total_terminate bb t : total (on_func (terminate bb t)).
Proof. intros s. unfold on_func, terminate. eauto. Qed.

Lemma total_ret {S A} (a : A) : total (ret a : M S A).
Proof. intros s. unfold ret. eauto. Qed.

Lemma total_bind {S A B} (c : M S A) (k : A -> M S B) :
  total c -> (forall a, total (k a)) -> total (bind c k).
Proof.
  intros Hc Hk s. destruct (Hc s) as (a & s1 & E).
  rewrite (bind_ok _ _ _ _ _ E). apply Hk.
Qed.

Lemma total_mapM {S A B} (g : A -> M S B) l :
  (forall a, total (g a)) -> total (mapM g l).
Proof.
  intros Hg. induction l as [|a l IH]; simpl.
  - apply total_ret.
  - apply total_bind; [apply Hg|]. intros b.
    apply total_bind; [exact IH|]. intros bs. apply total_ret.
Qed.

Lemma total_foldM {S A B} (g : B -> A -> M S B) l :
  (forall b a, total (g b a)) -> forall b, total (foldM g l b).
Proof.
  intros Hg. induction l as [|a l IH]; intros b; simpl.
  - apply total_ret.
  - apply total_bind; [apply Hg|]. intros b'. apply IH.
Qed.

Section ObjectiveErrors.

Variable py_float : string -> option f64.

(** Whether [core_body] raises is decided by the objective alone. *)
Lemma core_body_result forest tree_funcs builder data_arr out_arr loop_iter cb tb s :
  tree_funcs <> [] ->
  match core_body py_float forest tree_funcs builder data_arr out_arr loop_iter cb tb s
  with
  | Raise e => objective_error py_float (Forest.objective_func forest)
                 (Forest.objective_func_config forest) = Some e
  | OK (u, _) => u = tt /\
                 objective_error py_float (Forest.objective_func forest)
                   (Forest.objective_func_config forest) = None
  end.
Proof.
  intros Hne. unfold core_body.
  destruct (total_emit builder (pointee_of (type_of loop_iter)) (Load loop_iter) s)
    as (lir & s1 & E1).
  unfold load at 1. rewrite (bind_ok _ _ _ _ _ E1).
  match goal with
  | |- match bind ?c _ s1 with _ => _ end =>
      destruct (total_emit builder (type_of lir)
                  (Mul lir (Constant INT (PyInt (Z.of_nat (Forest.n_args forest))))) s1)
        as (imn & s2 & E2)
  end.
  unfold mul at 1. rewrite (bind_ok _ _ _ _ _ E2).
  match goal with
  | |- match bind ?c _ s2 with _ => _ end =>
      assert (T3 : total c)
  end.
  { apply total_mapM. intros a. apply total_bind; [apply total_emit|].
    intros c. apply total_emit. }
  destruct (T3 s2) as (raw_ptrs & s3 & E3). rewrite (bind_ok _ _ _ _ _ E3).
  match goal with
  | |- match bind ?c _ s3 with _ => _ end =>
      assert (T4 : total c)
  end.
  { apply total_mapM. intros a. apply total_bind; [apply total_emit|].
    intros el. destruct (Feature.is_categorical (fst a));
      [apply total_emit|apply total_ret]. }
  destruct (T4 s3) as (argvals & s4 & E4). rewrite (bind_ok _ _ _ _ _ E4).
  destruct tree_funcs as [|tf0 rest]; [congruence|].
  destruct (total_emit builder (callee_ret tf0) (Call tf0 argvals) s4)
    as (res0 & s5 & E5).
  unfold call at 1. rewrite (bind_ok _ _ _ _ _ E5).
  match goal with
  | |- match bind ?c _ s5 with _ => _ end =>
      assert (T6 : total c)
  end.
  { apply total_foldM. intros b a. apply total_bind; [apply total_emit|].
    intros r. apply total_emit. }
  destruct (T6 s5) as (res1 & s6 & E6). rewrite (bind_ok _ _ _ _ _ E6).
  destruct (total_emit builder (type_of out_arr) (Gep out_arr lir) s6)
    as (ptr & s7 & E7).
  unfold gep at 1. rewrite (bind_ok _ _ _ _ _ E7).
  pose proof (populate_objective_result py_float builder res1
                (Forest.objective_func forest)
                (Forest.objective_func_config forest) s7) as R.
  destruct (_populate_objective_func_block py_float builder res1
              (Forest.objective_func forest)
              (Forest.objective_func_config forest) s7) as [[res2 s8]|e] eqn:E8.
  - rewrite (bind_ok _ _ _ _ _ E8).
    unfold bind, on_func, store, add, emit, branch, ret_void, terminate.
    cbn [fst snd]. auto.
  - rewrite (bind_raise _ _ _ _ E8). exact R.
Qed.



End ObjectiveErrors.
(** C6.  The code [_populate_objective_func_block] emits turns the
    accumulator [x] into the value of the spec's table of transforms, and
    the table reads, per tag: [binary] the sigmoid with the alpha parsed from
    the config after the first [':']; [xentropy], [cross_entropy] the sigmoid
    with alpha 1; [xentlambda], [cross_entropy_lambda] [log(1 + exp(x))];
    [poisson], [gamma], [tweedie] [exp(x)]; the regression family
    [copysign(x * x, x)] when the config contains [sqrt], else [x];
    [lambdarank], [rank_xendcg], [custom] [x].  With [sqrt], [-4.0] gives
    [-16.0]. *)
Theorem C6_objective_transform py_float exp_f64 log_f64
    builder input objective config s res s' :
  _populate_objective_func_block py_float builder input objective config s
  = OK (res, s') ->
  value_below (next_id (fst s)) input ->
  let transform := spec_transform py_float exp_f64 log_f64 in
  (exists code,
     appended (fst s) (fst s') builder code /\
     forall callf args fr x,
       eval_operand args (env fr) input = Some (VDouble x) ->
       exists fr' y,
         exec_instrs exp_f64 log_f64 callf args fr code = Some fr' /\
         eval_operand args (env fr') res = Some (VDouble y) /\
         mem fr' = mem fr /\
         transform objective config x = Some y) /\
  (forall cfg x,
     transform "binary" cfg x
     = match binary_alpha py_float cfg with
       | Some alpha =>
           Some (f64_div f64_one
                   (f64_add f64_one (exp_f64 (f64_mul (SFopp alpha) x))))
       | None => None
       end) /\
  (forall tag, In tag ["xentropy"; "cross_entropy"] -> forall cfg x,
     transform tag cfg x
     = Some (f64_div f64_one
               (f64_add f64_one (exp_f64 (f64_mul (SFopp f64_one) x))))) /\
  (forall tag, In tag ["xentlambda"; "cross_entropy_lambda"] -> forall cfg x,
     transform tag cfg x = Some (log_f64 (f64_add f64_one (exp_f64 x)))) /\
  (forall tag, In tag ["poisson"; "gamma"; "tweedie"] -> forall cfg x,
     transform tag cfg x = Some (exp_f64 x)) /\
  (forall tag,
     In tag ["regression"; "regression_l1"; "huber"; "fair"; "quantile"; "mape"] ->
     forall cfg x,
       transform tag cfg x
       = Some (if config_has_sqrt cfg then f64_copysign (f64_mul x x) x else x)) /\
  (forall tag, In tag ["lambdarank"; "rank_xendcg"; "custom"] -> forall cfg x,
     transform tag cfg x = Some x) /\
  transform "regression" (Some "sqrt") f64_minus_four = Some f64_minus_sixteen.
Proof.
  intros H Hbelow transform. subst transform.
  split; [|split; [|split; [|split; [|split; [|split; [|split]]]]]].
  - destruct (@populate_objective_spec py_float exp_f64 log_f64 builder input objective
                config s res s' H Hbelow) as (code & Happ & _ & Hsem).
    exists code. split; [exact Happ|].
    intros callf args fr x Hx.
    destruct (Hsem callf args fr x Hx) as (fr' & y & Hex & Hm & _ & Hy & Hr).
    exists fr', y. auto.
  - intros cfg x. unfold spec_transform. cbn [String.eqb Ascii.eqb Bool.eqb].
    reflexivity.
  - intros tag Ht cfg x. simpl in Ht.
    repeat (destruct Ht as [<-|Ht]; [reflexivity|]). contradiction.
  - intros tag Ht cfg x. simpl in Ht.
    repeat (destruct Ht as [<-|Ht]; [reflexivity|]). contradiction.
  - intros tag Ht cfg x. simpl in Ht.
    repeat (destruct Ht as [<-|Ht]; [reflexivity|]). contradiction.
  - intros tag Ht cfg x. simpl in Ht.
    repeat (destruct Ht as [<-|Ht]; [reflexivity|]). contradiction.
  - intros tag Ht cfg x. simpl in Ht.
    repeat (destruct Ht as [<-|Ht]; [reflexivity|]). contradiction.
  - vm_compute. reflexivity.
Qed.

(* ===================================================================== *)
(** * Zero under [MZero] *)
(* ===================================================================== *)


(* ===================================================================== *)
(** * Examples *)
(* ===================================================================== *)

Lemma huge_bitset_length : Z.of_nat (List.length huge_bitset) = 67108865.
Proof.
  unfold huge_bitset. rewrite length_app, repeat_length, Nat2Z.inj_add.
  rewrite Z2Nat.id by lia. reflexivity.
Qed.

Lemma huge_bitset_last : nth (Z.to_nat 67108864) huge_bitset 0 = 1.
Proof.
  unfold huge_bitset. rewrite app_nth2 by (rewrite repeat_length; lia).
  rewrite repeat_length, Nat.sub_diag. reflexivity.
Qed.

Lemma int_min_in_bitset cat :
  Z.of_nat (List.length cat) = 67108865 ->
  nth (Z.to_nat 67108864) cat 0 = 1 ->
  categorical_decision cat INT_MIN = true.
Proof.
  intros Hlen Hlast. unfold categorical_decision, in_bitset_range, bitset_bit.
  rewrite Hlen.
  change (to_unsigned INT_MIN) with 2147483648.
  change (to_unsigned (32 * 67108865)) with 2147483680.
  change (2147483648 / 32) with 67108864.
  rewrite Hlast. reflexivity.
Qed.

Lemma categorical_stub_generated cat :
  exists f',
    gen_node 0 (categorical_stub cat) (stub_function INT_CAT) = OK (tt, f').
Proof. eexists. vm_compute. reflexivity. Qed.

(** C3, counterexample to the claim as stated: with a bitset of [2^26 + 1]
    words the range constant [32 * |B|] exceeds [2^31], the unsigned value
    of [INT_MIN]; the NaN category passes the range check, finds its bit set
    and goes left. *)
Lemma C3_counterexample :
  exists f',
    gen_node 0 (categorical_stub huge_bitset) (stub_function INT_CAT) = OK (tt, f') /\
    fptosi f64_nan = INT_MIN /\
    forall exp lg m fr,
      run_blocks exp lg m 4 f' 0 [VInt (fptosi f64_nan)] fr
      = Some (Some (VDouble (value left_leaf)), mem fr).
Proof.
  destruct (categorical_stub_generated huge_bitset) as (f' & Hgen).
  exists f'. split; [exact Hgen|]. split; [reflexivity|].
  intros exp lg m fr.
  assert (Hb : nth_error (blocks (stub_function INT_CAT)) 0
               = Some (mkBlock "node_0" [] None)) by reflexivity.
  destruct (gen_node_sound (categorical_stub huge_bitset) _ _ Hb Hgen)
    as (_ & _ & _ & Hrun).
  apply Hrun.
  - reflexivity.
  - change (fptosi f64_nan) with INT_MIN.
    unfold categorical_stub.
    rewrite (@predict_categorical [VInt INT_MIN] (categorical_stub_node huge_bitset)
               huge_bitset INT_MIN (Leaf left_leaf) (Leaf right_leaf)
               eq_refl eq_refl eq_refl).
    rewrite (int_min_in_bitset huge_bitset huge_bitset_length huge_bitset_last).
    reflexivity.
  - cbn [height categorical_stub Nat.max]. lia.
Qed.
Lemma C1_witness :
  _populate_numerical_node_block 0 zero_missing_node (stub_function DOUBLE)
  = OK zero_missing_block /\
  (spec_numerical_case zero_missing_node = ZeroOrUnorderedLe <->
   effective_default_left zero_missing_node = true /\
   ~ (missing_type (decision_type zero_missing_node) <> MZero
      \/ SFleb f64_zero (threshold zero_missing_node) = true)).
Proof.
  split; [reflexivity|].
  exact (proj1 (proj2 (proj2
           (@C1_numerical_case_table 0 zero_missing_node (stub_function DOUBLE)
              (fst zero_missing_block) (snd zero_missing_block) eq_refl)))).
Defined.


Lemma C3_witness :
  is_categorical (decision_type (categorical_stub_node small_bitset)) = true /\
  cat_threshold (categorical_stub_node small_bitset) = Some small_bitset /\
  32 * Z.of_nat (List.length small_bitset) < two32 /\
  nth_error (blocks (stub_function INT_CAT)) 0 = Some (mkBlock "node_0" [] None) /\
  gen_node 0 (categorical_stub small_bitset) (stub_function INT_CAT)
  = OK (tt, small_tree_function) /\
  List.length [VInt 1] = List.length (fargs (stub_function INT_CAT)) /\
  node_input [VInt 1] (categorical_stub_node small_bitset) = Some (VInt 1) /\
  predict [VInt 1] (Leaf left_leaf) = Some f64_one /\
  predict [VInt 1] (Leaf right_leaf) = Some f64_minus_one /\
  forall exp lg m fr,
    run_blocks exp lg m 4 small_tree_function 0 [VInt 1] fr
    = Some (Some (VDouble f64_one), mem fr).
Proof.
  assert (Hgen : gen_node 0 (categorical_stub small_bitset) (stub_function INT_CAT)
                 = OK (tt, small_tree_function)) by (vm_compute; reflexivity).
  split; [reflexivity|]. split; [reflexivity|]. split; [reflexivity|].
  split; [reflexivity|]. split; [exact Hgen|]. split; [reflexivity|].
  split; [reflexivity|]. split; [reflexivity|]. split; [reflexivity|].
  intros exp lg m fr.
  exact (proj1 (@C3_categorical_routing (categorical_stub_node small_bitset)
                  small_bitset (Leaf left_leaf) (Leaf right_leaf)
                  (stub_function INT_CAT) 0%nat "node_0" small_tree_function
                  [VInt 1] 1 f64_one f64_minus_one
                  eq_refl eq_refl eq_refl eq_refl Hgen eq_refl eq_refl eq_refl
                  eq_refl)
               exp lg m fr 4%nat (le_n 4) eq_refl).
Defined.

Lemma C5_witness :
  nth_error (blocks (stub_function DOUBLE)) 0 = Some (mkBlock "node_0" [] None) /\
  gen_node 0 (numerical_stub MZero true f64_half) (stub_function DOUBLE)
  = OK (tt, fused_function) /\
  List.length (blocks fused_function) = List.length (blocks (stub_function DOUBLE)) /\
  exists code comp n,
    nth_error (blocks fused_function) 0
    = Some (mkBlock "node_0"
              (code ++ [(n, Select comp (dconst f64_one) (dconst f64_minus_one))])
              (Some (Ret (InstrRef DOUBLE n)))).
Proof.
  split; [reflexivity|]. split; [reflexivity|].
  exact (proj1 (@C5_fused_double_leaf (numerical_stub_node MZero true f64_half)
                  left_leaf right_leaf (stub_function DOUBLE) 0%nat "node_0"
                  fused_function eq_refl eq_refl) eq_refl).
Defined.
Lemma C4_witness :
  gen_forest example_py_float regression_forest empty_module
  = OK (tt, regression_module) /\
  forest_wf regression_forest = true /\
  0%nat <> 1%nat /\
  INT_MIN <= 0 /\
  2 < two31 /\
  exists h',
    forall fuel, (11 <= fuel)%nat ->
      run_function stand_in_exp stand_in_log regression_module fuel 0
        (root_args 0 0 1 0 0 2) example_heap = Some (None, h').
Proof.
  split; [vm_compute; reflexivity|]. split; [reflexivity|].
  split; [discriminate|]. split; [unfold INT_MIN, two31; lia|].
  split; [reflexivity|].
  destruct (C4_forest_root_rows example_py_float stand_in_exp stand_in_log
              regression_forest empty_module regression_module 0 0 1 0 0 2
              example_heap
              ltac:(vm_compute; reflexivity) ltac:(reflexivity) ltac:(discriminate)
              ltac:(unfold INT_MIN, two31; lia) ltac:(reflexivity))
    as (h' & Hrun & _).
  exists h'. exact Hrun.
Defined.

Lemma C8_witness :
  gen_forest example_py_float regression_forest empty_module
  = OK (tt, regression_module) /\
  forest_wf regression_forest = true /\
  0%nat <> 1%nat /\
  INT_MIN <= 0 /\
  0 <= 1 <= 2 /\
  2 < two31 /\
  exists h1 h',
    (forall fuel, (11 <= fuel)%nat ->
       run_function stand_in_exp stand_in_log regression_module fuel 0
         (root_args 0 0 1 0 0 1) example_heap = Some (None, h1) /\
       run_function stand_in_exp stand_in_log regression_module fuel 0
         (root_args 0 0 1 0 1 2) h1 = Some (None, h')) /\
    forall o, h' 0%nat o = example_heap 0%nat o.
Proof.
  split; [vm_compute; reflexivity|]. split; [reflexivity|].
  split; [discriminate|]. split; [unfold INT_MIN, two31; lia|].
  split; [lia|]. split; [reflexivity|].
  destruct (C8_range_and_batching example_py_float stand_in_exp stand_in_log
              regression_forest empty_module regression_module 0 0 1 0 0 1 2
              example_heap
              ltac:(vm_compute; reflexivity) ltac:(reflexivity) ltac:(discriminate)
              ltac:(unfold INT_MIN, two31; lia) ltac:(lia) ltac:(reflexivity))
    as (h1 & h' & Hrun & _ & Hdata).
  exists h1, h'. split; [|exact Hdata].
  intros fuel Hfuel. destruct (Hrun fuel Hfuel) as (_ & H1 & H2). auto.
Defined.

Lemma C6_witness :
  _populate_objective_func_block example_py_float 2 (InstrRef DOUBLE 3)
    "regression" (Some "sqrt") objective_state = OK objective_block /\
  value_below (next_id (fst objective_state)) (InstrRef DOUBLE 3) /\
  spec_transform example_py_float stand_in_exp stand_in_log
    "regression" (Some "sqrt") f64_minus_four = Some f64_minus_sixteen.
Proof.
  split; [reflexivity|]. split; [simpl; lia|].
  apply (C6_objective_transform example_py_float stand_in_exp stand_in_log
           2 (InstrRef DOUBLE 3) "regression" (Some "sqrt") objective_state
           (fst objective_block) (snd objective_block) eq_refl).
  simpl. lia.
Defined.


(* ===================================================================== *)
(** * Routing of numerical nodes, by value *)
(* ===================================================================== *)

Lemma SFcompare_defined x y :
  f64_is_nan x = false -> f64_is_nan y = false -> exists c, SFcompare x y = Some c.
Proof.
  destruct x as [sx|sx| |sx mx ex], y as [sy|sy| |sy my ey];
    simpl; intros Hx Hy; try discriminate; eauto.
  all: try (destruct sx; eauto; fail).
  all: try (destruct sx, sy; eauto; fail).
Qed.

Lemma SFcompare_nan_l y : SFcompare f64_nan y = None.
Proof. reflexivity. Qed.

Lemma fcmp_eq_zero v :
  f64_is_nan v = false -> (forall s, v <> S754_zero s) ->
  fcmp_sem false CmpEq v f64_zero = false.
Proof.
  intros Hn Hz. destruct v as [s|s| |s mv ev]; try discriminate.
  - exfalso. apply (Hz s). reflexivity.
  - destruct s; reflexivity.
  - destruct s; reflexivity.
Qed.

Lemma nan_follows_default_left d v :
  f64_is_nan v = true -> numerical_decision d v = effective_default_left d.
Proof.
  intros Hn. destruct v; try discriminate.
  unfold numerical_decision. rewrite effective_default_left_if.
  destruct (if MissingType_eqb (missing_type (decision_type d)) MNone
            then SFleb f64_zero (threshold d)
            else is_default_left (decision_type d));
    destruct (negb (MissingType_eqb (missing_type (decision_type d)) MZero)
              || SFleb f64_zero (threshold d));
    destruct (negb (MissingType_eqb (missing_type (decision_type d)) MZero)
              || SFltb (threshold d) f64_zero);
    reflexivity.
Qed.

Lemma zero_under_MNone d s :
  missing_type (decision_type d) = MNone ->
  numerical_decision d (S754_zero s) = effective_default_left d.
Proof.
  intros Hmt. unfold numerical_decision, effective_default_left. rewrite Hmt.
  cbn [MissingType_eqb negb orb].
  destruct (threshold d) as [[]|[]| |[] mt et]; destruct s; reflexivity.
Qed.

Lemma ordinary_value_decision d v :
  f64_is_nan v = false ->
  f64_is_nan (threshold d) = false ->
  (missing_type (decision_type d) = MZero -> forall s, v <> S754_zero s) ->
  numerical_decision d v = SFleb v (threshold d).
Proof.
  intros Hv Ht Hz.
  destruct (SFcompare_defined v (threshold d) Hv Ht) as (c & Hc).
  assert (Hle : fcmp_sem false CmpLe v (threshold d) = SFleb v (threshold d)).
  { unfold fcmp_sem, SFleb. rewrite Hc. destruct c; reflexivity. }
  assert (Hlo : fcmp_sem true CmpLe v (threshold d) = SFleb v (threshold d)).
  { unfold fcmp_sem, SFleb. rewrite Hc. destruct c; reflexivity. }
  assert (Hgt : negb (fcmp_sem true CmpGt v (threshold d)) = SFleb v (threshold d)).
  { unfold fcmp_sem, SFleb. rewrite Hc. destruct c; reflexivity. }
  unfold numerical_decision.
  destruct (missing_type (decision_type d)) eqn:Emt; cbn [MissingType_eqb negb orb].
  - destruct (SFleb f64_zero (threshold d)); assumption.
  - rewrite (fcmp_eq_zero v Hv (Hz eq_refl)). cbn [orb].
    destruct (is_default_left (decision_type d)).
    + destruct (SFleb f64_zero (threshold d)); assumption.
    + destruct (SFltb (threshold d) f64_zero); assumption.
  - destruct (is_default_left (decision_type d)); assumption.
Qed.

(** X4.  A NaN input follows the effective [default_left] of the node, whatever
    the missing type; under [MNone] both zeros go the same way, so a NaN is
    treated as the value [0.0] there. *)
Theorem numerical_nan_routing bb d f comp f' :
  _populate_numerical_node_block bb d f = OK (comp, f') ->
  exists code,
    appended f f' bb code /\
    forall exp lg callf args fr v,
      List.length args = List.length (fargs f) ->
      node_input args d = Some (VDouble v) ->
      f64_is_nan v = true
      \/ (missing_type (decision_type d) = MNone /\ exists s, v = S754_zero s) ->
      exists fr',
        exec_instrs exp lg callf args fr code = Some fr' /\
        eval_operand args (env fr') comp
        = Some (VBool (effective_default_left d)).
Proof.
  intros H.
  destruct (@populate_numerical_spec bb d f comp f' H) as (code & Happ & _ & Hsem).
  exists code. split; [exact Happ|].
  intros exp lg callf args fr v Hl Hin Hv.
  destruct (Hsem exp lg callf args fr v Hl Hin) as (fr' & Hx & _ & Hc).
  exists fr'. split; [exact Hx|]. rewrite Hc. f_equal. f_equal.
  destruct Hv as [Hn|(Hmt & s & ->)].
  - apply nan_follows_default_left. exact Hn.
  - apply zero_under_MNone. exact Hmt.
Qed.

(** X5.  On an input that is not missing (not a NaN and, under [MZero], not a
    zero) a numerical node with a threshold that is not a NaN goes left
    exactly when [v <= threshold], in every one of the four emitted forms. *)
Theorem numerical_ordinary_routing bb d f comp f' :
  _populate_numerical_node_block bb d f = OK (comp, f') ->
  f64_is_nan (threshold d) = false ->
  exists code,
    appended f f' bb code /\
    forall exp lg callf args fr v,
      List.length args = List.length (fargs f) ->
      node_input args d = Some (VDouble v) ->
      f64_is_nan v = false ->
      (missing_type (decision_type d) = MZero -> forall s, v <> S754_zero s) ->
      exists fr',
        exec_instrs exp lg callf args fr code = Some fr' /\
        eval_operand args (env fr') comp = Some (VBool (SFleb v (threshold d))).
Proof.
  intros H Ht.
  destruct (@populate_numerical_spec bb d f comp f' H) as (code & Happ & _ & Hsem).
  exists code. split; [exact Happ|].
  intros exp lg callf args fr v Hl Hin Hv Hz.
  destruct (Hsem exp lg callf args fr v Hl Hin) as (fr' & Hx & _ & Hc).
  exists fr'. split; [exact Hx|].
  rewrite Hc, ordinary_value_decision; auto.
Qed.
(* ===================================================================== *)
(** * Whole trees *)
(* ===================================================================== *)

(** X1.  The function [gen_tree] fills computes the tree: on a row of the kinds
    its nodes expect, it returns the value of the leaf reached by following
    the decision of every node from the root, whatever the depth, and it
    leaves the memory as it was. *)
Theorem tree_function_correct tree f0 f' kinds args :
  blocks f0 = [] ->
  gen_tree tree f0 = OK (tt, f') ->
  List.length (fargs f0) = List.length kinds ->
  node_wf kinds (Tree.root_node tree) = true ->
  Forall2 arg_of_kind kinds args ->
  exists y,
    predict args (Tree.root_node tree) = Some y /\
    forall exp lg m fr fuel,
      (2 * height (Tree.root_node tree) <= fuel)%nat ->
      run_blocks exp lg m fuel f' 0 args fr = Some (Some (VDouble y), mem fr).
Proof.
  intros Hnil Hgen Hlen Hwf Hargs.
  destruct (predict_defined kinds args (Tree.root_node tree) Hargs Hwf) as (y & Hy).
  exists y. split; [exact Hy|].
  destruct (@gen_tree_sound tree f0 f' Hnil Hgen) as (_ & Hrun).
  intros exp lg m fr fuel Hfuel. apply Hrun; auto.
  rewrite Hlen. symmetry. apply (Forall2_length Hargs).
Qed.

Lemma negative_out_of_range cat v :
  32 * Z.of_nat (List.length cat) <= two31 ->
  INT_MIN <= v < 0 ->
  categorical_decision cat v = false.
Proof.
  intros Hsmall Hv. unfold categorical_decision, in_bitset_range.
  replace (to_unsigned v) with (v + two32).
  2:{ unfold to_unsigned. symmetry.
      rewrite <- (Z.mod_small (v + two32) two32) at 1
        by (unfold INT_MIN, two31, two32 in *; lia).
      rewrite <- Z.add_mod_idemp_r by (unfold two32; lia).
      rewrite Z.mod_same by (unfold two32; lia). rewrite Z.add_0_r. reflexivity. }
  rewrite to_unsigned_small by (unfold two31, two32 in *; lia).
  destruct (Z.ltb_spec (v + two32) (32 * Z.of_nat (List.length cat)));
    [unfold INT_MIN, two31, two32 in *; lia|reflexivity].
Qed.

(** X6.  A negative category (any i32 below zero, not only the [INT_MIN] a NaN
    becomes) goes right at a categorical node whose bitset has at most
    [2^26] words: as an unsigned number it is at least [2^31]. *)
Theorem negative_category_goes_right d cat l r f b name f' args v yr :
  is_categorical (decision_type d) = true ->
  cat_threshold d = Some cat ->
  32 * Z.of_nat (List.length cat) <= two31 ->
  nth_error (blocks f) b = Some (mkBlock name [] None) ->
  gen_node b (Decision d l r) f = OK (tt, f') ->
  List.length args = List.length (fargs f) ->
  node_input args d = Some (VInt v) ->
  INT_MIN <= v < 0 ->
  predict args r = Some yr ->
  forall exp lg m fr fuel,
    (2 * height (Decision d l r) <= fuel)%nat ->
    run_blocks exp lg m fuel f' b args fr = Some (Some (VDouble yr), mem fr).
Proof.
  intros Ecat Hcat Hsmall Hb Hgen Hlen Hin Hv Hr exp lg m fr fuel Hfuel.
  destruct (gen_node_sound (Decision d l r) _ _ Hb Hgen)
    as (_ & _ & _ & Hrun).
  apply Hrun; auto.
  rewrite (@predict_categorical args d cat v l r Ecat Hcat Hin).
  rewrite negative_out_of_range; auto.
Qed.
(* ===================================================================== *)
(** * What generation does to the blocks, and when it raises *)
(* ===================================================================== *)

Lemma same_signature_refl f : same_signature f f.
Proof. repeat split. Qed.

Lemma same_signature_trans f1 f2 f3 :
  same_signature f1 f2 -> same_signature f2 f3 -> same_signature f1 f3.
Proof. intros (A & B & C) (A' & B' & C'). repeat split; congruence. Qed.

Lemma evolves_trans s1 s2 f1 f2 f3 :
  evolves s1 f1 f2 -> evolves s2 f2 f3 -> evolves (fun l => s2 (s1 l)) f1 f3.
Proof.
  intros (S1 & H1) (S2 & H2). split.
  - eapply same_signature_trans; eauto.
  - rewrite H2, H1. reflexivity.
Qed.

Lemma map_update_nth {A B} (g : A -> B) (u : A -> A) (v : B -> B) :
  (forall a, g (u a) = v (g a)) ->
  forall l n, map g (update_nth l n u) = update_nth (map g l) n v.
Proof.
  intros Hg. induction l as [|a l IH]; intros [|n]; simpl; auto.
  - rewrite Hg. reflexivity.
  - rewrite IH. reflexivity.
Qed.

Lemma update_nth_id {A} (u : A -> A) :
  (forall a, u a = a) -> forall l n, update_nth l n u = l.
Proof.
  intros Hu. induction l as [|a l IH]; intros [|n]; simpl; auto.
  - rewrite Hu. reflexivity.
  - rewrite IH. reflexivity.
Qed.

Lemma emit_evolves bb ty i f :
  exists f', emit bb ty i f = OK (InstrRef ty (next_id f), f') /\ evolves (fun l => l) f f'.
Proof.
  eexists. split; [reflexivity|]. split; [repeat split|].
  unfold shape. cbn [blocks with_blocks].
  rewrite (map_update_nth _ _ (fun x => x)) by reflexivity.
  apply update_nth_id. reflexivity.
Qed.

Lemma terminate_evolves bb t f :
  exists f', terminate bb t f = OK (tt, f') /\ evolves (set_true bb) f f'.
Proof.
  eexists. split; [reflexivity|]. split; [repeat split|].
  unfold shape, set_true. cbn [blocks with_blocks].
  apply map_update_nth. reflexivity.
Qed.

Lemma append_evolves name f :
  exists f', append_basic_block name f = OK (List.length (shape f), f') /\
             evolves (fun l => l ++ [false]) f f'.
Proof.
  eexists. split.
  - unfold append_basic_block, shape. rewrite length_map. reflexivity.
  - split; [repeat split|]. unfold shape. cbn [blocks with_blocks].
    rewrite map_app. reflexivity.
Qed.

Lemma py_index_lt n i j : py_index n i = Some j -> (j < n)%nat.
Proof.
  unfold py_index.
  destruct ((0 <=? (if i <? 0 then i + Z.of_nat n else i))
            && ((if i <? 0 then i + Z.of_nat n else i) <? Z.of_nat n)) eqn:E;
    [|discriminate].
  intros H; inversion H; subst. apply andb_true_iff in E. destruct E as [E1 E2].
  apply Z.leb_le in E1. apply Z.ltb_lt in E2. lia.
Qed.

Lemma func_arg_outcome i f :
  match py_index (List.length (fargs f)) i with
  | None => func_arg i f = Raise IndexError
  | Some j => exists ty, func_arg i f = OK (Argument ty j, f)
  end.
Proof.
  unfold func_arg. destruct (py_index _ i) as [j|] eqn:E; [|reflexivity].
  apply py_index_lt in E.
  destruct (nth_error (fargs f) j) as [ty|] eqn:En; [eauto|].
  apply nth_error_None in En. lia.
Qed.

Ltac step_with E :=
  rewrite (bind_ok _ _ _ _ _ E).

Lemma numerical_outcome bb d f :
  match py_index (List.length (fargs f)) (split_feature d) with
  | None => _populate_numerical_node_block bb d f = Raise IndexError
  | Some _ => exists comp f',
      _populate_numerical_node_block bb d f = OK (comp, f') /\
      evolves (fun l => l) f f'
  end.
Proof.
  unfold _populate_numerical_node_block.
  pose proof (func_arg_outcome (split_feature d) f) as Ha.
  destruct (py_index _ _) as [j|]; [|apply bind_raise; exact Ha].
  destruct Ha as (ty & Ha). step_with Ha.
  unfold fcmp_unordered, fcmp_ordered, or_, not_, xor.
  repeat match goal with
  | |- context [if ?c then _ else _] => destruct c
  end;
  repeat match goal with
  | |- exists comp f', bind (emit ?bb ?ty ?i) _ ?s = _ /\ _ =>
      let f1 := fresh "f" in let E := fresh "E" in let V := fresh "V" in
      destruct (emit_evolves bb ty i s) as (f1 & E & V); step_with E
  | |- exists comp f', emit ?bb ?ty ?i ?s = _ /\ _ =>
      let f1 := fresh "f" in let E := fresh "E" in let V := fresh "V" in
      destruct (emit_evolves bb ty i s) as (f1 & E & V);
      eexists; eexists; split; [exact E|]
  end;
  repeat match goal with
  | V1 : evolves _ ?a ?b, V2 : evolves _ ?b ?c |- _ =>
      let V := fresh "V" in
      pose proof (evolves_trans _ _ _ _ _ V1 V2) as V; cbv beta in V; clear V1 V2
  end; assumption.
Qed.

Lemma categorical_outcome b cb d rb f :
  match py_index (List.length (fargs f)) (split_feature d) with
  | None => _populate_categorical_node_block b cb d cb (Some rb) f = Raise IndexError
  | Some _ =>
      match cat_threshold d with
      | None => _populate_categorical_node_block b cb d cb (Some rb) f = Raise TypeError
      | Some _ => exists comp f',
          _populate_categorical_node_block b cb d cb (Some rb) f = OK (comp, f') /\
          evolves (set_true b) f f'
      end
  end.
Proof.
  unfold _populate_categorical_node_block.
  pose proof (func_arg_outcome (split_feature d) f) as Ha.
  destruct (py_index _ _) as [j|]; [|apply bind_raise; exact Ha].
  destruct Ha as (ty & Ha).
  destruct (cat_threshold d) as [cat|]; step_with Ha; [|reflexivity].
  unfold icmp_unsigned, cbranch, udiv, urem, extract_element, lshr, trunc.
  match goal with
  | |- exists comp f', bind (emit ?bb ?ty ?i) _ ?s = _ /\ _ =>
      destruct (emit_evolves bb ty i s) as (f1 & E1 & V1); step_with E1
  end.
  match goal with
  | |- exists comp f', bind (terminate ?bb ?t) _ ?s = _ /\ _ =>
      destruct (terminate_evolves bb t s) as (f2 & E2 & V2); step_with E2
  end.
  repeat match goal with
  | |- exists comp f', bind (emit ?bb ?ty ?i) _ ?s = _ /\ _ =>
      let f1 := fresh "f" in let E := fresh "E" in let V := fresh "V" in
      destruct (emit_evolves bb ty i s) as (f1 & E & V); step_with E
  | |- exists comp f', emit ?bb ?ty ?i ?s = _ /\ _ =>
      let f1 := fresh "f" in let E := fresh "E" in let V := fresh "V" in
      destruct (emit_evolves bb ty i s) as (f1 & E & V);
      eexists; eexists; split; [exact E|]
  end.
  repeat match goal with
  | V1 : evolves _ ?a ?b, V2 : evolves _ ?b ?c |- _ =>
      let V := fresh "V" in
      pose proof (evolves_trans _ _ _ _ _ V1 V2) as V; cbv beta in V; clear V1 V2
  end; assumption.
Qed.
Lemma set_true_length b l : List.length (set_true b l) = List.length l.
Proof. apply update_nth_length. Qed.

Lemma set_true_app_l b l r :
  (b < List.length l)%nat -> set_true b (l ++ r) = set_true b l ++ r.
Proof.
  unfold set_true. revert b. induction l as [|a l IH]; intros [|b] H; simpl in *;
    try lia; auto.
  rewrite IH by lia. reflexivity.
Qed.

Lemma set_true_app_r k l r :
  set_true (List.length l + k) (l ++ r) = l ++ set_true k r.
Proof.
  unfold set_true. induction l as [|a l IH]; simpl; auto.
  rewrite IH. reflexivity.
Qed.

Lemma set_true_tail (l0 L : list bool) n k r :
  List.length L = List.length l0 -> n = (List.length l0 + k)%nat ->
  set_true n (L ++ r) = L ++ set_true k r.
Proof. intros HL ->. rewrite <- HL. apply set_true_app_r. Qed.

Ltac tail k :=
  match goal with
  | |- context [set_true ?n (set_true ?b ?l ++ ?r)] =>
      rewrite (set_true_tail l (set_true b l) n k r)
        by (first [apply set_true_length | lia])
  end.

Lemma evolves_signature st f f' : evolves st f f' -> same_signature f f'.
Proof. intros [S _]; exact S. Qed.

Lemma evolves_fargs st f f' : evolves st f f' -> fargs f' = fargs f.
Proof. intros [(_ & _ & A) _]; exact A. Qed.

Ltac run E := rewrite E; cbn [fst snd]; cbv beta iota.

(** The outcome of [gen_node], error or blocks, read off the tree. *)
Lemma gen_node_outcome n : forall b f,
  match first_error (List.length (fargs f)) n with
  | Some e => gen_node b n f = Raise e
  | None =>
      exists f',
        gen_node b n f = OK (tt, f') /\
        same_signature f f' /\
        ((b < List.length (shape f))%nat ->
         shape f' = set_true b (shape f) ++ repeat true (new_blocks n))
  end.
Proof.
  induction n as [leaf|d l IHl r IHr]; intros b f.
  - cbn [first_error gen_node new_blocks repeat]. unfold _gen_leaf_node, builder_ret.
    destruct (terminate_evolves b (Ret (dconst (value leaf))) f) as (f' & E & S & Sh).
    exists f'. split; [exact E|]. split; [exact S|].
    intros _. rewrite Sh, app_nil_r. reflexivity.
  - cbn [first_error gen_node new_blocks]. unfold _gen_decision_node.
    destruct (is_leaf l && is_leaf r) eqn:Efuse;
      destruct (is_categorical (decision_type d)) eqn:Ecat.
    + (* categorical, fused *)
      destruct l as [ll|]; [|discriminate Efuse].
      destruct r as [lr|]; [|discriminate Efuse].
      cbn [first_error].
      destruct (append_evolves (Node_str (Leaf lr)) f) as (f1 & E1 & V1).
      destruct (append_evolves
                  (String.append (DecisionNode_str d) "_cat_bitset_comp") f1)
        as (f2 & E2 & V2).
      pose proof (categorical_outcome b (List.length (shape f1)) d
                    (List.length (shape f)) f2) as P.
      rewrite (evolves_fargs _ _ _ V2), (evolves_fargs _ _ _ V1) in P.
      unfold bind, ret. run E1. run E2.
      destruct (py_index _ (split_feature d)) as [j|]; [|run P; reflexivity].
      destruct (cat_threshold d) as [cat|]; [|run P; reflexivity].
      destruct P as (comp & f3 & P & V3). run P.
      unfold leaf_value, ret, select, builder_ret. cbv beta iota.
      match goal with
      | |- context [emit ?bb ?ty ?i f3] =>
          destruct (emit_evolves bb ty i f3) as (f4 & E4 & V4); run E4
      end.
      match goal with
      | |- context [terminate ?bb ?t f4] =>
          destruct (terminate_evolves bb t f4) as (f5 & E5 & V5); run E5
      end.
      cbn [gen_node]. unfold _gen_leaf_node, builder_ret.
      match goal with
      | |- context [terminate ?bb ?t f5] =>
          destruct (terminate_evolves bb t f5) as (f6 & E6 & V6); run E6
      end.
      exists f6. split; [reflexivity|]. split.
      { repeat (eapply same_signature_trans; [eapply evolves_signature; eassumption|]).
        apply same_signature_refl. }
      intros Hb.
      destruct V1 as [_ S1], V2 as [_ S2], V3 as [_ S3], V4 as [_ S4],
               V5 as [_ S5], V6 as [_ S6].
      rewrite S6, S5, S4, S3, S2, S1.
      rewrite length_app. cbn [List.length].
      rewrite <- app_assoc. cbn [app].
      rewrite set_true_app_l by exact Hb.
      tail 1%nat. cbn [set_true update_nth]. tail 0%nat. reflexivity.
    + (* numerical, fused *)
      destruct l as [ll|]; [|discriminate Efuse].
      destruct r as [lr|]; [|discriminate Efuse].
      cbn [first_error].
      pose proof (numerical_outcome b d f) as P.
      unfold bind, ret. cbn [fst snd]. cbv beta iota.
      destruct (py_index _ (split_feature d)) as [j|]; [|run P; reflexivity].
      destruct P as (comp & f3 & P & V3). run P.
      unfold leaf_value, ret, select, builder_ret. cbv beta iota.
      match goal with
      | |- context [emit ?bb ?ty ?i f3] =>
          destruct (emit_evolves bb ty i f3) as (f4 & E4 & V4); run E4
      end.
      match goal with
      | |- context [terminate ?bb ?t f4] =>
          destruct (terminate_evolves bb t f4) as (f5 & E5 & V5); run E5
      end.
      exists f5. split; [reflexivity|]. split.
      { repeat (eapply same_signature_trans; [eapply evolves_signature; eassumption|]).
        apply same_signature_refl. }
      intros Hb.
      destruct V3 as [_ S3], V4 as [_ S4], V5 as [_ S5].
      rewrite S5, S4, S3. cbn [repeat Nat.add]. rewrite app_nil_r. reflexivity.
    + (* categorical, children in their own blocks *)
      destruct (append_evolves (Node_str l) f) as (f1 & E1 & V1).
      destruct (append_evolves (Node_str r) f1) as (f2 & E2 & V2).
      destruct (append_evolves
                  (String.append (DecisionNode_str d) "_cat_bitset_comp") f2)
        as (f3 & E3 & V3).
      pose proof (categorical_outcome b (List.length (shape f2)) d
                    (List.length (shape f1)) f3) as P.
      rewrite (evolves_fargs _ _ _ V3), (evolves_fargs _ _ _ V2),
        (evolves_fargs _ _ _ V1) in P.
      unfold bind, ret. run E1. run E2. run E3.
      destruct (py_index _ (split_feature d)) as [j|]; [|run P; reflexivity].
      destruct (cat_threshold d) as [cat|]; [|run P; reflexivity].
      destruct P as (comp & f4 & P & V4). run P.
      unfold cbranch.
      match goal with
      | |- context [terminate ?bb ?t f4] =>
          destruct (terminate_evolves bb t f4) as (f5 & E5 & V5); run E5
      end.
      pose proof (IHl (List.length (shape f)) f5) as Pl.
      rewrite (evolves_fargs _ _ _ V5), (evolves_fargs _ _ _ V4),
        (evolves_fargs _ _ _ V3), (evolves_fargs _ _ _ V2),
        (evolves_fargs _ _ _ V1) in Pl.
      destruct (first_error _ l) as [e|]; [run Pl; reflexivity|].
      destruct Pl as (f6 & Pl & S6 & Sh6). run Pl.
      pose proof (IHr (List.length (shape f1)) f6) as Pr.
      destruct S6 as (N6 & R6 & A6).
      rewrite A6, (evolves_fargs _ _ _ V5), (evolves_fargs _ _ _ V4),
        (evolves_fargs _ _ _ V3), (evolves_fargs _ _ _ V2),
        (evolves_fargs _ _ _ V1) in Pr.
      destruct (first_error _ r) as [e|]; [run Pr; reflexivity|].
      destruct Pr as (f7 & Pr & S7 & Sh7). run Pr.
      exists f7. split; [reflexivity|]. split.
      { repeat (eapply same_signature_trans; [eapply evolves_signature; eassumption|]).
        eapply same_signature_trans; [|exact S7]. repeat split; assumption. }
      intros Hb.
      destruct V1 as [_ S1], V2 as [_ S2], V3 as [_ S3], V4 as [_ S4], V5 as [_ S5].
      assert (Sh5 : shape f5 = set_true b (shape f) ++ [false; false; true]).
      { rewrite S5, S4, S3, S2, S1.
        rewrite !length_app. cbn [List.length].
        rewrite <- !app_assoc. cbn [app].
        rewrite set_true_app_l by exact Hb.
        tail 2%nat. reflexivity. }
      assert (Sh6' : shape f6
                     = set_true b (shape f) ++ [true; false; true]
                       ++ repeat true (new_blocks l)).
      { rewrite Sh6 by (rewrite Sh5, length_app, set_true_length; cbn [List.length]; lia).
        rewrite Sh5. tail 0%nat. rewrite <- app_assoc. reflexivity. }
      rewrite Sh7 by (rewrite Sh6', S1, !length_app, set_true_length;
                      cbn [List.length]; lia).
      rewrite Sh6', S1, length_app. cbn [List.length].
      tail 1%nat. cbn [set_true update_nth app].
      rewrite <- !app_assoc. cbn [app Nat.add repeat].
      rewrite repeat_app. reflexivity.
    + (* numerical, children in their own blocks *)
      destruct (append_evolves (Node_str l) f) as (f1 & E1 & V1).
      destruct (append_evolves (Node_str r) f1) as (f2 & E2 & V2).
      pose proof (numerical_outcome b d f2) as P.
      rewrite (evolves_fargs _ _ _ V2), (evolves_fargs _ _ _ V1) in P.
      unfold bind, ret. run E1. run E2.
      destruct (py_index _ (split_feature d)) as [j|]; [|run P; reflexivity].
      destruct P as (comp & f4 & P & V4). run P.
      unfold cbranch.
      match goal with
      | |- context [terminate ?bb ?t f4] =>
          destruct (terminate_evolves bb t f4) as (f5 & E5 & V5); run E5
      end.
      pose proof (IHl (List.length (shape f)) f5) as Pl.
      rewrite (evolves_fargs _ _ _ V5), (evolves_fargs _ _ _ V4),
        (evolves_fargs _ _ _ V2), (evolves_fargs _ _ _ V1) in Pl.
      destruct (cat_threshold d); (
      destruct (first_error _ l) as [e|]; [run Pl; reflexivity|];
      destruct Pl as (f6 & Pl & S6 & Sh6); run Pl;
      pose proof (IHr (List.length (shape f1)) f6) as Pr;
      destruct S6 as (N6 & R6 & A6);
      rewrite A6, (evolves_fargs _ _ _ V5), (evolves_fargs _ _ _ V4),
        (evolves_fargs _ _ _ V2), (evolves_fargs _ _ _ V1) in Pr;
      destruct (first_error _ r) as [e|]; [run Pr; reflexivity|];
      destruct Pr as (f7 & Pr & S7 & Sh7); run Pr;
      exists f7; split; [reflexivity|]; split;
      [ repeat (eapply same_signature_trans; [eapply evolves_signature; eassumption|]);
        eapply same_signature_trans; [|exact S7]; repeat split; assumption |];
      intros Hb;
      destruct V1 as [_ S1], V2 as [_ S2], V4 as [_ S4], V5 as [_ S5];
      assert (Sh5 : shape f5 = set_true b (shape f) ++ [false; false])
        by (rewrite S5, S4, S2, S1; rewrite <- !app_assoc; cbn [app];
            apply set_true_app_l; exact Hb);
      assert (Sh6' : shape f6
                     = set_true b (shape f) ++ [true; false]
                       ++ repeat true (new_blocks l))
        by (rewrite Sh6 by (rewrite Sh5, length_app, set_true_length; cbn [List.length]; lia);
            rewrite Sh5; tail 0%nat; rewrite <- app_assoc; reflexivity);
      rewrite Sh7 by (rewrite Sh6', S1, !length_app, set_true_length;
                      cbn [List.length]; lia);
      rewrite Sh6', S1, length_app; cbn [List.length];
      tail 1%nat; cbn [set_true update_nth app];
      rewrite <- !app_assoc; cbn [app Nat.add repeat];
      rewrite repeat_app; reflexivity).
Qed.
Lemma gen_tree_outcome tree f :
  match first_error (List.length (fargs f)) (Tree.root_node tree) with
  | Some e => gen_tree tree f = Raise e
  | None =>
      exists f',
        gen_tree tree f = OK (tt, f') /\
        same_signature f f' /\
        shape f' = shape f ++ repeat true (1 + new_blocks (Tree.root_node tree))
  end.
Proof.
  unfold gen_tree.
  destruct (append_evolves (Node_str (Tree.root_node tree)) f) as (f1 & E1 & S1 & Sh1).
  rewrite (bind_ok _ _ _ _ _ E1).
  pose proof (gen_node_outcome (Tree.root_node tree) (List.length (shape f)) f1) as P.
  destruct S1 as (N1 & R1 & A1). rewrite A1 in P.
  destruct (first_error _ _) as [e|]; [exact P|].
  destruct P as (f' & P & S & Sh). exists f'. split; [exact P|]. split.
  - eapply same_signature_trans; [|exact S]. repeat split; assumption.
  - rewrite Sh by (rewrite Sh1, length_app; cbn [List.length]; lia).
    rewrite Sh1.
    rewrite <- (Nat.add_0_r (List.length (shape f))).
    rewrite set_true_app_r. cbn [set_true update_nth Nat.add repeat].
    rewrite <- app_assoc. reflexivity.
Qed.




(* ===================================================================== *)
(** * The module [gen_forest] leaves, and the errors it raises *)
(* ===================================================================== *)

Lemma fstep_on_emit bb ty i : fstep (fun l => l) (on_func (emit bb ty i)).
Proof.
  intros s a s' H. unfold on_func in H.
  destruct (emit_evolves bb ty i (fst s)) as (f' & E & S & _). rewrite E in H.
  inversion H; subst. auto.
Qed.

Lemma fstep_on_terminate bb t : fstep (fun l => l) (on_func (terminate bb t)).
Proof.
  intros s a s' H. unfold on_func in H.
  destruct (terminate_evolves bb t (fst s)) as (f' & E & S & _). rewrite E in H.
  inversion H; subst. auto.
Qed.

Lemma fstep_ret {A} (a : A) : fstep (fun l => l) (ret a).
Proof.
  intros s x s' H. inversion H; subst. split; [apply same_signature_refl|reflexivity].
Qed.

Lemma fstep_raise {A} e : fstep (fun l => l) (raise e : M fstate A).
Proof. intros s x s' H. discriminate H. Qed.

Lemma fstep_declare i : fstep (declare i) (declare_intrinsic i).
Proof.
  intros s a s' H. unfold declare_intrinsic in H. inversion H; subst.
  split; [apply same_signature_refl|reflexivity].
Qed.

Lemma fstep_bind {A B} g1 g2 g (c : M fstate A) (k : A -> M fstate B) :
  (forall l, g l = g2 (g1 l)) ->
  fstep g1 c -> (forall a, fstep g2 (k a)) -> fstep g (bind c k).
Proof.
  intros Hg Hc Hk s b s' H. apply bind_inv in H. destruct H as (a & s1 & E & H).
  destruct (Hc _ _ _ E) as [S1 D1]. destruct (Hk a _ _ _ H) as [S2 D2].
  split; [eapply same_signature_trans; eauto|]. rewrite D2, D1, Hg. reflexivity.
Qed.

Lemma fstep_seq {A B} (c : M fstate A) (k : A -> M fstate B) :
  fstep (fun l => l) c -> (forall a, fstep (fun l => l) (k a)) ->
  fstep (fun l => l) (bind c k).
Proof. apply fstep_bind. reflexivity. Qed.

Lemma fstep_mapM {A B} (g : A -> M fstate B) l :
  (forall a, fstep (fun l => l) (g a)) -> fstep (fun l => l) (mapM g l).
Proof.
  intros Hg. induction l as [|a l IH]; simpl.
  - apply fstep_ret.
  - apply fstep_seq; [apply Hg|]. intros b.
    apply fstep_seq; [exact IH|]. intros bs. apply fstep_ret.
Qed.

Lemma fstep_foldM {A B} (g : B -> A -> M fstate B) l :
  (forall b a, fstep (fun l => l) (g b a)) -> forall b, fstep (fun l => l) (foldM g l b).
Proof.
  intros Hg. induction l as [|a l IH]; intros b; simpl.
  - apply fstep_ret.
  - apply fstep_seq; [apply Hg|]. intros b'. apply IH.
Qed.

Ltac fsteps :=
  repeat first
    [ apply fstep_on_emit
    | apply fstep_on_terminate
    | apply fstep_ret
    | apply fstep_raise
    | apply fstep_seq; [|intro]
    | match goal with
      | |- fstep _ (if ?c then _ else _) => destruct c
      | |- fstep _ (match ?c with Some _ => _ | None => _ end) => destruct c
      end ].

Lemma fstep_objective py_float builder input objective config :
  fstep declare_objective_intrinsics
        (_populate_objective_func_block py_float builder input objective config).
Proof.
  unfold _populate_objective_func_block, declare_objective_intrinsics.
  apply fstep_bind with (g1 := declare llvm_exp)
    (g2 := fun l => declare llvm_copysign (declare llvm_log l));
    [reflexivity|apply fstep_declare|]. intros e1.
  apply fstep_bind with (g1 := declare llvm_log) (g2 := declare llvm_copysign);
    [reflexivity|apply fstep_declare|]. intros e2.
  apply fstep_bind with (g1 := declare llvm_copysign) (g2 := fun l => l);
    [reflexivity|apply fstep_declare|]. intros e3.
  unfold _populate_sigmoid, fmul, call, fadd, fdiv.
  fsteps.
Qed.

Lemma fstep_core_body py_float forest tree_funcs builder data_arr out_arr loop_iter cb tb :
  fstep declare_objective_intrinsics
        (core_body py_float forest tree_funcs builder data_arr out_arr loop_iter cb tb).
Proof.
  unfold core_body, load, mul, add, gep, builder_fptosi, call, fadd, store, branch,
    ret_void.
  apply fstep_bind with (g1 := fun l => l) (g2 := declare_objective_intrinsics);
    [reflexivity|apply fstep_on_emit|]. intros lir.
  apply fstep_bind with (g1 := fun l => l) (g2 := declare_objective_intrinsics);
    [reflexivity|apply fstep_on_emit|]. intros imn.
  apply fstep_bind with (g1 := fun l => l) (g2 := declare_objective_intrinsics);
    [reflexivity|apply fstep_mapM; intros a; fsteps|]. intros raw_ptrs.
  apply fstep_bind with (g1 := fun l => l) (g2 := declare_objective_intrinsics);
    [reflexivity|apply fstep_mapM; intros a; fsteps|]. intros argvals.
  destruct tree_funcs as [|tf0 rest]; [intros s a s' H; discriminate H|].
  apply fstep_bind with (g1 := fun l => l) (g2 := declare_objective_intrinsics);
    [reflexivity|apply fstep_on_emit|]. intros res0.
  apply fstep_bind with (g1 := fun l => l) (g2 := declare_objective_intrinsics);
    [reflexivity|apply fstep_foldM; intros b a; fsteps|]. intros res1.
  apply fstep_bind with (g1 := fun l => l) (g2 := declare_objective_intrinsics);
    [reflexivity|apply fstep_on_emit|]. intros ptr.
  apply fstep_bind with (g1 := declare_objective_intrinsics) (g2 := fun l => l);
    [reflexivity|apply fstep_objective|]. intros res2.
  fsteps.
Qed.
Lemma existsb_map {A B} (p : B -> bool) (g : A -> B) l :
  existsb p (map g l) = existsb (fun a => p (g a)) l.
Proof. induction l as [|a l IH]; simpl; [reflexivity|]. rewrite IH. reflexivity. Qed.

Lemma ir_Function_outcome ret_ty arg_tys name m :
  ir_Function ret_ty arg_tys name m
  = if existsb (fun s => String.eqb s name) (map fname (functions m))
    then Raise (DuplicatedNameError name)
    else OK (List.length (functions m),
             mkModule (functions m ++ [mkFunction name ret_ty arg_tys [] 0])
                      (intrinsics m)).
Proof. unfold ir_Function. rewrite existsb_map. reflexivity. Qed.

Lemma shape_all_terminated f n : shape f = repeat true n -> all_terminated f.
Proof.
  unfold all_terminated, shape. revert n.
  induction (blocks f) as [|blk bs IH]; intros n H; [constructor|].
  destruct n as [|n]; [discriminate H|]. cbn [map repeat] in H.
  injection H as H1 H2.
  constructor; [destruct (term blk); congruence|].
  apply (IH n H2).
Qed.

Lemma make_tree_outcome tree m :
  if existsb (fun s => String.eqb s (Tree.str tree)) (map fname (functions m))
  then make_tree tree m = Raise (DuplicatedNameError (Tree.str tree))
  else
    match first_error (List.length (Tree.features tree)) (Tree.root_node tree) with
    | Some e => make_tree tree m = Raise e
    | None =>
        exists ft,
          make_tree tree m
          = OK (FuncRef (List.length (functions m)) DOUBLE,
                mkModule (functions m ++ [ft]) (intrinsics m)) /\
          tree_signature ft tree /\ all_terminated ft
    end.
Proof.
  unfold make_tree, bind, ret. rewrite ir_Function_outcome.
  destruct (existsb _ _); [reflexivity|].
  unfold in_function. cbn [functions intrinsics].
  rewrite nth_error_app_last. unfold on_func. cbn [fst snd].
  match goal with
  | |- context [gen_tree tree ?f0] => pose proof (gen_tree_outcome tree f0) as P
  end.
  cbn [fargs] in P. rewrite length_map in P.
  destruct (first_error _ _) as [e|].
  - rewrite P. reflexivity.
  - destruct P as (ft & P & (N & R & A) & Sh). rewrite P.
    cbn [functions intrinsics]. rewrite update_nth_app_last.
    exists ft. split; [reflexivity|]. split; [repeat split; assumption|].
    eapply shape_all_terminated. rewrite Sh. reflexivity.
Qed.

Lemma mapM_make_tree_outcome trees : forall m,
  match trees_error (map fname (functions m)) trees with
  | Some e => mapM make_tree trees m = Raise e
  | None =>
      exists fts,
        mapM make_tree trees m
        = OK (map (fun i => FuncRef (List.length (functions m) + i) DOUBLE)
                  (seq 0 (List.length trees)),
              mkModule (functions m ++ fts) (intrinsics m)) /\
        Forall2 tree_signature fts trees /\ Forall all_terminated fts
  end.
Proof.
  induction trees as [|t trees IH]; intros m.
  - cbn [trees_error mapM]. exists []. rewrite app_nil_r. destruct m.
    repeat split; constructor.
  - cbn [trees_error mapM]. pose proof (make_tree_outcome t m) as P.
    destruct (existsb _ _); [apply bind_raise; exact P|].
    destruct (first_error _ _) as [e|]; [apply bind_raise; exact P|].
    destruct P as (ft & P & Sg & Tm). rewrite (bind_ok _ _ _ _ _ P).
    specialize (IH (mkModule (functions m ++ [ft]) (intrinsics m))).
    cbn [functions intrinsics] in IH. rewrite map_app in IH. cbn [map] in IH.
    destruct Sg as (N & R & A). rewrite N in IH.
    destruct (trees_error _ trees) as [e|]; [apply bind_raise; exact IH|].
    destruct IH as (fts & IH & Sgs & Tms). rewrite (bind_ok _ _ _ _ _ IH).
    exists (ft :: fts). split; [|split; constructor; auto; repeat split; auto].
    unfold ret. rewrite <- app_assoc. cbn [app List.length seq map].
    rewrite Nat.add_0_r. f_equal. f_equal. f_equal.
    rewrite <- seq_shift, map_map. apply map_ext. intros i.
    rewrite length_app. cbn [List.length]. f_equal. lia.
Qed.

Section ForestOutcome.

Variable py_float : string -> option f64.

Lemma core_body_outcome forest tree_funcs builder data_arr out_arr loop_iter cb tb s :
  match tree_funcs with
  | [] =>
      core_body py_float forest tree_funcs builder data_arr out_arr loop_iter cb tb s
      = Raise IndexError
  | _ :: _ =>
      match objective_error py_float (Forest.objective_func forest)
              (Forest.objective_func_config forest) with
      | Some e =>
          core_body py_float forest tree_funcs builder data_arr out_arr loop_iter cb tb s
          = Raise e
      | None =>
          exists s',
            core_body py_float forest tree_funcs builder data_arr out_arr loop_iter
              cb tb s = OK (tt, s')
      end
  end.
Proof.
  destruct tree_funcs as [|tf0 rest].
  - unfold core_body.
    destruct (total_emit builder (pointee_of (type_of loop_iter)) (Load loop_iter) s)
      as (lir & s1 & E1).
    unfold load at 1. rewrite (bind_ok _ _ _ _ _ E1).
    destruct (total_emit builder (type_of lir)
                (Mul lir (Constant INT (PyInt (Z.of_nat (Forest.n_args forest))))) s1)
      as (imn & s2 & E2).
    unfold mul at 1. rewrite (bind_ok _ _ _ _ _ E2).
    match goal with
    | |- bind ?c _ s2 = _ => assert (T3 : total c)
    end.
    { apply total_mapM. intros a. apply total_bind; [apply total_emit|].
      intros c. apply total_emit. }
    destruct (T3 s2) as (raw_ptrs & s3 & E3). rewrite (bind_ok _ _ _ _ _ E3).
    match goal with
    | |- bind ?c _ s3 = _ => assert (T4 : total c)
    end.
    { apply total_mapM. intros a. apply total_bind; [apply total_emit|].
      intros el. destruct (Feature.is_categorical (fst a));
        [apply total_emit|apply total_ret]. }
    destruct (T4 s3) as (argvals & s4 & E4). rewrite (bind_ok _ _ _ _ _ E4).
    reflexivity.
  - pose proof (core_body_result py_float forest (tf0 :: rest) builder data_arr
                  out_arr loop_iter cb tb s ltac:(discriminate)) as R.
    destruct (core_body _ _ _ _ _ _ _ _ _ s) as [[u s']|e].
    + destruct R as [-> R]. rewrite R. eauto.
    + rewrite R. reflexivity.
Qed.

Lemma populate_forest_func_kept forest tree_funcs decls f' decls' :
  _populate_forest_func py_float forest tree_funcs (root0, decls)
  = OK (tt, (f', decls')) ->
  same_signature root0 f' /\
  decls' = declare_objective_intrinsics decls /\
  all_terminated f'.
Proof.
  intros H. pose proof H as H0.
  apply (populate_forest_func_spec py_float (fun x => x) (fun x => x)) in H0.
  destruct H0 as (code & B0 & B1 & B2 & B3 & _).
  rewrite populate_forest_func_unfold in H.
  pose proof H as H1.
  apply fstep_core_body in H. destruct H as [S D]. cbn [fst snd] in S, D.
  apply (core_body_spec py_float (fun x => x) (fun x => x)) in H1;
    [|exact I|exact I|simpl; lia].
  destruct H1 as (c & fa & fb & (_ & La & _) & (_ & Lb & _) & (_ & Lc & _) & _).
  cbn [fst] in *.
  split; [exact S|]. split; [exact D|].
  unfold all_terminated.
  assert (L : List.length (blocks f') = 4%nat).
  { rewrite Lc, Lb, La. reflexivity. }
  destruct (blocks f') as [|b0 [|b1 [|b2 [|b3 [|b4 bs]]]]]; try discriminate L.
  cbn [nth_error] in B0, B1, B2, B3.
  inversion B0; inversion B1; inversion B2; inversion B3; subst.
  repeat constructor; discriminate.
Qed.

(** The outcome of [gen_forest], error or module. *)
Lemma gen_forest_outcome forest m :
  match gen_forest_error py_float forest m with
  | Some e => gen_forest py_float forest m = Raise e
  | None =>
      exists root fts,
        gen_forest py_float forest m
        = OK (tt, mkModule ((functions m ++ [root]) ++ fts)
                    (declare_objective_intrinsics (intrinsics m))) /\
        same_signature root0 root /\ all_terminated root /\
        Forall2 tree_signature fts (Forest.trees forest) /\
        Forall all_terminated fts
  end.
Proof.
  unfold gen_forest_error, gen_forest, bind. rewrite ir_Function_outcome.
  destruct (existsb _ _); [reflexivity|].
  match goal with
  | |- context [mapM make_tree _ ?m1] =>
      pose proof (mapM_make_tree_outcome (Forest.trees forest) m1) as P
  end.
  cbn [functions intrinsics] in P. rewrite map_app in P. cbn [map fname] in P.
  destruct (trees_error _ _) as [e|]; [rewrite P; reflexivity|].
  destruct P as (fts & P & Sgs & Tms). rewrite P.
  unfold in_function. cbn [functions intrinsics]. rewrite nth_error_app_mid.
  fold root0. rewrite populate_forest_func_unfold.
  match goal with
  | |- context [core_body _ _ ?tf ?b ?d ?o ?l ?cb ?tb ?s] =>
      pose proof (core_body_outcome forest tf b d o l cb tb s) as Q;
      pose proof (populate_forest_func_kept forest tf (intrinsics m)) as K
  end.
  rewrite populate_forest_func_unfold in K.
  destruct (Forest.trees forest) as [|t ts]; cbn [List.length seq map] in Q |- *.
  - rewrite Q. reflexivity.
  - destruct (objective_error _ _ _) as [e|]; [rewrite Q; reflexivity|].
    destruct Q as ([f' decls'] & Q). rewrite Q.
    cbn [List.length seq map] in K.
    destruct (K f' decls' Q) as (S & -> & T).
    exists f', fts. rewrite update_nth_app_mid.
    split; [reflexivity|]. split; [exact S|]. auto.
Qed.

End ForestOutcome.

(** X8.  The functions of the module after [gen_forest]: behind the functions
    the module had, [forest_root] of type
    [void (double*, double*, i32, i32)], then one function per tree in the
    order of [Forest.trees], named [tree_<idx>], returning [double] and
    taking an [i32] for every categorical feature and a [double] for every
    other; every block of these functions has its terminator. *)
Theorem gen_forest_module py_float forest m m' :
  gen_forest py_float forest m = OK (tt, m') ->
  exists root fts,
    functions m' = functions m ++ root :: fts /\
    fname root = "forest_root" /\
    fret root = VoidType /\
    fargs root = [DOUBLE_PTR; DOUBLE_PTR; INT; INT] /\
    Forall2 tree_signature fts (Forest.trees forest) /\
    Forall all_terminated (root :: fts).
Proof.
  intros H. pose proof (gen_forest_outcome py_float forest m) as P.
  destruct (gen_forest_error py_float forest m) as [e|]; [congruence|].
  destruct P as (root & fts & P & (N & R & A) & T & Sg & Ts).
  rewrite H in P. inversion P; subst m'; clear P.
  exists root, fts. cbn [functions]. rewrite <- app_assoc.
  repeat split; auto.
Qed.

(** X9.  [gen_forest] declares the intrinsics [llvm.exp], [llvm.log] and
    [llvm.copysign], in this order and whatever the objective is, also when
    the objective uses none of them; one that the module has already is not
    declared again, and nothing else is declared. *)
Theorem gen_forest_intrinsics py_float forest m m' :
  gen_forest py_float forest m = OK (tt, m') ->
  intrinsics m'
  = declare llvm_copysign (declare llvm_log (declare llvm_exp (intrinsics m))) /\
  (intrinsics m = [] -> intrinsics m' = [llvm_exp; llvm_log; llvm_copysign]).
Proof.
  intros H. pose proof (gen_forest_outcome py_float forest m) as P.
  destruct (gen_forest_error py_float forest m) as [e|]; [congruence|].
  destruct P as (root & fts & P & _).
  rewrite H in P. inversion P; subst m'; clear P.
  cbn [intrinsics]. split; [reflexivity|].
  intros ->. reflexivity.
Qed.

(** X10.  [gen_forest] cannot be run twice on a module: after a first successful
    run, a second run, with any forest, raises [DuplicatedNameError] for
    [forest_root]. *)
Theorem gen_forest_not_reentrant py_float forest m m' :
  gen_forest py_float forest m = OK (tt, m') ->
  forall py_float2 forest2,
    gen_forest py_float2 forest2 m' = Raise (DuplicatedNameError "forest_root").
Proof.
  intros H py_float2 forest2.
  pose proof (gen_forest_outcome py_float forest m) as P.
  destruct (gen_forest_error py_float forest m) as [e|]; [congruence|].
  destruct P as (root & fts & P & (N & _) & _).
  rewrite H in P. inversion P; subst m'; clear P.
  pose proof (gen_forest_outcome py_float2 forest2
                (mkModule ((functions m ++ [root]) ++ fts)
                          (declare_objective_intrinsics (intrinsics m)))) as Q.
  unfold gen_forest_error in Q. cbn [functions] in Q.
  replace (existsb (fun s => String.eqb s "forest_root")
             (map fname ((functions m ++ [root]) ++ fts))) with true in Q;
    [exact Q|].
  symmetry. apply existsb_exists. exists "forest_root". split; [|reflexivity].
  apply in_map_iff. exists root. split; [exact N|].
  apply in_or_app. left. apply in_or_app. right. left. reflexivity.
Qed.
(* ===================================================================== *)
(** * [forest_root] at the bounds *)
(* ===================================================================== *)

Lemma gen_forest_root py_float exp_f64 log_f64 forest m m' :
  gen_forest py_float forest m = OK (tt, m') ->
  exists f' tree_funcs,
    nth_error (functions m') (List.length (functions m)) = Some f' /\
    root_blocks py_float exp_f64 log_f64 forest tree_funcs f'.
Proof.
  unfold gen_forest. intros H.
  apply bind_inv in H. destruct H as (root & m1 & Hroot & H).
  apply bind_inv in H. destruct H as (cs & m2 & Htrees & H).
  apply ir_Function_inv in Hroot. destruct Hroot as (-> & Hfs1 & Hi1).
  apply mapM_make_tree_spec in Htrees.
  destruct Htrees as (Hi2 & -> & fts & Hfs2 & Hoks).
  unfold in_function in H. rewrite Hfs2, Hfs1, nth_error_app_mid in H.
  match type of H with
  | match ?c with _ => _ end = _ => destruct c as [[[] [f' decls]]|e] eqn:G
  end; [|discriminate H].
  inversion H; subst m'; clear H.
  exists f'. eexists. split.
  - cbn [functions]. rewrite update_nth_app_mid. apply nth_error_app_mid.
  - apply (populate_forest_func_spec py_float exp_f64 log_f64) in G. exact G.
Qed.

(** X11.  On an empty range, [end <= start] as signed numbers, [forest_root]
    returns at once: no tree is called, nothing is read or written, and the
    heap is as before; this needs nothing of the forest. *)
Theorem forest_root_empty_range py_float exp_f64 log_f64 forest m m'
    db doff ob ooff start end_index h fuel :
  gen_forest py_float forest m = OK (tt, m') ->
  end_index <= start ->
  (3 <= fuel)%nat ->
  run_function exp_f64 log_f64 m' fuel (List.length (functions m))
    (root_args db doff ob ooff start end_index) h = Some (None, h).
Proof.
  intros Hgen Hle Hfuel.
  destruct (gen_forest_root py_float exp_f64 log_f64 forest m m' Hgen)
    as (f' & tfs & Hf & code & B0 & B1 & B2 & B3 & _).
  unfold run_function. rewrite Hf.
  destruct fuel as [|[|[|fuel]]]; try lia.
  erewrite run_branch with
    (fr' := mkFrame (set_reg (fun _ => None) 0 (VSlot 0)) [start] h);
    [|exact B0|reflexivity].
  erewrite run_cbranch with (dec := start <? end_index)
    (fr' := bind_reg (bind_reg
                        (mkFrame (set_reg (fun _ => None) 0 (VSlot 0)) [start] h)
                        2 (VInt start)) 3 (VBool (start <? end_index)));
    [|exact B1| |reflexivity].
  2:{ cbn [exec_instrs exec_instr fst snd eval_operand env slots].
      rewrite set_reg_same. cbn [nth_error].
      cbn [pure_instr eval_operand bind_reg env root_args nth_error].
      rewrite set_reg_same. rewrite icmp_signed_lt. reflexivity. }
  assert (Hlt : (start <? end_index) = false) by (apply Z.ltb_ge; lia).
  rewrite Hlt.
  erewrite run_ret_void; [|exact B3|reflexivity]. reflexivity.
Qed.






(* ===================================================================== *)
(** * Examples for the properties of whole trees and modules *)
(* ===================================================================== *)

Lemma example_tree_generated :
  gen_tree example_tree example_tree_start = OK (tt, example_tree_function).
Proof. vm_compute. reflexivity. Qed.

Lemma tree_function_correct_witness :
  blocks example_tree_start = [] /\
  gen_tree example_tree example_tree_start = OK (tt, example_tree_function) /\
  List.length (fargs example_tree_start) = List.length [false; true] /\
  node_wf [false; true] (Tree.root_node example_tree) = true /\
  Forall2 arg_of_kind [false; true] [VDouble f64_zero; VInt 3] /\
  exists y,
    predict [VDouble f64_zero; VInt 3] (Tree.root_node example_tree) = Some y /\
    forall exp lg m fr fuel,
      (2 * height (Tree.root_node example_tree) <= fuel)%nat ->
      run_blocks exp lg m fuel example_tree_function 0 [VDouble f64_zero; VInt 3] fr
      = Some (Some (VDouble y), mem fr).
Proof.
  assert (Hk : Forall2 arg_of_kind [false; true] [VDouble f64_zero; VInt 3]).
  { constructor; [exists f64_zero; reflexivity|].
    constructor; [exists 3; reflexivity|constructor]. }
  split; [reflexivity|]. split; [exact example_tree_generated|].
  split; [reflexivity|]. split; [reflexivity|]. split; [exact Hk|].
  exact (tree_function_correct example_tree example_tree_start example_tree_function
           [false; true] [VDouble f64_zero; VInt 3]
           eq_refl example_tree_generated eq_refl eq_refl Hk).
Defined.


Lemma numerical_nan_routing_witness :
  _populate_numerical_node_block 0 zero_missing_node (stub_function DOUBLE)
  = OK zero_missing_block /\
  exists code,
    appended (stub_function DOUBLE) (snd zero_missing_block) 0 code /\
    forall exp lg callf args fr v,
      List.length args = List.length (fargs (stub_function DOUBLE)) ->
      node_input args zero_missing_node = Some (VDouble v) ->
      f64_is_nan v = true
      \/ (missing_type (decision_type zero_missing_node) = MNone
          /\ exists s, v = S754_zero s) ->
      exists fr',
        exec_instrs exp lg callf args fr code = Some fr' /\
        eval_operand args (env fr') (fst zero_missing_block)
        = Some (VBool (effective_default_left zero_missing_node)).
Proof.
  split; [reflexivity|].
  exact (numerical_nan_routing 0 zero_missing_node (stub_function DOUBLE)
           (fst zero_missing_block) (snd zero_missing_block) eq_refl).
Defined.

Lemma numerical_ordinary_routing_witness :
  _populate_numerical_node_block 0 zero_missing_node (stub_function DOUBLE)
  = OK zero_missing_block /\
  f64_is_nan (threshold zero_missing_node) = false /\
  exists code,
    appended (stub_function DOUBLE) (snd zero_missing_block) 0 code /\
    forall exp lg callf args fr v,
      List.length args = List.length (fargs (stub_function DOUBLE)) ->
      node_input args zero_missing_node = Some (VDouble v) ->
      f64_is_nan v = false ->
      (missing_type (decision_type zero_missing_node) = MZero ->
       forall s, v <> S754_zero s) ->
      exists fr',
        exec_instrs exp lg callf args fr code = Some fr' /\
        eval_operand args (env fr') (fst zero_missing_block)
        = Some (VBool (SFleb v (threshold zero_missing_node))).
Proof.
  split; [reflexivity|]. split; [reflexivity|].
  exact (numerical_ordinary_routing 0 zero_missing_node (stub_function DOUBLE)
           (fst zero_missing_block) (snd zero_missing_block) eq_refl eq_refl).
Defined.

Lemma small_tree_generated :
  gen_node 0 (categorical_stub small_bitset) (stub_function INT_CAT)
  = OK (tt, small_tree_function).
Proof. vm_compute. reflexivity. Qed.

Lemma negative_category_goes_right_witness :
  is_categorical (decision_type (categorical_stub_node small_bitset)) = true /\
  cat_threshold (categorical_stub_node small_bitset) = Some small_bitset /\
  32 * Z.of_nat (List.length small_bitset) <= two31 /\
  nth_error (blocks (stub_function INT_CAT)) 0 = Some (mkBlock "node_0" [] None) /\
  gen_node 0 (categorical_stub small_bitset) (stub_function INT_CAT)
  = OK (tt, small_tree_function) /\
  List.length [VInt (-1)] = List.length (fargs (stub_function INT_CAT)) /\
  node_input [VInt (-1)] (categorical_stub_node small_bitset) = Some (VInt (-1)) /\
  INT_MIN <= -1 < 0 /\
  predict [VInt (-1)] (Leaf right_leaf) = Some f64_minus_one /\
  forall exp lg m fr fuel,
    (2 * height (categorical_stub small_bitset) <= fuel)%nat ->
    run_blocks exp lg m fuel small_tree_function 0 [VInt (-1)] fr
    = Some (Some (VDouble f64_minus_one), mem fr).
Proof.
  assert (H1 : 32 * Z.of_nat (List.length small_bitset) <= two31)
    by (vm_compute; discriminate).
  assert (H2 : INT_MIN <= -1 < 0) by (unfold INT_MIN, two31; lia).
  split; [reflexivity|]. split; [reflexivity|]. split; [exact H1|].
  split; [reflexivity|]. split; [exact small_tree_generated|].
  split; [reflexivity|]. split; [reflexivity|]. split; [exact H2|].
  split; [reflexivity|].
  exact (negative_category_goes_right (categorical_stub_node small_bitset)
           small_bitset (Leaf left_leaf) (Leaf right_leaf) (stub_function INT_CAT)
           0%nat "node_0" small_tree_function [VInt (-1)] (-1) f64_minus_one
           eq_refl eq_refl H1 eq_refl small_tree_generated eq_refl eq_refl H2 eq_refl).
Defined.

Lemma regression_module_generated :
  gen_forest example_py_float regression_forest empty_module
  = OK (tt, regression_module).
Proof. vm_compute. reflexivity. Qed.

Lemma gen_forest_module_witness :
  gen_forest example_py_float regression_forest empty_module
  = OK (tt, regression_module) /\
  exists root fts,
    functions regression_module = functions empty_module ++ root :: fts /\
    fname root = "forest_root" /\
    fret root = VoidType /\
    fargs root = [DOUBLE_PTR; DOUBLE_PTR; INT; INT] /\
    Forall2 tree_signature fts (Forest.trees regression_forest) /\
    Forall all_terminated (root :: fts).
Proof.
  split; [exact regression_module_generated|].
  exact (gen_forest_module example_py_float regression_forest empty_module
           regression_module regression_module_generated).
Defined.

Lemma gen_forest_intrinsics_witness :
  gen_forest example_py_float regression_forest empty_module
  = OK (tt, regression_module) /\
  intrinsics regression_module = [llvm_exp; llvm_log; llvm_copysign].
Proof.
  split; [exact regression_module_generated|].
  exact (proj2 (gen_forest_intrinsics example_py_float regression_forest empty_module
                  regression_module regression_module_generated) eq_refl).
Defined.

Lemma gen_forest_not_reentrant_witness :
  gen_forest example_py_float regression_forest empty_module
  = OK (tt, regression_module) /\
  gen_forest example_py_float regression_forest regression_module
  = Raise (DuplicatedNameError "forest_root").
Proof.
  split; [exact regression_module_generated|].
  exact (gen_forest_not_reentrant example_py_float regression_forest empty_module
           regression_module regression_module_generated
           example_py_float regression_forest).
Defined.

Lemma forest_root_empty_range_witness :
  gen_forest example_py_float regression_forest empty_module
  = OK (tt, regression_module) /\
  2 <= 2 /\
  (3 <= 3)%nat /\
  run_function stand_in_exp stand_in_log regression_module 3 0
    (root_args 0 0 1 0 2 2) example_heap = Some (None, example_heap).
Proof.
  split; [exact regression_module_generated|]. split; [lia|]. split; [lia|].
  exact (forest_root_empty_range example_py_float stand_in_exp stand_in_log
           regression_forest empty_module regression_module 0 0 1 0 2 2 example_heap 3
           regression_module_generated ltac:(lia) ltac:(lia)).
Defined.

(* ===================================================================== *)
(** * Names, and generation into a fresh module *)
(* ===================================================================== *)






Lemma existsb_name_true name names :
  In name names -> existsb (fun s => String.eqb s name) names = true.
Proof.
  intros H. apply existsb_exists. exists name. split; [exact H|apply String.eqb_refl].
Qed.



